(** * Nimiqode: the encode/decode engine of the nimiqode barcode format

    A shallow embedding of [class Nimiqode] (the engine that sizes the
    hexagon rings, lays the bit stream out into header and payload+parity,
    masks the rings and drives the LDPC codec and the CRC check), together
    with the properties its specification states about it.

    The engine is stateful JavaScript: bit arrays are views into shared
    buffers, and the constructor fills in the fields of [this].  It is
    modelled by a state-and-exception monad over a store of bit buffers. *)

From Stdlib Require Import Strings.Byte QArith Qround Qpower.
From Stdlib Require SpecFloat.
From stdpp Require Import base option list numbers.

Local Open Scope nat_scope.

#[local] Instance gt_decision (x y : nat) : Decision (x > y) := decide (y < x).

(** ** Bits and bytes *)

(** The store keeps every buffer at bit granularity.  A [Uint8Array] of [n]
    bytes is a buffer of [8 * n] bits.  Which bit of a byte comes first is
    the convention of the bit buffer; here each byte contributes its eight
    bits most significant first.  No property below depends on the order,
    only on [bytes_of_bits] undoing [bits_of_bytes]. *)

(** Modelled from the spec: the bits a byte contributes to a bit buffer
    laid over a typed array. *)

Definition byte_bits (b : byte) : list bool :=
  let '(b0, (b1, (b2, (b3, (b4, (b5, (b6, b7))))))) := Byte.to_bits b in
  [b7; b6; b5; b4; b3; b2; b1; b0].

(** [bits[i]]; a missing element counts as 0. *)
Definition bitAt (l : list bool) (i : nat) : bool := default false (l !! i).

Definition bits_byte (l : list bool) : byte :=
  let bit i := bitAt l i in
  Byte.of_bits (bit 7, (bit 6, (bit 5, (bit 4, (bit 3, (bit 2, (bit 1, bit 0))))))).

Definition bits_of_bytes (bs : list byte) : list bool :=
  mbind (M := list) byte_bits bs.

Fixpoint bytes_of_bits_n (n : nat) (l : list bool) : list byte :=
  match n with
  | 0 => []
  | S n' => bits_byte (take 8 l) :: bytes_of_bits_n n' (drop 8 l)
  end.

(** Whole bytes only: a trailing group of fewer than eight bits is dropped. *)
Definition bytes_of_bits (l : list bool) : list byte :=
  bytes_of_bits_n (length l / 8) l.

(** ** The store *)

Abbreviation Buffer := (list bool) (only parsing).
Abbreviation Heap := (list (list bool)) (only parsing).

Definition heap_buffer (h : Heap) (b : nat) : Buffer := default [] (h !! b).

(** [new Uint8Array(n)] and the typed array a caller passes in: a reference to
    a buffer of the store. *)
Module Uint8Array.
Record t := mk { buffer : nat }.

Definition byteLength (h : Heap) (u : t) : nat :=
  length (heap_buffer h (buffer u)) / 8.

Definition bytes (h : Heap) (u : t) : list byte :=
  bytes_of_bits (heap_buffer h (buffer u)).
End Uint8Array.

(** The bit-addressable view [BitArray].  The class is a collaborator of the
    engine (the specification's Bit Buffer) and its code is not part of the
    engine; the operations below are the ones the engine calls. *)
Module BitArray.
(** Modelled from the spec: an addressable view over a bit range, here
    [length] bits of buffer [buffer] beginning at bit [start]. *)
Record t := mk { buffer : nat; start : nat; length : nat }.

(** Modelled from the spec: sub-range slicing,
    [new BitArray(bitArray, start, end)], a view over a view.  No copy is
    made: both views address the same buffer. *)
Definition slice (a : t) (s e : nat) : t :=
  {| buffer := buffer a; start := start a + s; length := e - s |}.

(** Modelled from the spec: conversion to a flat bit sequence,
    [bitArray.toArray()].  A bit lying outside the buffer reads as 0. *)
Definition read (h : Heap) (a : t) : list bool :=
  resize (length a) false (drop (start a) (heap_buffer h (buffer a))).

(** Modelled from the spec: single-bit set, [bitArray.setValue(i, v)], on
    the store.  A write outside the view is dropped. *)
Definition set (h : Heap) (a : t) (i : nat) (v : bool) : Heap :=
  if decide (i < length a)
  then alter (λ buf, <[start a + i := v]> buf) (buffer a) h
  else h.

(** Modelled from the spec: an in-place transform of a bit range.  The
    whole view is overwritten with [bits] (cut or zero-filled to the length
    of the view). *)
Definition write (h : Heap) (a : t) (bits : list bool) : Heap :=
  alter (λ buf, list_inserts (start a) (resize (length a) false bits) buf)
        (buffer a) h.
End BitArray.

(** ** Hexagon rings *)

(** Modelled from the spec: the ring descriptor, with a fixed bit capacity
    and, once assigned, a bit-array view of its share of the data.  Of a
    [HexagonRing] the engine reads [bitCount] and assigns [data]. *)
Record HexagonRing := {
  bitCount : nat;
  data : option BitArray.t
}.

Definition shape (rings : list HexagonRing) : list nat := bitCount <$> rings.

(** ** Errors *)

(** One constructor per [throw] of the engine, plus the [TypeError] that
    JavaScript raises when a property of [undefined] is read. *)
Inductive Error :=
| InvalidArgument                (* 'Invalid argument.' *)
| IllegalErrorCorrectionFactor   (* 'Illegal error correction factor.' *)
| DataTooLong (supported : nat)  (* 'Your data is too long. Supported are up to ... bytes.' *)
| UnsupportedVersion             (* 'Illegal nimiqode: Unsupported version.' *)
| WrongDataLength                (* 'Illegal nimiqode: Wrong data length.' *)
| FailedToDecodePayload          (* 'Illegal nimiqode: Failed to decode payload.' *)
| ChecksumMismatch               (* 'Illegal nimiqode: Checksum mismatch.' *)
| TypeError.

(** The error taxonomy of the specification, and the class each thrown error
    belongs to. *)
Inductive ErrorKind :=
| KInvalidArgument | KPayloadTooLarge | KUnsupportedVersion | KLengthMismatch
| KFecDecodeFailure | KChecksumMismatch | KRuntime.

Definition errorKind (e : Error) : ErrorKind :=
  match e with
  | InvalidArgument | IllegalErrorCorrectionFactor => KInvalidArgument
  | DataTooLong _ => KPayloadTooLarge
  | UnsupportedVersion => KUnsupportedVersion
  | WrongDataLength => KLengthMismatch
  | FailedToDecodePayload => KFecDecodeFailure
  | ChecksumMismatch => KChecksumMismatch
  | TypeError => KRuntime
  end.

(** ** The engine's state and its monad *)

(** The fields of [this]; a field that was never assigned is [None]. *)
Record Nimiqode := {
  _payload : option Uint8Array.t;
  _hexagonRings : option (list HexagonRing);
  _data : option BitArray.t
}.

Definition newInstance : Nimiqode :=
  {| _payload := None; _hexagonRings := None; _data := None |}.

Record World := { heap : Heap; this : Nimiqode }.

Inductive Outcome (A : Type) :=
| Return (a : A)
| Throw (e : Error)
| OutOfFuel.
Arguments Return {A} a.
Arguments Throw {A} e.
Arguments OutOfFuel {A}.

Definition M (A : Type) : Type := World → Outcome A * World.

Definition ret {A} (a : A) : M A := λ w, (Return a, w).
Definition throw {A} (e : Error) : M A := λ w, (Throw e, w).
Definition outOfFuel {A} : M A := λ w, (OutOfFuel, w).
Definition bind {A B} (c : M A) (k : A → M B) : M B :=
  λ w, match c w with
       | (Return a, w') => k a w'
       | (Throw e, w') => (Throw e, w')
       | (OutOfFuel, w') => (OutOfFuel, w')
       end.

Notation "'let!' x ':=' c 'in' k" := (bind c (λ x, k))
  (at level 10, x pattern, c at level 100, k at level 200,
   format "'[v' 'let!'  x  ':='  c  'in' '/' k ']'").
Notation "c ';;;' k" := (bind c (λ _, k))
  (at level 100, k at level 200, right associativity,
   format "'[v' c  ';;;' '/' k ']'").

Definition getHeap : M Heap := λ w, (Return (heap w), w).
Definition modifyHeap (f : Heap → Heap) : M unit :=
  λ w, (Return (), {| heap := f (heap w); this := this w |}).
Definition getThis : M Nimiqode := λ w, (Return (this w), w).
Definition modifyThis (f : Nimiqode → Nimiqode) : M unit :=
  λ w, (Return (), {| heap := heap w; this := f (this w) |}).

(** Allocation: the new buffer gets the next free index of the store. *)
Definition alloc (buf : Buffer) : M nat :=
  λ w, (Return (length (heap w)),
        {| heap := heap w ++ [buf]; this := this w |}).

(** Reading a property of a value that may be [undefined]. *)
Definition defined {A} (o : option A) : M A :=
  match o with Some a => ret a | None => throw TypeError end.

(** [array[i]] for a JavaScript number [i]: [undefined] outside the array. *)
Definition js_index {A} (l : list A) (i : Z) : option A :=
  if decide (i < 0)%Z then None else l !! Z.to_nat i.

(** [for (let i = 0; i < n; ++i) body(i)] *)
Fixpoint forLoopFrom (i n : nat) (body : nat → M unit) : M unit :=
  match n with
  | 0 => ret ()
  | S n' => body i ;;; forLoopFrom (S i) n' body
  end.
Definition forLoop (n : nat) (body : nat → M unit) : M unit :=
  forLoopFrom 0 n body.

(** The monadic face of the [BitArray] and [Uint8Array] operations. *)
Module BitArrayM.
(** Modelled from the spec: [new BitArray(length)], a fresh zeroed buffer. *)
Definition new (n : nat) : M BitArray.t :=
  let! b := alloc (replicate n false) in
  ret (BitArray.mk b 0 n).

(** Modelled from the spec: [new BitArray(uint8Array)], a view of the typed
    array's own bits, so that a bit set through the view changes the
    bytes of the array. *)
Definition ofUint8Array (u : Uint8Array.t) : M BitArray.t :=
  let! h := getHeap in
  ret (BitArray.mk (Uint8Array.buffer u) 0
                   (length (heap_buffer h (Uint8Array.buffer u)))).

(** Modelled from the spec: [new BitArray(bitArray, start, end, true)], an
    independent snapshot of the sub-range in a buffer of its own. *)
Definition copy (a : BitArray.t) (s e : nat) : M BitArray.t :=
  let! h := getHeap in
  let! b := alloc (BitArray.read h (BitArray.slice a s e)) in
  ret (BitArray.mk b 0 (e - s)).

Definition toArray (a : BitArray.t) : M (list bool) :=
  let! h := getHeap in ret (BitArray.read h a).

Definition setValue (a : BitArray.t) (i : nat) (v : bool) : M unit :=
  modifyHeap (λ h, BitArray.set h a i v).

Definition write (a : BitArray.t) (bits : list bool) : M unit :=
  modifyHeap (λ h, BitArray.write h a bits).
End BitArrayM.

Module Uint8ArrayM.
(** [new Uint8Array(n)] *)
Definition new (n : nat) : M Uint8Array.t :=
  let! b := alloc (replicate (8 * n) false) in
  ret (Uint8Array.mk b).

Definition byteLength (u : Uint8Array.t) : M nat :=
  let! h := getHeap in ret (Uint8Array.byteLength h u).

Definition bytes (u : Uint8Array.t) : M (list byte) :=
  let! h := getHeap in ret (Uint8Array.bytes h u).
End Uint8ArrayM.

(** ** JavaScript numbers

    The error-correction factor is a JavaScript number, an IEEE 754
    binary64 value: the Standard Library's [spec_float] at precision 53 and
    maximal exponent 1024, with its multiplication, division and
    comparisons (round to nearest, ties to even; a comparison with NaN is
    false).  The bit counts of the engine are integers; they are taken to
    stay below 2^53, where binary64 holds every integer exactly, so that
    the engine's additions and subtractions of bit counts are those of the
    integers. *)
Module Float64.
Definition t : Type := SpecFloat.spec_float.
Definition prec : Z := 53.
Definition emax : Z := 1024.

(** The literal [0]. *)
Definition zero : t := SpecFloat.S754_zero false.
(** [NaN] *)
Definition nan : t := SpecFloat.S754_nan.

(** The binary64 that holds the integer [n] (the nearest one, should [n]
    need more than 53 bits). *)
Definition of_nat (n : nat) : t :=
  SpecFloat.binary_normalize prec emax (Z.of_nat n) 0 false.

(** [x * y], [x / y], [x < y], [x <= y] *)
Definition mul : t → t → t := SpecFloat.SFmul prec emax.
Definition div : t → t → t := SpecFloat.SFdiv prec emax.
Definition ltb : t → t → bool := SpecFloat.SFltb.
Definition leb : t → t → bool := SpecFloat.SFleb.

(** The number written [a / b] in JavaScript, for integers [a] and [b]:
    [ratio 1 2] is 0.5, [ratio 3 10] is 0.3. *)
Definition ratio (a b : nat) : t := div (of_nat a) (of_nat b).

(** The rational a finite binary64 stands for (0 for the others). *)
Definition value (x : t) : Q :=
  match x with
  | SpecFloat.S754_finite s m e =>
    (if s then -1 else 1) * inject_Z (Z.pos m) * Qpower 2 e
  | _ => 0
  end.
End Float64.

(** What [Math.ceil] returns, and what the ring-sizing loop computes with:
    an integer, an infinity or NaN. *)
Inductive Number := Int (z : Z) | PlusInfinity | MinusInfinity | NotANumber.

Module Number.
(** [n + x] for a bit count [n].  The sum is the exact one; where it
    reaches 2^53 JavaScript rounds it, to a number that is still at least
    2^53, so the comparison with a bit count comes out the same. *)
Definition add_nat (n : nat) (x : Number) : Number :=
  match x with
  | Int z => Int (Z.of_nat n + z)
  | _ => x
  end.

(** [n < x] for a bit count [n]; false when [x] is NaN *)
Definition ltb_nat (n : nat) (x : Number) : bool :=
  match x with
  | Int z => bool_decide (Z.of_nat n < z)%Z
  | PlusInfinity => true
  | MinusInfinity | NotANumber => false
  end.
End Number.

(** [Math.ceil(x)]: the least integer that is not below [x]; an infinity
    and NaN are returned as they are, and a zero of either sign is 0. *)
Definition Math_ceil (x : Float64.t) : Number :=
  match x with
  | SpecFloat.S754_zero _ => Int 0
  | SpecFloat.S754_infinity false => PlusInfinity
  | SpecFloat.S754_infinity true => MinusInfinity
  | SpecFloat.S754_nan => NotANumber
  | SpecFloat.S754_finite _ _ _ => Int (Qceiling (Float64.value x))
  end.

(** ** The collaborators of the engine *)

(** The classes the engine calls ([NimiqodeSpecification], [HexagonRing],
    [NimiqodeHeader], [CRC16], [LDPC], [Masking]) are an interface here.
    The error-correction factor and its bound are binary64 numbers.  The
    error-correction length that encode hands to the codec and to the
    header is an integer: the engine computes it by a subtraction, which a
    factor that is not a number can take below zero. *)
Class Collaborators := {
  (** [NimiqodeSpecification] *)
  CURRENT_VERSION : Z;
  MAX_FACTOR_ERROR_CORRECTION_DATA : Float64.t;
  HEADER_LENGTH_PAYLOAD_LENGTH : nat;
  (** [bitCount] of the ring that [new HexagonRing] builds from the radius,
      slot and finder-pattern constants of ring [index] *)
  HexagonRing_bitCount : nat → nat;
  (** [NimiqodeHeader] *)
  NimiqodeHeader_calculateMaskCount : list HexagonRing → nat;
  NimiqodeHeader_calculateLength : nat → nat;
  NimiqodeHeader_write :
    list bool → Z → nat → Z → nat → list nat → list bool;
  NimiqodeHeader_read :
    list bool → list HexagonRing → Z * nat * nat * nat * list nat;
  (** [CRC16.crc16] *)
  CRC16_crc16 : list byte → nat;
  (** [LDPC.encode], [LDPC.decode] (which may throw) *)
  LDPC_encode : list bool → Z → list bool;
  LDPC_decode : list bool → nat → nat → option (list bool);
  (** [Masking.findBestMask], [Masking.applyMask] *)
  Masking_findBestMask : list bool → nat;
  Masking_applyMask : nat → list bool → list bool
}.

(** [Math.ceil(n * factor)], for a bit count [n]: the count becomes a
    binary64, the product is the binary64 product. *)
Definition ceilMul (n : nat) (factor : Float64.t) : Number :=
  Math_ceil (Float64.mul (Float64.of_nat n) factor).

Definition set_payload (p : Uint8Array.t) (t : Nimiqode) : Nimiqode :=
  {| _payload := Some p; _hexagonRings := _hexagonRings t; _data := _data t |}.
Definition set_hexagonRings (r : list HexagonRing) (t : Nimiqode) : Nimiqode :=
  {| _payload := _payload t; _hexagonRings := Some r; _data := _data t |}.
Definition set_data (d : BitArray.t) (t : Nimiqode) : Nimiqode :=
  {| _payload := _payload t; _hexagonRings := _hexagonRings t; _data := Some d |}.

Definition thisHexagonRings : M (list HexagonRing) :=
  let! t := getThis in defined (_hexagonRings t).
Definition thisData : M BitArray.t :=
  let! t := getThis in defined (_data t).
Definition thisPayload : M Uint8Array.t :=
  let! t := getThis in defined (_payload t).

Section Engine.
Context {C : Collaborators}.

(** [static calculateLength(hexRings, lengthPayload, lengthErrorCorrection)] *)
Definition calculateLength (hexRings : list HexagonRing)
    (lengthPayload : nat) (lengthErrorCorrection : Number) : Number :=
  let hexRingMaskCount := NimiqodeHeader_calculateMaskCount hexRings in
  Number.add_nat
    (NimiqodeHeader_calculateLength hexRingMaskCount + lengthPayload)
    lengthErrorCorrection.

(** [static createHexagonRing(index)].  Every argument of the
    [HexagonRing] constructor is a constant or a function of [index]. *)
Definition createHexagonRing (index : nat) : HexagonRing :=
  {| bitCount := HexagonRing_bitCount index; data := None |}.

(** The [do ... while] of [_createHexagonRings]; [fuel] bounds the number
    of iterations. *)
Fixpoint createHexagonRingsLoop (fuel payloadLength : nat)
    (errorCorrectionLength : Number) (totalBits hexagonRingCount : nat)
    : M nat :=
  match fuel with
  | 0 => outOfFuel
  | S fuel' =>
    let hexRing := createHexagonRing hexagonRingCount in
    let! rings := thisHexagonRings in
    modifyThis (set_hexagonRings (rings ++ [hexRing])) ;;;
    let totalBits := totalBits + bitCount hexRing in
    let hexagonRingCount := S hexagonRingCount in
    let! rings := thisHexagonRings in
    if Number.ltb_nat totalBits
         (calculateLength rings payloadLength errorCorrectionLength)
       || bool_decide (hexagonRingCount < 2)
    then createHexagonRingsLoop fuel' payloadLength errorCorrectionLength
           totalBits hexagonRingCount
    else ret totalBits
  end.

Definition _createHexagonRings (fuel payloadLength : nat)
    (errorCorrectionLength : Number) : M nat :=
  createHexagonRingsLoop fuel payloadLength errorCorrectionLength 0 0.

(** [static assignHexagonRingData(hexagonRings, data)]: the rings with their
    [data] assigned. *)
Fixpoint assignLoop (hexagonRings : list HexagonRing) (data : BitArray.t)
    (handledBits : nat) : list HexagonRing :=
  match hexagonRings with
  | [] => []
  | hexRing :: rest =>
    {| bitCount := bitCount hexRing;
       data := Some (BitArray.slice data handledBits
                       (handledBits + bitCount hexRing)) |}
    :: assignLoop rest data (handledBits + bitCount hexRing)
  end.

Definition assignHexagonRingData (hexagonRings : list HexagonRing)
    (data : BitArray.t) : list HexagonRing :=
  assignLoop hexagonRings data 0.

(** The [for] loop of [_maskHexagonRings]: [count] iterations are left,
    [i] is the loop counter.  When masks are given the loop runs
    [givenMasks.length] times, so [givenMasks[givenMasks.length - i - 1]]
    is always an element of the array. *)
Fixpoint maskLoop (givenMasks : option (list nat)) (dataToMask : BitArray.t)
    (count i hexRingEnd : nat) (masks : list nat) : M (list nat) :=
  match count with
  | 0 => ret masks
  | S count' =>
    let! rings := thisHexagonRings in
    let! hexRing :=
      defined (js_index rings (Z.of_nat (length rings) - Z.of_nat i - 1)) in
    let hexRingDataToMask :=
      BitArray.slice dataToMask
        (Z.to_nat (Z.max 0 (Z.of_nat hexRingEnd - Z.of_nat (bitCount hexRing))))
        hexRingEnd in
    let! mask :=
      match givenMasks with
      | Some given =>
        defined (js_index given (Z.of_nat (length given) - Z.of_nat i - 1))
      | None =>
        let! bits := BitArrayM.toArray hexRingDataToMask in
        ret (Masking_findBestMask bits)
      end in
    let! bits := BitArrayM.toArray hexRingDataToMask in
    BitArrayM.write hexRingDataToMask (Masking_applyMask mask bits) ;;;
    let hexRingEnd := hexRingEnd - BitArray.length hexRingDataToMask in
    maskLoop givenMasks dataToMask count' (S i) hexRingEnd (mask :: masks)
  end.

(** [_maskHexagonRings(maskCountOrMasks, dataToMask)] *)
Definition _maskHexagonRings (maskCountOrMasks : nat + list nat)
    (dataToMask : BitArray.t) : M (list nat) :=
  let givenMasks :=
    match maskCountOrMasks with inr given => Some given | inl _ => None end in
  let maskCount :=
    match maskCountOrMasks with inr given => length given | inl n => n end in
  maskLoop givenMasks dataToMask maskCount 0 (BitArray.length dataToMask) [].

(** [async _constructFromPayload(payload, errorCorrectionFactor, version)].
    The argument [payload] is a typed array by its type, so of the first
    guard the tests on [version] and on [byteLength] remain.  The second
    guard is the source's [factor < 0 || factor > MAX], which a NaN
    passes.  [fuel] is handed to the ring-sizing loop. *)
Definition _constructFromPayload (fuel : nat) (payload : Uint8Array.t)
    (errorCorrectionFactor : Float64.t) (version : Z) : M unit :=
  let! byteLength := Uint8ArrayM.byteLength payload in
  if bool_decide (version ≠ CURRENT_VERSION) || bool_decide (byteLength = 0)
  then throw InvalidArgument else
  if Float64.ltb errorCorrectionFactor Float64.zero
     || Float64.ltb MAX_FACTOR_ERROR_CORRECTION_DATA errorCorrectionFactor
  then throw IllegalErrorCorrectionFactor else
  if bool_decide (byteLength * 8 > 2 ^ HEADER_LENGTH_PAYLOAD_LENGTH * 8)
  then throw (DataTooLong (2 ^ HEADER_LENGTH_PAYLOAD_LENGTH)) else
  let! payloadBitArray := BitArrayM.ofUint8Array payload in
  modifyThis (set_payload payload) ;;;
  let preliminaryErrorCorrectionLength :=
    ceilMul (BitArray.length payloadBitArray) errorCorrectionFactor in
  modifyThis (set_hexagonRings []) ;;;
  let! dataLength :=
    _createHexagonRings fuel (BitArray.length payloadBitArray)
      preliminaryErrorCorrectionLength in
  let! payloadBytes := Uint8ArrayM.bytes payload in
  let checksum := CRC16_crc16 payloadBytes in
  (* create bit arrays *)
  let! data := BitArrayM.new dataLength in
  modifyThis (set_data data) ;;;
  let! rings := thisHexagonRings in
  let hexRingMaskCount := NimiqodeHeader_calculateMaskCount rings in
  let headerLength := NimiqodeHeader_calculateLength hexRingMaskCount in
  let header := BitArray.slice data 0 headerLength in
  let errorCorrectionLength : Z :=
    (Z.of_nat dataLength - Z.of_nat headerLength
     - Z.of_nat (BitArray.length payloadBitArray))%Z in
  let encodedPayload :=
    BitArray.slice data headerLength
      (Z.to_nat (Z.of_nat headerLength + Z.of_nat (BitArray.length payloadBitArray)
                 + errorCorrectionLength)%Z) in
  (* assemble data *)
  let! payloadBits := BitArrayM.toArray payloadBitArray in
  let encodedPayloadBits := LDPC_encode payloadBits errorCorrectionLength in
  forLoop (BitArray.length encodedPayload) (λ i,
    BitArrayM.setValue encodedPayload i (bitAt encodedPayloadBits i)) ;;;
  let! hexRingMasks := _maskHexagonRings (inl hexRingMaskCount) encodedPayload in
  let! headerBits := BitArrayM.toArray header in
  BitArrayM.write header
    (NimiqodeHeader_write headerBits version (BitArray.length payloadBitArray)
       errorCorrectionLength checksum hexRingMasks) ;;;
  let! rings := thisHexagonRings in
  let! data := thisData in
  modifyThis (set_hexagonRings (assignHexagonRingData rings data)) ;;;
  ret ().

(** [async _constructFromScan(hexagonRings, data)] *)
Definition _constructFromScan (hexagonRings : list HexagonRing)
    (data : BitArray.t) : M unit :=
  modifyThis (set_hexagonRings hexagonRings) ;;;
  modifyThis (set_data data) ;;;
  let hexRingMaskCount := NimiqodeHeader_calculateMaskCount hexagonRings in
  let headerLength := NimiqodeHeader_calculateLength hexRingMaskCount in
  let! thisdata := thisData in
  let header := BitArray.slice thisdata 0 headerLength in
  let! headerBits := BitArrayM.toArray header in
  let '(version, payloadLength, errorCorrectionLength, checksum, hexRingMasks) :=
    NimiqodeHeader_read headerBits hexagonRings in
  if bool_decide (version ≠ 0%Z) then throw UnsupportedVersion else
  if bool_decide (headerLength + payloadLength + errorCorrectionLength
                  ≠ BitArray.length data)
  then throw WrongDataLength else
  (* unmask the payload *)
  let! encodedPayload :=
    BitArrayM.copy thisdata headerLength (BitArray.length thisdata) in (* a copy *)
  _maskHexagonRings (inr hexRingMasks) encodedPayload ;;;
  (* decode the payload *)
  let! received := BitArrayM.toArray encodedPayload in
  match LDPC_decode received payloadLength errorCorrectionLength with
  | None => throw FailedToDecodePayload
  | Some payloadBits =>
    let! payload := Uint8ArrayM.new (payloadLength / 8) in (* in byte *)
    modifyThis (set_payload payload) ;;;
    let! payloadBitArray := BitArrayM.ofUint8Array payload in
    forLoop payloadLength (λ i,
      BitArrayM.setValue payloadBitArray i (bitAt payloadBits i)) ;;;
    let! payloadBytes := Uint8ArrayM.bytes payload in
    if bool_decide (CRC16_crc16 payloadBytes ≠ checksum)
    then throw ChecksumMismatch
    else ret ()
  end.
End Engine.

(** ** A small instance of the collaborators

    A toy format, used to run the engine on concrete inputs: rings of a
    given capacity, every ring but the innermost masked, two masks (identity
    and complement), a systematic code with zero parity, and a header of
    fixed-width binary fields ([version]: 2 bits, payload bytes minus one:
    2 bits, error-correction length: 8 bits, checksum: 8 bits, one bit per
    mask). *)
Module Toy.
Fixpoint nat_bits (width n : nat) : list bool :=
  match width with
  | 0 => []
  | S w => nat_bits w (n / 2) ++ [bool_decide (n mod 2 = 1)]
  end.

Definition bits_nat (l : list bool) : nat :=
  foldl (λ acc (b : bool), 2 * acc + (if b then 1 else 0)) 0 l.

Definition field (l : list bool) (from width : nat) : nat :=
  bits_nat (take width (drop from l)).

Definition write (region : list bool) (version : Z) (payloadLength : nat)
    (errorCorrectionLength : Z) (checksum : nat) (masks : list nat)
    : list bool :=
  resize (length region) false
    (nat_bits 2 (Z.to_nat version) ++ nat_bits 2 (payloadLength / 8 - 1)
     ++ nat_bits 8 (Z.to_nat errorCorrectionLength) ++ nat_bits 8 checksum
     ++ (masks ≫= nat_bits 1)).

Definition maskCount (rings : list HexagonRing) : nat := length rings - 1.

Definition read (region : list bool) (rings : list HexagonRing)
    : Z * nat * nat * nat * list nat :=
  (Z.of_nat (field region 0 2), 8 * (field region 2 2 + 1),
   field region 4 8, field region 12 8,
   (λ i, field region (20 + i) 1) <$> seq 0 (maskCount rings)).

Definition checksum (bs : list byte) : nat :=
  foldr (λ b acc, (Byte.to_nat b + acc) mod 256) 0 bs.

Definition encode (bits : list bool) (parity : Z) : list bool :=
  bits ++ replicate (Z.to_nat parity) false.

Definition decode (received : list bool) (payloadLength parity : nat)
    : option (list bool) :=
  if decide (length received = payloadLength + parity)
  then Some (take payloadLength received) else None.

Definition findBestMask (bits : list bool) : nat :=
  if decide (2 * length (filter (λ b, b = true) bits) < length bits)
  then 1 else 0.

Definition applyMask (mask : nat) (bits : list bool) : list bool :=
  match mask with 0 => bits | _ => negb <$> bits end.

Definition collaborators (capacity : nat → nat) (headerBase : nat)
    : Collaborators :=
  {| CURRENT_VERSION := 0;
     MAX_FACTOR_ERROR_CORRECTION_DATA := Float64.of_nat 2;
     HEADER_LENGTH_PAYLOAD_LENGTH := 2;
     HexagonRing_bitCount := capacity;
     NimiqodeHeader_calculateMaskCount := maskCount;
     NimiqodeHeader_calculateLength := λ n, headerBase + n;
     NimiqodeHeader_write := write;
     NimiqodeHeader_read := read;
     CRC16_crc16 := checksum;
     LDPC_encode := encode;
     LDPC_decode := decode;
     Masking_findBestMask := findBestMask;
     Masking_applyMask := applyMask |}.

(** Rings of 32, 40, 48, ... bits: the header fits the innermost ring. *)
Definition wide : Collaborators := collaborators (λ i, 32 + 8 * i) 20.
(** Rings of 16 bits each: the header reaches into the second ring. *)
Definition narrow : Collaborators := collaborators (λ _, 16) 20.

(** A store holding one typed array, the payload. *)
Definition world (payload : list byte) : World :=
  {| heap := [bits_of_bytes payload]; this := newInstance |}.
Definition payload : Uint8Array.t := Uint8Array.mk 0.

(** Payloads: two bytes, and five bytes (one more than the four that the
    two-bit length field of the toy format admits). *)
Definition ab : list byte := ["a"; "b"]%byte.
Definition abc : list byte := ["a"; "b"; "c"]%byte.
Definition abcde : list byte := ["a"; "b"; "c"; "d"; "e"]%byte.

(** A scan that found a single 32-bit ring: a header declaring one payload
    byte and four parity bits, then the twelve bits of payload and parity. *)
Definition singleRingData : BitArray.t := BitArray.mk 0 0 32.
Definition singleRing : HexagonRing :=
  {| bitCount := 32; data := Some singleRingData |}.
Definition singleRingWorld : World :=
  {| heap := [write (replicate 20 false) 0 8 4 0 [] ++ replicate 12 false];
     this := newInstance |}.

(** The same scan with version 1 in its header, and the same scan read as a
    bit stream of 30 bits only. *)
Definition versionOneWorld : World :=
  {| heap := [write (replicate 20 false) 1 8 4 0 [] ++ replicate 12 false];
     this := newInstance |}.
Definition shortData : BitArray.t := BitArray.mk 0 0 30.

(** An instance with three 16-bit rings, and a bit array of 48 bits whose
    last 26 bits are the payload+parity region: fewer bits than the two
    masked rings hold. *)
Definition threeRings : list HexagonRing :=
  [ {| bitCount := 16; data := None |}; {| bitCount := 16; data := None |};
    {| bitCount := 16; data := None |} ].
Definition regionBits : list bool :=
  [true; false; false; true; true; true; false; true; false; false; false; true; true;
   false; true; true; false; false; false; false; true; false; true; true; true; false].
Definition regionWorld : World :=
  {| heap := [replicate 22 false ++ regionBits ++ []];
     this := {| _payload := None; _hexagonRings := Some threeRings; _data := None |} |}.
Definition region : BitArray.t := BitArray.mk 0 22 26.
End Toy.

(** ** Auxiliary notions for the proofs *)

(** The errors a computation can throw all satisfy [P]. *)
Definition throwsOnly {A} (P : Error → Prop) (c : M A) : Prop :=
  ∀ w e w', c w = (Throw e, w') → P e.

(** The view [a] addresses the bits [R] of its buffer, which holds [pre]
    before them and [post] after them. *)
Definition focused (h : Heap) (a : BitArray.t) (pre R post : list bool) : Prop :=
  h !! BitArray.buffer a = Some (pre ++ R ++ post)
  ∧ length pre = BitArray.start a
  ∧ length R = BitArray.length a.

(** ** The masking pass on the bits of [dataToMask]

    The loop of [_maskHexagonRings] as a function of the bits [R] that
    [dataToMask] addresses.  [caps] lists the [bitCount] of the rings in the
    order the loop visits them. *)
Section MaskRegion.
Context {C : Collaborators}.

(** The rings the loop visits from iteration [i] on, [count] of them:
    the last ring first. *)
Definition visited (rings : list HexagonRing) (i count : nat) : list nat :=
  take count (drop i (reverse (shape rings))).

(** The mask of iteration [i]: read from the end of [givenMasks], or the
    best one for the bits of the sub-range. *)
Definition chooseMask (givenMasks : option (list nat)) (i : nat)
    (bits : list bool) : nat :=
  match givenMasks with
  | Some given => default 0 (given !! (length given - i - 1))
  | None => Masking_findBestMask bits
  end.

Fixpoint maskRegion (givenMasks : option (list nat)) (caps : list nat)
    (i hexRingEnd : nat) (R : list bool) (masks : list nat)
    : list bool * list nat :=
  match caps with
  | [] => (R, masks)
  | cap :: caps' =>
    let lo := hexRingEnd - cap in
    let bits := take (hexRingEnd - lo) (drop lo R) in
    let mask := chooseMask givenMasks i bits in
    let R' := take lo R
              ++ resize (hexRingEnd - lo) false (Masking_applyMask mask bits)
              ++ drop hexRingEnd R in
    maskRegion givenMasks caps' (S i) lo R' (mask :: masks)
  end.
End MaskRegion.

(** ** The ring-sizing loop, iteration by iteration *)
Section Sizing.
Context {C : Collaborators}.

(** The ring set after [n] iterations of the loop of
    [_createHexagonRings], and its [totalBits]. *)
Definition ringsUpTo (n : nat) : list HexagonRing :=
  createHexagonRing <$> seq 0 n.
Definition capacity (n : nat) : nat := sum_list (shape (ringsUpTo n)).

(** The loop condition, evaluated after the [n]-th ring was added. *)
Definition sizingContinues (payloadLength : nat)
    (errorCorrectionLength : Number) (n : nat) : bool :=
  Number.ltb_nat (capacity n)
    (calculateLength (ringsUpTo n) payloadLength errorCorrectionLength)
  || bool_decide (n < 2).

(** The loop goes on after each of the first [n - 1] rings and stops after
    the [n]-th. *)
Definition sizingStopsAt (payloadLength : nat)
    (errorCorrectionLength : Number) (n : nat) : bool :=
  bool_decide (0 < n)
  && negb (sizingContinues payloadLength errorCorrectionLength n)
  && forallb (sizingContinues payloadLength errorCorrectionLength) (seq 1 (n - 1)).
End Sizing.

(** The world [w] with [this._hexagonRings] set to [rings]. *)
Definition withRings (rings : list HexagonRing) (w : World) : World :=
  {| heap := heap w; this := set_hexagonRings rings (this w) |}.

(** ** What encode computes

    The layout and the bits that [_constructFromPayload] produces for the
    payload bytes [P], once the ring-sizing loop has stopped with [n]
    rings. *)
Section Plan.
Context {C : Collaborators}.

Definition plannedMaskCount (n : nat) : nat :=
  NimiqodeHeader_calculateMaskCount (ringsUpTo n).
Definition plannedHeaderLength (n : nat) : nat :=
  NimiqodeHeader_calculateLength (plannedMaskCount n).
(** [errorCorrectionLength = dataLength - headerLength - payloadBitArray.length],
    as a bit count: when the rings hold header and payload. *)
Definition finalErrorCorrectionLength (P : list byte) (n : nat) : nat :=
  capacity n - plannedHeaderLength n - 8 * length P.

(** The payload+parity region after masking, and the masks chosen. *)
Definition maskedPayload (P : list byte) (n : nat) : list bool * list nat :=
  maskRegion None (visited (ringsUpTo n) 0 (plannedMaskCount n)) 0
    (capacity n - plannedHeaderLength n)
    (resize (capacity n - plannedHeaderLength n) false
       (LDPC_encode (bits_of_bytes P)
          (Z.of_nat (finalErrorCorrectionLength P n))))
    [].

(** The header region after [NimiqodeHeader.write]. *)
Definition writtenHeader (version : Z) (P : list byte) (n : nat) : list bool :=
  resize (plannedHeaderLength n) false
    (NimiqodeHeader_write (replicate (plannedHeaderLength n) false) version
       (8 * length P) (Z.of_nat (finalErrorCorrectionLength P n))
       (CRC16_crc16 P) (maskedPayload P n).2).

(** The whole bit stream [this._data]. *)
Definition encodedData (version : Z) (P : list byte) (n : nat) : list bool :=
  writtenHeader version P n ++ (maskedPayload P n).1.

(** The instance encode returns when it allocates its bit stream as buffer
    [b] of the store. *)
Definition encodedInstance (payload : Uint8Array.t) (n b : nat) : Nimiqode :=
  let data := BitArray.mk b 0 (capacity n) in
  {| _payload := Some payload;
     _hexagonRings := Some (assignHexagonRingData (ringsUpTo n) data);
     _data := Some data |}.
End Plan.

(** ** The contracts of the collaborators

    What the round trip relies on, after the contracts the specification
    lists for them: the mask count depends on the shape of the ring set only
    and does not exceed the number of rings; the code is systematic in
    length and decodes what it encoded; a mask keeps the length of the bits
    and is its own inverse. *)
Class Contracts (C : Collaborators) : Prop := {
  calculateMaskCount_shape rings rings' :
    shape rings = shape rings' →
    NimiqodeHeader_calculateMaskCount rings = NimiqodeHeader_calculateMaskCount rings';
  calculateMaskCount_le rings :
    NimiqodeHeader_calculateMaskCount rings ≤ length rings;
  LDPC_encode_length bits (parity : nat) :
    length (LDPC_encode bits (Z.of_nat parity)) = length bits + parity;
  LDPC_decode_encode bits (parity : nat) :
    LDPC_decode (LDPC_encode bits (Z.of_nat parity)) (length bits) parity
    = Some bits;
  applyMask_length mask bits :
    length (Masking_applyMask mask bits) = length bits;
  applyMask_involutive mask bits :
    Masking_applyMask mask (Masking_applyMask mask bits) = bits
}.

(** [NimiqodeHeader.read] returns the fields that [NimiqodeHeader.write] put
    into the header of the encoding of [P] with [n] rings, for any ring set
    of that shape. *)
Definition headerReadsBack `{C : Collaborators} (P : list byte) (n : nat) : Prop :=
  ∀ hexagonRings,
    shape hexagonRings = shape (ringsUpTo n) →
    NimiqodeHeader_read (writtenHeader CURRENT_VERSION P n) hexagonRings
    = (CURRENT_VERSION, 8 * length P, finalErrorCorrectionLength P n,
       CRC16_crc16 P, (maskedPayload P n).2).

(** The store holds the bytes [P] in the typed array [u]. *)
Definition holdsBytes (h : Heap) (u : Uint8Array.t) (P : list byte) : Prop :=
  h !! Uint8Array.buffer u = Some (bits_of_bytes P).

(** [c] relates the world it starts in to the world it ends in by [R],
    whatever its outcome. *)
Definition ensures {A} (c : M A) (R : World → World → Prop) : Prop :=
  ∀ w o w', c w = (o, w') → R w w'.

(** Only buffer [b] of the store may differ between [w] and [w']; the
    instance is the same. *)
Definition sameExcept (b : nat) (w w' : World) : Prop :=
  this w' = this w
  ∧ length (heap w') = length (heap w)
  ∧ ∀ b', b' ≠ b → heap w' !! b' = heap w !! b'.

(** Every buffer of the store has in [w'] the length it has in [w]. *)
Definition sameSizes (w w' : World) : Prop :=
  ∀ b, length (heap_buffer (heap w') b) = length (heap_buffer (heap w) b).

(** ** The accessors of an instance *)

(** [get payload()] and [get hexagonRings()]: the field, [undefined] (here
    [None]) while it was never assigned. *)
Module Get.
Definition payload : M (option Uint8Array.t) :=
  let! t := getThis in ret (_payload t).
Definition hexagonRings : M (option (list HexagonRing)) :=
  let! t := getThis in ret (_hexagonRings t).
End Get.

(** The bits a ring holds: those its [data] view addresses; none while no
    data is assigned to it. *)
Definition ringBits (h : Heap) (ring : HexagonRing) : list bool :=
  from_option (BitArray.read h) [] (data ring).

(** ** Further concrete inputs *)
Module Scenarios.
(** A second payload of two bytes. *)
Definition cd : list byte := ["c"; "d"]%byte.

(** The wide toy format with an FEC decoder that rejects whatever it is
    given. *)
Definition rejecting : Collaborators :=
  {| CURRENT_VERSION := 0;
     MAX_FACTOR_ERROR_CORRECTION_DATA := Float64.of_nat 2;
     HEADER_LENGTH_PAYLOAD_LENGTH := 2;
     HexagonRing_bitCount := λ i, 32 + 8 * i;
     NimiqodeHeader_calculateMaskCount := Toy.maskCount;
     NimiqodeHeader_calculateLength := λ n, 20 + n;
     NimiqodeHeader_write := Toy.write;
     NimiqodeHeader_read := Toy.read;
     CRC16_crc16 := Toy.checksum;
     LDPC_encode := Toy.encode;
     LDPC_decode := λ _ _ _, None;
     Masking_findBestMask := Toy.findBestMask;
     Masking_applyMask := Toy.applyMask |}.

(** The scan of a single 32-bit ring whose header carries the checksum 5,
    which is not the checksum of the zero byte that follows it. *)
Definition wrongChecksumWorld : World :=
  {| heap := [Toy.write (replicate 20 false) 0 8 4 5 [] ++ replicate 12 false];
     this := newInstance |}.
End Scenarios.

(** * Properties *)

(** ** Bits and bytes *)

Lemma length_byte_bits b : length (byte_bits b) = 8.
Proof. unfold byte_bits. by destruct (Byte.to_bits b) as (?&?&?&?&?&?&?&?). Qed.

Lemma bits_byte_bits b l : bits_byte (byte_bits b ++ l) = b.
Proof.
  unfold bits_byte, byte_bits.
  transitivity (Byte.of_bits (Byte.to_bits b)); [|apply Byte.of_bits_to_bits].
  by destruct (Byte.to_bits b) as (?&?&?&?&?&?&?&?).
Qed.

Lemma length_bits_of_bytes bs : length (bits_of_bytes bs) = 8 * length bs.
Proof.
  unfold bits_of_bytes. induction bs as [|b bs IH]; [done|].
  cbn [mbind list_bind]. rewrite length_app, length_byte_bits. cbn [length].
  rewrite IH. lia.
Qed.

Lemma bytes_of_bits_n_app bs l :
  bytes_of_bits_n (length bs) (bits_of_bytes bs ++ l) = bs.
Proof.
  induction bs as [|b bs IH]; [done|].
  cbn [length bytes_of_bits_n]. unfold bits_of_bytes. cbn [mbind list_bind].
  rewrite <- !app_assoc.
  rewrite (take_app_length' (byte_bits b)) by (by rewrite length_byte_bits).
  rewrite (drop_app_length' (byte_bits b)) by (by rewrite length_byte_bits).
  rewrite <- (app_nil_r (byte_bits b)) at 1. rewrite bits_byte_bits.
  f_equal. apply IH.
Qed.

Lemma bytes_of_bits_of_bytes bs : bytes_of_bits (bits_of_bytes bs) = bs.
Proof.
  unfold bytes_of_bits. rewrite length_bits_of_bytes.
  replace (8 * length bs / 8) with (length bs)
    by (symmetry; rewrite Nat.mul_comm; apply Nat.div_mul; lia).
  rewrite <- (app_nil_r (bits_of_bytes bs)). apply bytes_of_bits_n_app.
Qed.

Lemma length_bytes_of_bits_n n l : length (bytes_of_bits_n n l) = n.
Proof. revert l. induction n as [|n IH]; intros l; cbn; [done|]. by rewrite IH. Qed.

Lemma length_bytes_of_bits l : length (bytes_of_bits l) = length l / 8.
Proof. apply length_bytes_of_bits_n. Qed.

Lemma Uint8Array_length_bytes h u :
  length (Uint8Array.bytes h u) = Uint8Array.byteLength h u.
Proof. apply length_bytes_of_bits. Qed.

(** ** Binary64 arithmetic *)

Section Binary64.
Import SpecFloat.

Lemma SFcompare_swap x y :
  SFcompare y x = CompOpp <$> SFcompare x y.
Proof.
  destruct x as [[]|[]| |[] mx ex], y as [[]|[]| |[] my ey]; try reflexivity;
    cbn [SFcompare fmap option_fmap option_map]; f_equal;
    rewrite (Z.compare_antisym ex ey);
    pose proof (Pos.compare_cont_antisym mx my Eq) as Hm; cbn [CompOpp] in Hm;
    rewrite <- Hm;
    destruct (ex ?= ey)%Z; cbn [CompOpp]; reflexivity.
Qed.

Lemma Float64_leb_ltb x y : Float64.leb x y = true → Float64.ltb y x = false.
Proof.
  unfold Float64.leb, Float64.ltb, SFleb, SFltb. rewrite (SFcompare_swap x y).
  by destruct (SFcompare x y) as [[]|].
Qed.

(** What [0 <= x] leaves of the binary64 values. *)
Lemma Float64_leb_zero x :
  Float64.leb Float64.zero x = true →
  (∃ s, x = S754_zero s) ∨ (∃ m e, x = S754_finite false m e) ∨ x = S754_infinity false.
Proof.
  destruct x as [s|[]| |[] m e]; try done; eauto.
Qed.

Lemma Float64_not_ltb_zero x :
  Float64.ltb x Float64.zero = false →
  x = S754_nan ∨ (∃ s, x = S754_zero s) ∨ (∃ m e, x = S754_finite false m e)
  ∨ x = S754_infinity false.
Proof.
  destruct x as [s|[]| |[] m e]; try done; eauto 6.
Qed.

Lemma shr_1_nonneg mrs : (0 ≤ shr_m mrs)%Z → (0 ≤ shr_m (shr_1 mrs))%Z.
Proof. destruct mrs as [[|[]|[]] r s]; cbn; lia. Qed.

Lemma iter_pos_shr_1_nonneg p : ∀ mrs,
  (0 ≤ shr_m mrs)%Z → (0 ≤ shr_m (iter_pos shr_1 p mrs))%Z.
Proof.
  induction p as [p IH|p IH|]; intros mrs Hm; cbn [iter_pos].
  - apply IH, IH. by apply shr_1_nonneg.
  - by apply IH, IH.
  - by apply shr_1_nonneg.
Qed.

Lemma shr_fexp_nonneg prec emax m e l :
  (0 ≤ m)%Z → (0 ≤ shr_m (shr_fexp prec emax m e l).1)%Z.
Proof.
  intros Hm. unfold shr_fexp, shr.
  assert (0 ≤ shr_m (shr_record_of_loc m l))%Z by (by destruct l as [|[]]).
  destruct (_ - e)%Z; cbn [fst]; [done| |done].
  by apply iter_pos_shr_1_nonneg.
Qed.

Lemma round_nearest_even_nonneg m l : (0 ≤ m)%Z → (0 ≤ round_nearest_even m l)%Z.
Proof.
  intros Hm. destruct l as [|[]]; cbn; [done| |done|lia].
  destruct (Z.even m); lia.
Qed.

(** Rounding keeps the sign: a mantissa that is not negative never rounds
    to NaN. *)
Lemma binary_round_aux_sign prec emax s m e l :
  (0 ≤ m)%Z →
  let r := binary_round_aux prec emax s m e l in
  r = S754_zero s ∨ (∃ m' e', r = S754_finite s m' e') ∨ r = S754_infinity s.
Proof.
  intros Hm r. subst r. unfold binary_round_aux.
  pose proof (shr_fexp_nonneg prec emax m e l Hm) as H1.
  destruct (shr_fexp prec emax m e l) as [mrs' e'].
  pose proof (shr_fexp_nonneg prec emax
                (round_nearest_even (shr_m mrs') (loc_of_shr_record mrs')) e' loc_Exact
                (round_nearest_even_nonneg _ _ H1)) as H2.
  destruct (shr_fexp prec emax _ e' loc_Exact) as [mrs'' e''].
  cbn [fst] in H2. destruct (shr_m mrs''); [by left| |lia].
  destruct (_ <=? _)%Z; eauto.
Qed.

Lemma digits2_pos_size p : digits2_pos p = Pos.size p.
Proof. induction p as [p IH|p IH|]; cbn; by rewrite ?IH. Qed.

Lemma digits2_pos_shift p k :
  digits2_pos (Pos.iter xO p k) = (digits2_pos p + k)%positive.
Proof.
  induction k as [|k IH] using Pos.peano_ind.
  - cbn. lia.
  - rewrite Pos.iter_succ. cbn [digits2_pos]. rewrite IH. lia.
Qed.

Lemma digits2_pos_bound p : (Z.pos p < 2 ^ 53)%Z → (Z.pos (digits2_pos p) ≤ 53)%Z.
Proof.
  intros Hp. rewrite digits2_pos_size.
  pose proof (Pos.size_le p) as Hle.
  apply Z.nlt_ge. intros Hlt.
  assert (2 ^ 54 ≤ 2 ^ Z.pos (Pos.size p))%Z as H54
    by (apply Z.pow_le_mono_r; lia).
  assert (Z.pos (2 ^ Pos.size p) ≤ Z.pos p~0)%Z as Hz by lia.
  rewrite Pos2Z.inj_pow in Hz. lia.
Qed.

(** A bit count below 2^53 is held exactly by a binary64: it converts to a
    finite positive number. *)
Lemma Float64_of_nat_finite n :
  0 < n → (Z.of_nat n < 2 ^ 53)%Z →
  ∃ m e, Float64.of_nat n = S754_finite false m e.
Proof.
  intros Hn Hbound. unfold Float64.of_nat, binary_normalize.
  destruct (Z.of_nat n) as [|p|p] eqn:Hp; [lia| |lia].
  pose proof (digits2_pos_bound p Hbound) as Hd.
  unfold binary_round, shl_align, fexp, emin, Float64.prec, Float64.emax.
  set (d := digits2_pos p) in *.
  replace (Z.max (Z.pos d + 0 - 53) (3 - 1024 - 53) - 0)%Z with (Z.pos d - 53)%Z by lia.
  assert (∀ mz ez, Z.pos (digits2_pos mz) = 53%Z → (-52 ≤ ez ≤ 0)%Z →
            binary_round_aux 53 1024 false (Z.pos mz) ez loc_Exact
            = S754_finite false mz ez) as Hround.
  { intros mz ez Hmz Hez. unfold binary_round_aux, shr_fexp, fexp, emin.
    cbn [Zdigits2 shr_record_of_loc]. rewrite Hmz.
    replace (Z.max (53 + ez - 53) (3 - 1024 - 53) - ez)%Z with 0%Z by lia.
    cbn [shr shr_m loc_of_shr_record round_nearest_even Zdigits2 shr_record_of_loc].
    rewrite Hmz.
    replace (Z.max (53 + ez - 53) (3 - 1024 - 53) - ez)%Z with 0%Z by lia.
    cbn [shr shr_m]. by rewrite (proj2 (Z.leb_le _ _)) by lia. }
  destruct (Z.pos d - 53)%Z as [|k|k] eqn:Hk; [|lia|].
  - replace (Z.max (Z.pos d + 0 - 53) (3 - 1024 - 53))%Z with 0%Z by lia.
    eexists _, _. apply Hround; [fold d; lia|lia].
  - replace (Z.max (Z.pos d + 0 - 53) (3 - 1024 - 53))%Z with (Z.neg k)%Z by lia.
    eexists _, _. apply Hround; [|lia].
    rewrite digits2_pos_shift. fold d. lia.
Qed.

(** The product of a bit count and a factor that is not below 0 is a number
    that is not negative, or infinite. *)
Lemma Float64_mul_of_nat n f :
  0 < n → (Z.of_nat n < 2 ^ 53)%Z →
  Float64.leb Float64.zero f = true →
  let x := Float64.mul (Float64.of_nat n) f in
  (∃ s, x = S754_zero s) ∨ (∃ m e, x = S754_finite false m e)
  ∨ x = S754_infinity false.
Proof.
  intros Hn Hbound Hf x. subst x.
  destruct (Float64_of_nat_finite n Hn Hbound) as (m & e & ->).
  destruct (Float64_leb_zero f Hf) as [[s ->]|[(mf & ef & ->)| ->]]; cbn; eauto.
  destruct (binary_round_aux_sign Float64.prec Float64.emax false
              (Z.pos (m * mf)) (e + ef) loc_Exact) as [->|[(m' & e' & ->)| ->]];
    eauto; lia.
Qed.

Lemma Float64_value_nonneg m e : (0 <= Float64.value (S754_finite false m e))%Q.
Proof.
  cbn [Float64.value]. apply Qmult_le_0_compat.
  - rewrite Qmult_1_l. by apply (Qle_trans _ (inject_Z 0)); [|rewrite <- Zle_Qle].
  - apply Qpower_0_le. done.
Qed.

(** [Math.ceil] of a number is the least integer that is not below it. *)
Lemma Math_ceil_spec x z :
  Math_ceil x = Int z →
  (Float64.value x <= inject_Z z)%Q ∧ (inject_Z (z - 1) < Float64.value x)%Q.
Proof.
  destruct x as [s|[]| |s m e]; try done; intros [= <-].
  - done.
  - split; [apply Qle_ceiling|apply Qceiling_lt].
Qed.

Lemma Math_ceil_nonneg x z :
  (∃ s, x = S754_zero s) ∨ (∃ m e, x = S754_finite false m e)
  ∨ x = S754_infinity false →
  Math_ceil x = Int z → (0 ≤ z)%Z.
Proof.
  intros [[s ->]|[(m & e & ->)| ->]]; [by intros [= <-]| |done].
  intros [= <-]. rewrite <- (Qceiling_Z 0). apply Qceiling_resp_le, Float64_value_nonneg.
Qed.

(** For a bit count a binary64 holds exactly and a factor that is not below
    0, the preliminary estimate is an integer that is not negative, or it
    is infinite. *)
Lemma ceilMul_number n f :
  0 < n → (Z.of_nat n < 2 ^ 53)%Z →
  Float64.leb Float64.zero f = true →
  (∃ z, ceilMul n f = Int z ∧ (0 ≤ z)%Z) ∨ ceilMul n f = PlusInfinity.
Proof.
  intros Hn Hbound Hf. unfold ceilMul.
  pose proof (Float64_mul_of_nat n f Hn Hbound Hf) as Hx. cbn zeta in Hx.
  destruct Hx as [[s Hx]|[(m & e & Hx)|Hx]]; rewrite Hx; [left|left|by right].
  - by exists 0%Z.
  - eexists. split; [reflexivity|].
    apply (Math_ceil_nonneg (S754_finite false m e)); [eauto|reflexivity].
Qed.

(** Whatever the bit count: when the factor passed the range check and
    the estimate is an integer, that integer is not negative. *)
Lemma Float64_of_nat_nonneg n :
  (∃ s, Float64.of_nat n = S754_zero s)
  ∨ (∃ m e, Float64.of_nat n = S754_finite false m e)
  ∨ Float64.of_nat n = S754_infinity false.
Proof.
  unfold Float64.of_nat, binary_normalize.
  destruct (Z.of_nat n) as [|p|p] eqn:Hp; [eauto| |lia].
  unfold binary_round. destruct (shl_align _ _ _) as [mz ez].
  destruct (binary_round_aux_sign Float64.prec Float64.emax false
              (Z.pos mz) ez loc_Exact) as [->|[(m' & e' & ->)| ->]]; eauto; lia.
Qed.

Lemma ceilMul_nonneg n f z :
  Float64.ltb f Float64.zero = false →
  ceilMul n f = Int z → (0 ≤ z)%Z.
Proof.
  intros Hf. unfold ceilMul.
  destruct (Float64_not_ltb_zero f Hf) as [->|[[s ->]|[(mf & ef & ->)| ->]]],
    (Float64_of_nat_nonneg n) as [[s' ->]|[(m & e & ->)| ->]]; cbn [Float64.mul SFmul];
    try done; try (apply Math_ceil_nonneg; by eauto).
  destruct (binary_round_aux_sign Float64.prec Float64.emax (xorb false false)
              (Z.pos (m * mf)) (e + ef) loc_Exact) as [->|[(m' & e' & ->)| ->]];
    [lia|apply Math_ceil_nonneg; by eauto..].
Qed.
End Binary64.

(** ** Which errors a computation can throw *)

Lemma throwsOnly_bind {A B} P (c : M A) (k : A → M B) :
  throwsOnly P c → (∀ a, throwsOnly P (k a)) → throwsOnly P (bind c k).
Proof.
  intros Hc Hk w e w'. unfold bind.
  destruct (c w) as [[a| e0|] w0] eqn:E; intros H.
  - by eapply Hk.
  - inversion H; subst. by eapply Hc.
  - done.
Qed.

Lemma throwsOnly_ret {A} P (a : A) : throwsOnly P (ret a).
Proof. by intros w e w'. Qed.

Lemma throwsOnly_throw {A} (P : Error → Prop) e : P e → throwsOnly P (@throw A e).
Proof. intros He w e' w' [= <- _]. done. Qed.

Lemma throwsOnly_outOfFuel {A} P : throwsOnly P (@outOfFuel A).
Proof. by intros w e w'. Qed.

Lemma throwsOnly_defined {A} (P : Error → Prop) (o : option A) :
  P TypeError → throwsOnly P (defined o).
Proof. intros HP w e w'. destruct o; cbn; [done|]. by intros [= <- _]. Qed.

Lemma throwsOnly_getHeap P : throwsOnly P getHeap.
Proof. by intros w e w'. Qed.
Lemma throwsOnly_modifyHeap P f : throwsOnly P (modifyHeap f).
Proof. by intros w e w'. Qed.
Lemma throwsOnly_getThis P : throwsOnly P getThis.
Proof. by intros w e w'. Qed.
Lemma throwsOnly_modifyThis P f : throwsOnly P (modifyThis f).
Proof. by intros w e w'. Qed.
Lemma throwsOnly_alloc P buf : throwsOnly P (alloc buf).
Proof. by intros w e w'. Qed.

Lemma throwsOnly_forLoopFrom P body n i :
  (∀ j, throwsOnly P (body j)) → throwsOnly P (forLoopFrom i n body).
Proof.
  intros Hb. revert i. induction n as [|n IH]; intros i; cbn.
  - apply throwsOnly_ret.
  - apply throwsOnly_bind; auto.
Qed.

Create HintDb throws.
#[export] Hint Resolve throwsOnly_ret throwsOnly_outOfFuel throwsOnly_getHeap
  throwsOnly_modifyHeap throwsOnly_getThis throwsOnly_modifyThis
  throwsOnly_alloc throwsOnly_defined throwsOnly_throw : throws.

Ltac throws_step :=
  first [ apply throwsOnly_bind; [|intros ?]
        | apply throwsOnly_forLoopFrom; intros ?
        | solve [auto with throws] ].

Lemma throwsOnly_thisHexagonRings (P : Error → Prop) :
  P TypeError → throwsOnly P thisHexagonRings.
Proof. intros. unfold thisHexagonRings. repeat throws_step. Qed.
Lemma throwsOnly_thisData (P : Error → Prop) : P TypeError → throwsOnly P thisData.
Proof. intros. unfold thisData. repeat throws_step. Qed.
#[export] Hint Resolve throwsOnly_thisHexagonRings throwsOnly_thisData : throws.

Section EngineThrows.
Context {C : Collaborators}.
Variable P : Error → Prop.
Hypothesis HP : P TypeError.

Lemma throwsOnly_createHexagonRingsLoop fuel pl ec total count :
  throwsOnly P (createHexagonRingsLoop fuel pl ec total count).
Proof using HP.
  revert total count. induction fuel as [|fuel IH]; intros total count; cbn.
  - apply throwsOnly_outOfFuel.
  - repeat throws_step. destruct (_ || _); auto with throws.
Qed.

Lemma throwsOnly_maskLoop given a count i e masks :
  throwsOnly P (maskLoop given a count i e masks).
Proof using HP.
  revert i e masks. induction count as [|count IH]; intros i e masks; cbn.
  - apply throwsOnly_ret.
  - repeat throws_step.
    + destruct given; [auto with throws|].
      unfold BitArrayM.toArray; repeat throws_step.
    + unfold BitArrayM.write; auto with throws.
Qed.
End EngineThrows.

Section ArgumentChecks.
Context {C : Collaborators}.

(** C5 (empty-payload rejection), as the code has it.  An encode call whose
    payload is the empty byte sequence, whose version is not the current
    one, or whose error-correction factor compares below 0 or above
    [MAX_FACTOR_ERROR_CORRECTION_DATA] throws an error of the
    InvalidArgument class (for the empty payload: 'Invalid argument.') and
    leaves the store and the instance as they were: no ring has been
    created and no bit array allocated.  A factor that is NaN compares
    neither below 0 nor above the bound, and is not rejected. *)
Theorem invalid_arguments_rejected fuel payload factor version w :
  Uint8Array.bytes (heap w) payload = []
  ∨ version ≠ CURRENT_VERSION
  ∨ Float64.ltb factor Float64.zero = true
  ∨ Float64.ltb MAX_FACTOR_ERROR_CORRECTION_DATA factor = true →
  ∃ e, _constructFromPayload fuel payload factor version w = (Throw e, w)
       ∧ errorKind e = KInvalidArgument
       ∧ (Uint8Array.bytes (heap w) payload = [] → e = InvalidArgument).
Proof.
  intros H. unfold _constructFromPayload, bind at 1.
  unfold Uint8ArrayM.byteLength, bind at 1. cbn [getHeap ret].
  rewrite <- Uint8Array_length_bytes.
  destruct (bool_decide (version ≠ CURRENT_VERSION)
            || bool_decide (length (Uint8Array.bytes (heap w) payload) = 0)) eqn:E1.
  { by exists InvalidArgument. }
  apply orb_false_iff in E1 as [E1 E2].
  apply bool_decide_eq_false in E1, E2.
  destruct H as [H|[H|H]].
  { by rewrite H in E2. }
  { done. }
  assert (Float64.ltb factor Float64.zero
          || Float64.ltb MAX_FACTOR_ERROR_CORRECTION_DATA factor = true) as ->.
  { destruct H as [->| ->]; by rewrite ?orb_true_r. }
  exists IllegalErrorCorrectionFactor. repeat split. intros Hb. by rewrite Hb in E2.
Qed.

(** C3 (payload size gate).  With a valid version and a factor that passes
    the range check, a payload of more than
    [2 ^ HEADER_LENGTH_PAYLOAD_LENGTH] bytes (in bits: more than
    [2 ^ HEADER_LENGTH_PAYLOAD_LENGTH * 8]) makes encode throw the
    too-long error with the store and the instance untouched; a non-empty
    payload at or below the bound passes the check: whatever encode does
    afterwards, it does not throw an error of the PayloadTooLarge class. *)
Theorem payload_size_gate fuel payload factor version w :
  version = CURRENT_VERSION →
  Float64.ltb factor Float64.zero = false →
  Float64.ltb MAX_FACTOR_ERROR_CORRECTION_DATA factor = false →
  let byteLength := length (Uint8Array.bytes (heap w) payload) in
  (byteLength * 8 > 2 ^ HEADER_LENGTH_PAYLOAD_LENGTH * 8 →
   _constructFromPayload fuel payload factor version w
   = (Throw (DataTooLong (2 ^ HEADER_LENGTH_PAYLOAD_LENGTH)), w))
  ∧ (0 < byteLength →
     byteLength * 8 ≤ 2 ^ HEADER_LENGTH_PAYLOAD_LENGTH * 8 →
     ∀ e w', _constructFromPayload fuel payload factor version w = (Throw e, w') →
             errorKind e ≠ KPayloadTooLarge).
Proof.
  intros Hv Hf0 Hf1 byteLength. subst byteLength.
  assert (bool_decide (version ≠ CURRENT_VERSION) = false) as Hb
    by (by apply bool_decide_eq_false_2; intros []).
  split; [intros Hlen | intros Hpos Hlen e w'];
    unfold _constructFromPayload, bind at 1;
    unfold Uint8ArrayM.byteLength, bind at 1; cbn [getHeap ret];
    rewrite <- Uint8Array_length_bytes, Hf0, Hf1, Hb; cbn [orb];
    rewrite (bool_decide_eq_false_2 (_ = 0)) by lia.
  - by rewrite bool_decide_eq_true_2.
  - rewrite (bool_decide_eq_false_2 (_ > _)) by lia. intros Hrun.
    assert (e = TypeError) as ->; [|done].
    refine ((_ : throwsOnly (λ e, e = TypeError) _) w e w' Hrun).
    unfold BitArrayM.ofUint8Array, _createHexagonRings, Uint8ArrayM.bytes,
      BitArrayM.new, forLoop, BitArrayM.toArray, BitArrayM.write,
      _maskHexagonRings, BitArrayM.setValue.
    repeat first [ apply throwsOnly_createHexagonRingsLoop
                 | apply throwsOnly_maskLoop | throws_step ].
Qed.
End ArgumentChecks.

Section DecodeChecks.
Context {C : Collaborators}.

(** The header as decode parses it from the scanned data. *)
Lemma constructFromScan_header hexagonRings data w :
  let headerLength :=
    NimiqodeHeader_calculateLength (NimiqodeHeader_calculateMaskCount hexagonRings) in
  let w0 := {| heap := heap w;
               this := set_data data (set_hexagonRings hexagonRings (this w)) |} in
  ∀ fields,
    NimiqodeHeader_read
      (BitArray.read (heap w) (BitArray.slice data 0 headerLength)) hexagonRings
    = fields →
    _constructFromScan hexagonRings data w
    = (let '(version, payloadLength, errorCorrectionLength, checksum, hexRingMasks) := fields in
       if bool_decide (version ≠ 0%Z) then throw UnsupportedVersion else
       if bool_decide (headerLength + payloadLength + errorCorrectionLength
                       ≠ BitArray.length data)
       then throw WrongDataLength else
       let! encodedPayload :=
         BitArrayM.copy data headerLength (BitArray.length data) in
       _maskHexagonRings (inr hexRingMasks) encodedPayload ;;;
       let! received := BitArrayM.toArray encodedPayload in
       match LDPC_decode received payloadLength errorCorrectionLength with
       | None => throw FailedToDecodePayload
       | Some payloadBits =>
         let! payload := Uint8ArrayM.new (payloadLength / 8) in
         modifyThis (set_payload payload) ;;;
         let! payloadBitArray := BitArrayM.ofUint8Array payload in
         forLoop payloadLength (λ i,
           BitArrayM.setValue payloadBitArray i (bitAt payloadBits i)) ;;;
         let! payloadBytes := Uint8ArrayM.bytes payload in
         if bool_decide (CRC16_crc16 payloadBytes ≠ checksum)
         then throw ChecksumMismatch
         else ret ()
       end) w0.
Proof.
  intros headerLength w0 fields <-. reflexivity.
Qed.

(** C6 (version gate on decode).  When the header parsed from the scanned
    data carries a version other than 0, decode throws 'Unsupported
    version', whatever the other header fields, the rings and the data
    are. *)
Theorem version_gate hexagonRings data w version payloadLength
    errorCorrectionLength checksum hexRingMasks :
  let headerLength :=
    NimiqodeHeader_calculateLength (NimiqodeHeader_calculateMaskCount hexagonRings) in
  NimiqodeHeader_read
    (BitArray.read (heap w) (BitArray.slice data 0 headerLength)) hexagonRings
  = (version, payloadLength, errorCorrectionLength, checksum, hexRingMasks) →
  version ≠ 0%Z →
  ∃ w', _constructFromScan hexagonRings data w = (Throw UnsupportedVersion, w')
        ∧ heap w' = heap w.
Proof.
  intros headerLength Hread Hversion.
  rewrite (constructFromScan_header _ _ _ _ Hread).
  rewrite bool_decide_eq_true_2 by done. by eexists.
Qed.

(** C7 (length-mismatch detection).  When the parsed header (of the
    supported version 0, so that the version check before it passes)
    declares lengths for which [headerLength + payloadLength +
    errorCorrectionLength] differs from the length of the scanned bit
    stream, decode throws 'Wrong data length'.  The store is the one decode
    started with: no copy has been made, nothing unmasked or decoded. *)
Theorem length_mismatch_detected hexagonRings data w payloadLength
    errorCorrectionLength checksum hexRingMasks :
  let headerLength :=
    NimiqodeHeader_calculateLength (NimiqodeHeader_calculateMaskCount hexagonRings) in
  NimiqodeHeader_read
    (BitArray.read (heap w) (BitArray.slice data 0 headerLength)) hexagonRings
  = (0%Z, payloadLength, errorCorrectionLength, checksum, hexRingMasks) →
  headerLength + payloadLength + errorCorrectionLength ≠ BitArray.length data →
  ∃ w', _constructFromScan hexagonRings data w = (Throw WrongDataLength, w')
        ∧ heap w' = heap w.
Proof.
  intros headerLength Hread Hlength.
  rewrite (constructFromScan_header _ _ _ _ Hread).
  rewrite bool_decide_eq_false_2 by (by intros []).
  rewrite bool_decide_eq_true_2 by done. by eexists.
Qed.
End DecodeChecks.

(** ** Views and the store *)

Lemma list_inserts_middle {A} (pre mid post k : list A) s :
  length pre = s → length k = length mid →
  list_inserts s k (pre ++ mid ++ post) = pre ++ k ++ post.
Proof.
  intros <- Hk.
  rewrite <- (Nat.add_0_r (length pre)), list_inserts_app_r.
  by rewrite list_inserts_0_r.
Qed.

Lemma focused_read h a pre R post :
  focused h a pre R post → BitArray.read h a = R.
Proof.
  intros (Hb & Hpre & HR). unfold BitArray.read, heap_buffer. rewrite Hb. cbn.
  rewrite drop_app_length' by done. rewrite <- HR. by rewrite resize_app.
Qed.

Lemma focused_write h a pre R post bits :
  focused h a pre R post →
  BitArray.write h a bits
  = <[BitArray.buffer a := pre ++ resize (BitArray.length a) false bits ++ post]> h.
Proof.
  intros (Hb & Hpre & HR). unfold BitArray.write.
  apply list_eq. intros j. destruct (decide (j = BitArray.buffer a)) as [->|Hj].
  - rewrite list_lookup_alter_eq, Hb. cbn.
    rewrite list_lookup_insert_eq by (by eapply lookup_lt_Some).
    f_equal. apply list_inserts_middle; [done|]. by rewrite length_resize.
  - rewrite list_lookup_alter_ne, list_lookup_insert_ne by done. done.
Qed.

Lemma focused_insert h a pre R post R' :
  focused h a pre R post → length R' = length R →
  focused (<[BitArray.buffer a := pre ++ R' ++ post]> h) a pre R' post.
Proof.
  intros (Hb & Hpre & HR) HR'. split_and!; [|done|congruence].
  apply list_lookup_insert_eq. by eapply lookup_lt_Some.
Qed.

Lemma focused_slice h a pre R post s e :
  focused h a pre R post → s ≤ e → e ≤ length R →
  focused h (BitArray.slice a s e)
    (pre ++ take s R) (take (e - s) (drop s R)) (drop e R ++ post).
Proof.
  intros (Hb & Hpre & HR) Hs He. split_and!; cbn.
  - rewrite Hb. f_equal. rewrite <- !app_assoc. f_equal.
    rewrite !app_assoc. f_equal.
    rewrite take_take_drop. replace (s + (e - s)) with e by lia.
    by rewrite take_drop.
  - rewrite length_app, length_take. lia.
  - rewrite length_take, length_drop. lia.
Qed.

Lemma insert_insert_heap (h : Heap) b x y : <[b:=x]> (<[b:=y]> h) = <[b:=x]> h.
Proof. apply list_insert_insert_eq. Qed.

(** ** Running computations *)

Lemma bind_run {A B} (c : M A) (k : A → M B) w a w' :
  c w = (Return a, w') → bind c k w = k a w'.
Proof. intros H. unfold bind. by rewrite H. Qed.

Lemma thisHexagonRings_run w rings :
  _hexagonRings (this w) = Some rings → thisHexagonRings w = (Return rings, w).
Proof. intros H. unfold thisHexagonRings, bind, getThis. by rewrite H. Qed.

Lemma thisData_run w d :
  _data (this w) = Some d → thisData w = (Return d, w).
Proof. intros H. unfold thisData, bind, getThis. by rewrite H. Qed.

Lemma js_index_last {A} (l : list A) i :
  i < length l →
  js_index l (Z.of_nat (length l) - Z.of_nat i - 1) = reverse l !! i.
Proof.
  intros Hi. unfold js_index. rewrite decide_False by lia.
  rewrite reverse_lookup by done. f_equal. lia.
Qed.

Lemma visited_cons rings i count ring :
  reverse rings !! i = Some ring →
  visited rings i (S count) = bitCount ring :: visited rings (S i) count.
Proof.
  intros H. unfold visited, shape. rewrite <- fmap_reverse.
  rewrite (drop_S _ (bitCount ring) i) by (by rewrite list_lookup_fmap, H).
  done.
Qed.

Section MaskLoop.
Context {C : Collaborators}.

Lemma maskLoop_run given a count : ∀ i e masks w rings pre R post,
  _hexagonRings (this w) = Some rings →
  focused (heap w) a pre R post →
  e ≤ length R →
  i + count ≤ length rings →
  (∀ g, given = Some g → i + count ≤ length g) →
  maskLoop given a count i e masks w
  = (Return (maskRegion given (visited rings i count) i e R masks).2,
     {| heap := <[BitArray.buffer a :=
                    pre ++ (maskRegion given (visited rings i count) i e R masks).1
                        ++ post]> (heap w);
        this := this w |}).
Proof.
  induction count as [|count IH]; intros i e masks w rings pre R post Hrings Hfoc He Hcount Hgiven.
  - cbn. unfold ret. destruct w as [h t]. cbn in *. f_equal. f_equal.
    symmetry. apply list_insert_id. apply Hfoc.
  - cbn [maskLoop].
    rewrite (bind_run _ _ _ _ _ (thisHexagonRings_run _ _ Hrings)).
    rewrite js_index_last by lia.
    destruct (reverse rings !! i) as [ring|] eqn:Hring; cycle 1.
    { apply lookup_ge_None in Hring. rewrite length_reverse in Hring. lia. }
    rewrite (visited_cons _ _ _ _ Hring). cbn [defined maskRegion].
    rewrite (bind_run _ _ w ring w) by done.
    replace (Z.to_nat (0 `max` (Z.of_nat e - Z.of_nat (bitCount ring))))
      with (e - bitCount ring) by lia.
    set (lo := e - bitCount ring).
    assert (Hsub := focused_slice _ _ _ _ _ lo e Hfoc ltac:(lia) He).
    set (bits := take (e - lo) (drop lo R)) in *.
    assert (BitArrayM.toArray (BitArray.slice a lo e) w = (Return bits, w)) as Hbits.
    { unfold BitArrayM.toArray, bind, getHeap, ret. by rewrite (focused_read _ _ _ _ _ Hsub). }
    rewrite (bind_run _ _ w (chooseMask given i bits) w); cycle 1.
    { destruct given as [g|]; cbn [chooseMask].
      - specialize (Hgiven g eq_refl). rewrite js_index_last by lia.
        rewrite reverse_lookup by lia.
        replace (length g - i - 1) with (length g - S i) by lia.
        destruct (g !! _) eqn:Hg; [done|].
        apply lookup_ge_None in Hg. lia.
      - by rewrite (bind_run _ _ _ _ _ Hbits). }
    rewrite (bind_run _ _ _ _ _ Hbits).
    set (mask := chooseMask given i bits).
    unfold BitArrayM.write at 1, modifyHeap at 1.
    unfold bind at 1. cbn [heap this].
    rewrite (focused_write _ _ _ _ _ _ Hsub). cbn [BitArray.slice BitArray.length BitArray.buffer].
    replace (e - (e - lo)) with lo by lia.
    set (R' := take lo R ++ resize (e - lo) false (Masking_applyMask mask bits) ++ drop e R).
    assert (length R' = length R) as HR'.
    { unfold R'. rewrite !length_app, length_take, length_resize, length_drop. lia. }
    erewrite (IH (S i) lo (mask :: masks) _ rings pre R' post); cbn [heap this].
    + by rewrite insert_insert_heap.
    + done.
    + rewrite <- app_assoc.
      replace (take lo R ++ resize (e - lo) false (Masking_applyMask mask bits) ++ drop e R ++ post)
        with (R' ++ post) by (unfold R'; by rewrite <- !app_assoc).
      by apply (focused_insert _ _ _ R).
    + lia.
    + lia.
    + intros g Hg. specialize (Hgiven g Hg). lia.
Qed.
End MaskLoop.

(** ** The masking pass as a function of the bits *)

Section MaskRegionFacts.
Context {C : Collaborators}.
Implicit Types (R X Y : list bool) (caps masks : list nat).

(** The pass works on the bits below [hexRingEnd] and leaves the others. *)
Lemma maskRegion_app given caps : ∀ i e X Y masks,
  e ≤ length X →
  maskRegion given caps i e (X ++ Y) masks
  = ((maskRegion given caps i e X masks).1 ++ Y,
     (maskRegion given caps i e X masks).2).
Proof.
  induction caps as [|cap caps IH]; intros i e X Y masks He; [done|].
  cbn [maskRegion]. set (lo := e - cap).
  rewrite (drop_app_le X Y lo) by lia.
  rewrite (take_app_le (drop lo X)) by (rewrite length_drop; lia).
  rewrite (take_app_le X Y lo) by lia.
  rewrite (drop_app_le X Y e) by lia.
  set (new := resize _ _ _).
  replace (take lo X ++ new ++ drop e X ++ Y)
    with ((take lo X ++ new ++ drop e X) ++ Y) by (by rewrite <- !app_assoc).
  apply IH. rewrite !length_app, length_take. lia.
Qed.

(** One iteration, then the pass on the bits below the sub-range. *)
Lemma maskRegion_cons given cap caps i e R masks :
  e ≤ length R →
  let lo := e - cap in
  let bits := take (e - lo) (drop lo R) in
  let mask := chooseMask given i bits in
  let inner := maskRegion given caps (S i) lo (take lo R) (mask :: masks) in
  maskRegion given (cap :: caps) i e R masks
  = (inner.1 ++ resize (e - lo) false (Masking_applyMask mask bits) ++ drop e R,
     inner.2).
Proof.
  intros He lo bits mask inner. cbn [maskRegion]. fold lo bits mask.
  apply maskRegion_app. rewrite length_take. lia.
Qed.

Lemma maskRegion_length given caps : ∀ i e R masks,
  e ≤ length R → length (maskRegion given caps i e R masks).1 = length R.
Proof.
  induction caps as [|cap caps IH]; intros i e R masks He; [done|].
  rewrite maskRegion_cons by done. cbn [fst].
  rewrite !length_app, IH, length_take, length_resize, length_drop;
    rewrite ?length_take; lia.
Qed.

(** The masks come out in reverse order of the iterations, in front of
    those collected before. *)
Lemma maskRegion_masks given caps : ∀ i e R masks,
  ∃ picked, (maskRegion given caps i e R masks).2 = picked ++ masks
            ∧ length picked = length caps.
Proof.
  induction caps as [|cap caps IH]; intros i e R masks.
  - by exists [].
  - cbn [maskRegion]. edestruct IH as (picked & -> & Hlen).
    exists (picked ++ [chooseMask given i
               (take (e - (e - cap)) (drop (e - cap) R))]).
    rewrite <- app_assoc. split; [done|]. rewrite length_app. cbn. lia.
Qed.

Lemma maskRegion_masks_length given caps i e R masks :
  length (maskRegion given caps i e R masks).2 = length caps + length masks.
Proof.
  destruct (maskRegion_masks given caps i e R masks) as (picked & -> & <-).
  by rewrite length_app.
Qed.

(** The bits from [hexRingEnd] on are not touched. *)
Lemma maskRegion_suffix given caps i e R masks :
  e ≤ length R → drop e (maskRegion given caps i e R masks).1 = drop e R.
Proof.
  intros He. rewrite <- (take_drop e R) at 1.
  rewrite maskRegion_app by (rewrite length_take; lia). cbn [fst].
  apply drop_app_length'. rewrite maskRegion_length; rewrite length_take; lia.
Qed.

(** Nor are the bits below the sub-range of the last ring visited. *)
Lemma maskRegion_prefix given caps : ∀ i e R masks,
  e ≤ length R →
  take (e - sum_list caps) (maskRegion given caps i e R masks).1
  = take (e - sum_list caps) R.
Proof.
  induction caps as [|cap caps IH]; intros i e R masks He.
  - done.
  - rewrite maskRegion_cons by done. cbn [fst].
    change (sum_list (cap :: caps)) with (cap + sum_list caps).
    assert (length (maskRegion given caps (S i) (e - cap) (take (e - cap) R)
              (chooseMask given i (take (e - (e - cap)) (drop (e - cap) R))
               :: masks)).1 = e - cap) as Hlen
      by (rewrite maskRegion_length; rewrite length_take; lia).
    rewrite take_app_le by lia.
    replace (e - (cap + sum_list caps)) with (e - cap - sum_list caps) by lia.
    rewrite IH by (rewrite length_take; lia).
    rewrite take_take. f_equal. lia.
Qed.

Lemma segment_app X Y lo hi :
  lo ≤ hi → hi ≤ length X →
  take (hi - lo) (drop lo (X ++ Y)) = take (hi - lo) (drop lo X).
Proof.
  intros Hlo Hhi. rewrite drop_app_le by lia.
  apply take_app_le. rewrite length_drop. lia.
Qed.

Lemma segment_take R n lo hi :
  lo ≤ hi → hi ≤ n →
  take (hi - lo) (drop lo (take n R)) = take (hi - lo) (drop lo R).
Proof.
  intros Hlo Hhi. destruct (decide (n ≤ length R)) as [Hn|Hn].
  - rewrite <- (take_drop n R) at 2. symmetry. apply segment_app; [done|].
    rewrite length_take. lia.
  - rewrite (take_ge R n) by lia. done.
Qed.

(** What iteration [k] of the pass does: its sub-range runs up to where the
    rings visited before it have got to, its mask is chosen for the bits
    found there, and applied to them. *)
Lemma maskRegion_window given caps : ∀ i e R masks k cap,
  e ≤ length R → caps !! k = Some cap →
  let hi := e - sum_list (take k caps) in
  let lo := hi - cap in
  let bits := take (hi - lo) (drop lo R) in
  let mask := chooseMask given (i + k) bits in
  let r := maskRegion given caps i e R masks in
  take (hi - lo) (drop lo r.1) = resize (hi - lo) false (Masking_applyMask mask bits)
  ∧ r.2 !! (length caps - 1 - k) = Some mask.
Proof.
  induction caps as [|cap0 caps IH]; intros i e R masks k cap He Hk; [done|].
  cbn zeta. rewrite maskRegion_cons by done. cbn [fst snd].
  set (lo0 := e - cap0).
  set (bits0 := take (e - lo0) (drop lo0 R)).
  set (mask0 := chooseMask given i bits0).
  set (inner := maskRegion given caps (S i) lo0 (take lo0 R) (mask0 :: masks)).
  assert (length inner.1 = lo0) as Hinner
    by (unfold inner; rewrite maskRegion_length; rewrite length_take; lia).
  destruct k as [|k].
  - injection Hk as ->. cbn [take]. change (sum_list []) with 0.
    rewrite Nat.sub_0_r, Nat.add_0_r. fold lo0 bits0 mask0. split.
    + rewrite drop_app_length' by done.
      apply take_app_length'. by rewrite length_resize.
    + destruct (maskRegion_masks given caps (S i) lo0 (take lo0 R)
                  (mask0 :: masks)) as (picked & Hp & Hlen).
      fold inner in Hp. rewrite Hp. cbn [length].
      rewrite lookup_app_r by lia.
      by replace (S (length caps) - 1 - 0 - length picked) with 0 by lia.
  - cbn [lookup list_lookup] in Hk. cbn [take].
    change (sum_list (cap0 :: take k caps)) with (cap0 + sum_list (take k caps)).
    replace (e - (cap0 + sum_list (take k caps)))
      with (lo0 - sum_list (take k caps)) by lia.
    destruct (IH (S i) lo0 (take lo0 R) (mask0 :: masks) k cap) as [IH1 IH2];
      [rewrite length_take; lia|done|].
    fold inner in IH1, IH2. cbn zeta in IH1, IH2.
    set (hi := lo0 - sum_list (take k caps)) in *.
    rewrite segment_take in IH1, IH2 by lia.
    replace (i + S k) with (S i + k) by lia. split.
    + rewrite segment_app by lia. done.
    + cbn [length]. replace (S (length caps) - 1 - S k)
        with (length caps - 1 - k); [done|].
      apply lookup_lt_Some in Hk. lia.
Qed.

(** The masks handed in are the masks handed back. *)
Lemma maskRegion_given g caps : ∀ i e R masks,
  i + length caps ≤ length g → masks = drop (length g - i) g →
  (maskRegion (Some g) caps i e R masks).2 = drop (length g - i - length caps) g.
Proof.
  induction caps as [|cap caps IH]; intros i e R masks Hi ->.
  - cbn. f_equal. lia.
  - cbn [maskRegion length]. rewrite IH; [f_equal; lia|cbn [length] in Hi; lia|].
    cbn [chooseMask].
    destruct (g !! (length g - i - 1)) as [m|] eqn:Hm; cycle 1.
    { apply lookup_ge_None in Hm. cbn [length] in Hi. lia. }
    cbn [default length] in *.
    replace (length g - S i) with (length g - i - 1) by lia.
    rewrite (drop_S _ _ _ Hm). do 2 f_equal. lia.
Qed.

(** Masking twice with the masks of the first pass gives the bits back. *)
Section Unmask.
Hypothesis applyMask_length :
  ∀ mask bits, length (Masking_applyMask mask bits) = length bits.
Hypothesis applyMask_involutive :
  ∀ mask bits, Masking_applyMask mask (Masking_applyMask mask bits) = bits.

Lemma maskRegion_unmask caps : ∀ i R masks masks',
  length masks = i →
  let r := maskRegion None caps i (length R) R masks in
  (maskRegion (Some r.2) caps i (length R) r.1 masks').1 = R.
Proof using applyMask_length applyMask_involutive.
  induction caps as [|cap caps IH]; intros i R masks masks' Hi; [done|].
  cbn zeta. rewrite (maskRegion_cons None) by done. cbn [fst snd].
  set (lo := length R - cap).
  set (bits := take (length R - lo) (drop lo R)).
  set (mask := Masking_findBestMask bits).
  cbn [chooseMask]. fold mask.
  set (inner := maskRegion None caps (S i) lo (take lo R) (mask :: masks)).
  assert (length (take lo R) = lo) as Htake by (rewrite length_take; lia).
  assert (length inner.1 = lo) as Hinner
    by (unfold inner; rewrite maskRegion_length; lia).
  assert (length bits = length R - lo) as Hbits
    by (unfold bits; rewrite length_take, length_drop; lia).
  rewrite drop_all, app_nil_r.
  rewrite (resize_all_alt (Masking_applyMask mask bits))
    by (by rewrite applyMask_length).
  assert (length R ≤ length (inner.1 ++ Masking_applyMask mask bits)) as Hle.
  { rewrite length_app, applyMask_length. lia. }
  rewrite (maskRegion_cons _ _ _ _ _ _ _ Hle).
  cbn [fst]. fold lo.
  rewrite drop_app_length' by done.
  rewrite (take_ge (Masking_applyMask mask bits))
    by (rewrite applyMask_length; lia).
  rewrite take_app_length' by done.
  assert (chooseMask (Some inner.2) i (Masking_applyMask mask bits) = mask) as ->.
  { cbn [chooseMask].
    destruct (maskRegion_masks None caps (S i) lo (take lo R) (mask :: masks))
      as (picked & Hp & Hlen).
    fold inner in Hp. rewrite Hp, length_app. cbn [length].
    rewrite lookup_app_r by lia.
    by replace (length picked + S (length masks) - i - 1 - length picked)
      with 0 by lia. }
  rewrite applyMask_involutive, (resize_all_alt bits) by done.
  rewrite drop_ge by (rewrite length_app, applyMask_length; lia).
  rewrite app_nil_r.
  specialize (IH (S i) (take lo R) (mask :: masks) (mask :: masks')).
  rewrite Htake in IH. fold inner in IH. cbn zeta in IH.
  rewrite IH by (cbn; lia).
  unfold bits. rewrite (take_ge (drop lo R)) by (rewrite length_drop; lia).
  apply take_drop.
Qed.
End Unmask.
End MaskRegionFacts.

(** ** The ring-sizing loop *)

Section SizingFacts.
Context {C : Collaborators}.

Lemma ringsUpTo_S n : ringsUpTo (S n) = ringsUpTo n ++ [createHexagonRing n].
Proof. unfold ringsUpTo. by rewrite seq_S, fmap_app. Qed.

Lemma length_ringsUpTo n : length (ringsUpTo n) = n.
Proof. unfold ringsUpTo. by rewrite length_fmap, length_seq. Qed.

Lemma capacity_S n : capacity (S n) = capacity n + HexagonRing_bitCount n.
Proof.
  unfold capacity, shape. rewrite ringsUpTo_S, fmap_app, sum_list_with_app. cbn. unfold id. lia.
Qed.

Lemma sizingStopsAt_spec pl ec n :
  sizingStopsAt pl ec n = true ↔
  0 < n ∧ sizingContinues pl ec n = false
  ∧ ∀ j, 0 < j < n → sizingContinues pl ec j = true.
Proof.
  unfold sizingStopsAt. rewrite !andb_true_iff, bool_decide_eq_true,
    negb_true_iff, forallb_forall.
  split.
  - intros [[? ?] Hall]. split_and!; [done..|]. intros j Hj.
    apply Hall, in_seq. lia.
  - intros (? & ? & Hall). split_and!; [done..|]. intros j Hj%in_seq.
    apply Hall. lia.
Qed.

Lemma sizingStopsAt_two pl ec n : sizingStopsAt pl ec n = true → 2 ≤ n.
Proof.
  intros (_ & Hstop & _)%sizingStopsAt_spec. unfold sizingContinues in Hstop.
  apply orb_false_iff in Hstop as [_ Hn]. apply bool_decide_eq_false in Hn. lia.
Qed.

Lemma createHexagonRingsLoop_step fuel pl ec k w :
  _hexagonRings (this w) = Some (ringsUpTo k) →
  createHexagonRingsLoop (S fuel) pl ec (capacity k) k w
  = if sizingContinues pl ec (S k)
    then createHexagonRingsLoop fuel pl ec (capacity (S k)) (S k)
           (withRings (ringsUpTo (S k)) w)
    else (Return (capacity (S k)), withRings (ringsUpTo (S k)) w).
Proof.
  intros Hrings. cbn [createHexagonRingsLoop].
  rewrite (bind_run _ _ _ _ _ (thisHexagonRings_run _ _ Hrings)).
  unfold modifyThis at 1, bind at 1.
  rewrite <- ringsUpTo_S.
  rewrite (bind_run _ _ _ (ringsUpTo (S k)) (withRings (ringsUpTo (S k)) w))
    by done.
  cbn [bitCount createHexagonRing]. rewrite <- capacity_S.
  unfold sizingContinues. by destruct (_ || _).
Qed.

Lemma withRings_withRings r1 r2 w : withRings r2 (withRings r1 w) = withRings r2 w.
Proof. done. Qed.

(** If the loop condition first fails after the [n]-th ring, the loop
    returns with [n] rings, given fuel for its iterations. *)
Lemma createHexagonRingsLoop_run pl ec n : ∀ fuel k w,
  _hexagonRings (this w) = Some (ringsUpTo k) →
  k < n → n - k ≤ fuel →
  sizingContinues pl ec n = false →
  (∀ j, k < j < n → sizingContinues pl ec j = true) →
  createHexagonRingsLoop fuel pl ec (capacity k) k w
  = (Return (capacity n), withRings (ringsUpTo n) w).
Proof.
  induction fuel as [|fuel IH]; intros k w Hrings Hk Hfuel Hstop Hgo; [lia|].
  rewrite createHexagonRingsLoop_step by done.
  destruct (decide (S k = n)) as [<-|Hne].
  - by rewrite Hstop.
  - rewrite Hgo by lia. rewrite IH; [done|done|lia|lia|done|].
    intros j Hj. apply Hgo. lia.
Qed.

(** Conversely, a loop that returns has stopped after some ring [n], the
    second at the earliest. *)
Lemma createHexagonRingsLoop_inv pl ec : ∀ fuel k w total w',
  _hexagonRings (this w) = Some (ringsUpTo k) →
  createHexagonRingsLoop fuel pl ec (capacity k) k w = (Return total, w') →
  ∃ n, k < n ∧ n - k ≤ fuel
       ∧ sizingContinues pl ec n = false
       ∧ (∀ j, k < j < n → sizingContinues pl ec j = true)
       ∧ total = capacity n ∧ w' = withRings (ringsUpTo n) w.
Proof.
  induction fuel as [|fuel IH]; intros k w total w' Hrings Hrun; [done|].
  rewrite createHexagonRingsLoop_step in Hrun by done.
  destruct (sizingContinues pl ec (S k)) eqn:Hk.
  - apply IH in Hrun as (n & ? & ? & ? & Hgo & ? & ->); [|done].
    exists n. split_and!; [lia|lia|done| |done|done].
    intros j Hj. destruct (decide (j = S k)) as [->|]; [done|]. apply Hgo. lia.
  - injection Hrun as <- <-. exists (S k). split_and!; [lia|lia|done| |done|done].
    intros j Hj. lia.
Qed.
End SizingFacts.

(** ** Filling a view bit by bit *)

Lemma focused_set h a pre R post i v :
  focused h a pre R post → i < BitArray.length a →
  BitArray.set h a i v = <[BitArray.buffer a := pre ++ <[i:=v]> R ++ post]> h.
Proof.
  intros (Hb & Hpre & HR) Hi. unfold BitArray.set. rewrite decide_True by done.
  apply list_eq. intros j. destruct (decide (j = BitArray.buffer a)) as [->|Hj].
  - rewrite list_lookup_alter_eq, Hb. cbn.
    rewrite list_lookup_insert_eq by (by eapply lookup_lt_Some).
    f_equal. rewrite <- Hpre.
    rewrite insert_app_r. f_equal. apply insert_app_l. lia.
  - rewrite list_lookup_alter_ne, list_lookup_insert_ne by done. done.
Qed.

Lemma bitAt_resize bits n i :
  i < n → resize n false bits !! i = Some (bitAt bits i).
Proof.
  intros Hi. unfold bitAt. destruct (decide (i < length bits)).
  - rewrite lookup_resize by done. by destruct (bits !! i) eqn:E;
      [|apply lookup_ge_None in E; lia].
  - rewrite lookup_resize_new by lia.
    by rewrite (proj2 (lookup_ge_None bits i)) by lia.
Qed.

Lemma forLoopFrom_setValue a bits pre post : ∀ n i w R,
  focused (heap w) a pre R post →
  i + n = BitArray.length a →
  forLoopFrom i n (λ j, BitArrayM.setValue a j (bitAt bits j)) w
  = (Return (),
     {| heap := <[BitArray.buffer a :=
                    pre ++ (take i R ++ drop i (resize (BitArray.length a) false bits))
                        ++ post]> (heap w);
        this := this w |}).
Proof.
  induction n as [|n IH]; intros i w R Hfoc Hi.
  - cbn. unfold ret. destruct w as [h t]. cbn in *. do 2 f_equal.
    rewrite drop_ge by (rewrite length_resize; lia).
    rewrite app_nil_r, take_ge by (destruct Hfoc as (_ & _ & ->); lia).
    symmetry. apply list_insert_id, Hfoc.
  - cbn [forLoopFrom]. unfold BitArrayM.setValue at 1, modifyHeap at 1, bind at 1.
    rewrite (focused_set _ _ _ _ _ _ _ Hfoc) by lia.
    erewrite IH; cycle 1.
    + cbn [heap]. apply (focused_insert _ _ _ R); [done|]. by rewrite length_insert.
    + lia.
    + cbn [heap this]. rewrite insert_insert_heap. do 4 f_equal.
      destruct Hfoc as (_ & _ & HR).
      rewrite (take_S_r _ i (bitAt bits i))
        by (rewrite list_lookup_insert_eq by lia; done).
      rewrite take_insert_ge by lia.
      f_equal. rewrite <- app_assoc. f_equal. cbn.
      symmetry. apply drop_S, bitAt_resize. lia.
Qed.

Lemma forLoop_setValue a bits pre R post w :
  focused (heap w) a pre R post →
  forLoop (BitArray.length a) (λ j, BitArrayM.setValue a j (bitAt bits j)) w
  = (Return (),
     {| heap := <[BitArray.buffer a :=
                    pre ++ resize (BitArray.length a) false bits ++ post]> (heap w);
        this := this w |}).
Proof.
  intros Hfoc. unfold forLoop.
  by rewrite (forLoopFrom_setValue _ _ _ _ _ _ _ _ Hfoc).
Qed.

Lemma insert_new_buffer (h : list (list bool)) x y :
  <[length h := x]> (h ++ [y]) = h ++ [x].
Proof.
  rewrite <- (Nat.add_0_r (length h)), insert_app_r. done.
Qed.

Lemma lookup_new_buffer (h : list (list bool)) x :
  (h ++ [x]) !! length h = Some x.
Proof. apply list_lookup_middle. done. Qed.


(** ** What a computation leaves alone *)

#[export] Instance sameExcept_refl b : Reflexive (sameExcept b).
Proof. by intros w. Qed.

#[export] Instance sameExcept_trans b : Transitive (sameExcept b).
Proof.
  intros w1 w2 w3 (Ht1 & Hl1 & Hb1) (Ht2 & Hl2 & Hb2). split_and!.
  - congruence.
  - congruence.
  - intros b' Hb'. rewrite Hb2, Hb1; done.
Qed.

Lemma ensures_bind {A B} (c : M A) (k : A → M B) R `{!Transitive R} :
  ensures c R → (∀ a, ensures (k a) R) → ensures (bind c k) R.
Proof.
  intros Hc Hk w o w'. unfold bind.
  destruct (c w) as [[a|e|] w1] eqn:E; intros Hrun.
  - etrans; [by eapply Hc|by eapply Hk].
  - injection Hrun as <- <-. by eapply Hc.
  - injection Hrun as <- <-. by eapply Hc.
Qed.

Lemma ensures_pure {A} (c : M A) R `{!Reflexive R} :
  (∀ w, (c w).2 = w) → ensures c R.
Proof. intros Hc w o w' Hrun. specialize (Hc w). rewrite Hrun in Hc. by subst. Qed.

Lemma ensures_ret {A} (a : A) R `{!Reflexive R} : ensures (ret a) R.
Proof. by apply ensures_pure. Qed.
Lemma ensures_throw {A} e R `{!Reflexive R} : ensures (@throw A e) R.
Proof. by apply ensures_pure. Qed.
Lemma ensures_defined {A} (o : option A) R `{!Reflexive R} : ensures (defined o) R.
Proof. apply ensures_pure; [done|]. by destruct o. Qed.
Lemma ensures_thisHexagonRings R `{!Reflexive R} : ensures thisHexagonRings R.
Proof.
  apply ensures_pure; [done|]. intros w. unfold thisHexagonRings, bind, getThis.
  by destruct (_hexagonRings (this w)).
Qed.
Lemma ensures_toArray a R `{!Reflexive R} : ensures (BitArrayM.toArray a) R.
Proof. by apply ensures_pure. Qed.

Lemma sameExcept_alter f b w :
  sameExcept b w {| heap := alter f b (heap w); this := this w |}.
Proof.
  split_and!; cbn; [done|by rewrite length_alter|].
  intros b' Hb'. by rewrite list_lookup_alter_ne.
Qed.

Lemma ensures_write a bits : ensures (BitArrayM.write a bits) (sameExcept (BitArray.buffer a)).
Proof. intros w o w' [= <- <-]. apply sameExcept_alter. Qed.

Lemma ensures_setValue a i v :
  ensures (BitArrayM.setValue a i v) (sameExcept (BitArray.buffer a)).
Proof.
  intros w o w' [= <- <-]. unfold BitArray.set. destruct (decide _).
  - apply sameExcept_alter.
  - by destruct w.
Qed.

Lemma ensures_forLoopFrom body R `{!Reflexive R, !Transitive R} n :
  (∀ j, ensures (body j) R) → ∀ i, ensures (forLoopFrom i n body) R.
Proof.
  intros Hbody. induction n as [|n IH]; intros i; cbn.
  - by apply ensures_ret.
  - apply ensures_bind; [done|apply Hbody|]. intros _. apply IH.
Qed.

Section Frames.
Context {C : Collaborators}.

(** The masking pass writes to the buffer of [dataToMask] and nowhere
    else. *)
Lemma ensures_maskLoop given a count : ∀ i e masks,
  ensures (maskLoop given a count i e masks) (sameExcept (BitArray.buffer a)).
Proof.
  induction count as [|count IH]; intros i e masks; cbn [maskLoop].
  - by apply ensures_ret.
  - apply ensures_bind; [apply _|by apply ensures_thisHexagonRings|]. intros rings.
    apply ensures_bind; [apply _|by apply ensures_defined|]. intros ring.
    apply ensures_bind; [apply _| |].
    { destruct given; [by apply ensures_defined|].
      apply ensures_bind; [apply _|by apply ensures_toArray|].
      intros bits. by apply ensures_ret. }
    intros mask.
    apply ensures_bind; [apply _|by apply ensures_toArray|]. intros bits.
    apply ensures_bind; [apply _|apply (ensures_write (BitArray.slice a _ e))|].
    intros _. apply IH.
Qed.

Lemma ensures_maskHexagonRings maskCountOrMasks dataToMask :
  ensures (_maskHexagonRings maskCountOrMasks dataToMask)
    (sameExcept (BitArray.buffer dataToMask)).
Proof. apply ensures_maskLoop. Qed.
End Frames.

Lemma sameExcept_new_buffer h x t w' :
  sameExcept (length h) {| heap := h ++ [x]; this := t |} w' →
  ∃ x', w' = {| heap := h ++ [x']; this := t |}.
Proof.
  intros (Ht & Hl & Hb). destruct w' as [h' t']. cbn in *. subst t'.
  rewrite length_app in Hl. cbn in Hl.
  destruct (h' !! length h) as [x'|] eqn:Hx'; cycle 1.
  { apply lookup_ge_None in Hx'. lia. }
  exists x'. f_equal. apply list_eq. intros j.
  destruct (decide (j = length h)) as [->|Hj].
  - by rewrite Hx', lookup_new_buffer.
  - rewrite Hb by done. destruct (decide (j < length h)).
    + by rewrite !lookup_app_l.
    + rewrite !(proj2 (lookup_ge_None _ j)); [done|rewrite length_app; cbn; lia..].
Qed.

(** ** The sizes of the buffers *)

#[export] Instance sameSizes_refl : Reflexive sameSizes.
Proof. by intros w b. Qed.

#[export] Instance sameSizes_trans : Transitive sameSizes.
Proof. intros w1 w2 w3 H1 H2 b. by rewrite H2, H1. Qed.

Lemma sameSizes_alter (f : list bool → list bool) b w :
  (∀ buf, length (f buf) = length buf) →
  sameSizes w {| heap := alter f b (heap w); this := this w |}.
Proof.
  intros Hf b'. unfold heap_buffer. cbn [heap].
  destruct (decide (b' = b)) as [->|Hb].
  - rewrite list_lookup_alter_eq. destruct (heap w !! b); cbn; [apply Hf|done].
  - by rewrite list_lookup_alter_ne.
Qed.

Lemma sizes_write a bits : ensures (BitArrayM.write a bits) sameSizes.
Proof.
  intros w o w' [= <- <-]. apply sameSizes_alter. intros buf.
  apply length_inserts.
Qed.

Lemma sizes_setValue a i v : ensures (BitArrayM.setValue a i v) sameSizes.
Proof.
  intros w o w' [= <- <-]. unfold BitArray.set. destruct (decide _).
  - apply sameSizes_alter. intros buf. apply length_insert.
  - by destruct w.
Qed.

Lemma ensures_and {A} (c : M A) (R1 R2 : World → World → Prop) :
  ensures c R1 → ensures c R2 → ensures c (λ w w', R1 w w' ∧ R2 w w').
Proof. intros H1 H2 w o w' Hrun. split; [by eapply H1|by eapply H2]. Qed.

Section Sizes.
Context {C : Collaborators}.

Lemma sizes_maskLoop given a count : ∀ i e masks,
  ensures (maskLoop given a count i e masks) sameSizes.
Proof.
  induction count as [|count IH]; intros i e masks; cbn [maskLoop].
  - by apply ensures_ret.
  - apply ensures_bind; [apply _|by apply ensures_thisHexagonRings|]. intros rings.
    apply ensures_bind; [apply _|by apply ensures_defined|]. intros ring.
    apply ensures_bind; [apply _| |].
    { destruct given; [by apply ensures_defined|].
      apply ensures_bind; [apply _|by apply ensures_toArray|].
      intros bits. by apply ensures_ret. }
    intros mask.
    apply ensures_bind; [apply _|by apply ensures_toArray|]. intros bits.
    apply ensures_bind; [apply _|apply sizes_write|].
    intros _. apply IH.
Qed.
End Sizes.

(** ** Loops that cannot fail *)

Lemma forLoopFrom_setValue_returns a (f : nat → bool) : ∀ n i w,
  ∃ w', forLoopFrom i n (λ j, BitArrayM.setValue a j (f j)) w = (Return (), w').
Proof.
  induction n as [|n IH]; intros i w; [by eexists|].
  cbn [forLoopFrom]. erewrite bind_run by reflexivity. apply IH.
Qed.

Section MaskLoopOutcome.
Context {C : Collaborators}.

(** With a ring for every mask, the masking pass returns. *)
Lemma maskLoop_returns given a : ∀ count i e masks w rings,
  _hexagonRings (this w) = Some rings →
  i + count ≤ length rings →
  (∀ g, given = Some g → i + count ≤ length g) →
  ∃ masks' w', maskLoop given a count i e masks w = (Return masks', w').
Proof.
  induction count as [|count IH]; intros i e masks w rings Hrings Hcount Hgiven;
    [by eexists _, _|].
  cbn [maskLoop].
  rewrite (bind_run _ _ _ _ _ (thisHexagonRings_run _ _ Hrings)).
  rewrite js_index_last by lia.
  destruct (reverse rings !! i) as [ring|] eqn:Hring; cycle 1.
  { apply lookup_ge_None in Hring. rewrite length_reverse in Hring. lia. }
  cbn [defined]. rewrite (bind_run _ _ w ring w) by done.
  destruct given as [g|].
  - specialize (Hgiven g eq_refl).
    rewrite js_index_last by lia.
    destruct (reverse g !! i) as [mask|] eqn:Hmask; cycle 1.
    { apply lookup_ge_None in Hmask. rewrite length_reverse in Hmask. lia. }
    cbn [defined]. rewrite (bind_run _ _ w mask w) by done.
    erewrite bind_run by reflexivity. erewrite bind_run by reflexivity.
    eapply IH; [exact Hrings|lia|]. intros g' [= <-]. lia.
  - erewrite bind_run by reflexivity. erewrite bind_run by reflexivity.
    erewrite bind_run by reflexivity.
    eapply IH; [exact Hrings|lia|done].
Qed.

(** Without one, it fails on the ring that is missing. *)
Lemma maskLoop_missing_ring given a : ∀ count i e masks w rings,
  _hexagonRings (this w) = Some rings →
  i ≤ length rings → length rings < i + count →
  (∀ g, given = Some g → i + count ≤ length g) →
  ∃ w', maskLoop given a count i e masks w = (Throw TypeError, w').
Proof.
  induction count as [|count IH]; intros i e masks w rings Hrings Hle Hcount Hgiven;
    [lia|].
  cbn [maskLoop].
  rewrite (bind_run _ _ _ _ _ (thisHexagonRings_run _ _ Hrings)).
  destruct (decide (i < length rings)) as [Hi|Hi].
  - rewrite js_index_last by done.
    destruct (reverse rings !! i) as [ring|] eqn:Hring; cycle 1.
    { apply lookup_ge_None in Hring. rewrite length_reverse in Hring. lia. }
    cbn [defined]. rewrite (bind_run _ _ w ring w) by done.
    destruct given as [g|].
    + specialize (Hgiven g eq_refl).
      rewrite js_index_last by lia.
      destruct (reverse g !! i) as [mask|] eqn:Hmask; cycle 1.
      { apply lookup_ge_None in Hmask. rewrite length_reverse in Hmask. lia. }
      cbn [defined]. rewrite (bind_run _ _ w mask w) by done.
      erewrite bind_run by reflexivity. erewrite bind_run by reflexivity.
      eapply IH; [exact Hrings|lia|lia|]. intros g' [= <-]. lia.
    + erewrite bind_run by reflexivity. erewrite bind_run by reflexivity.
      erewrite bind_run by reflexivity.
      eapply IH; [exact Hrings|lia|lia|done].
  - unfold js_index. rewrite decide_True by lia. by eexists.
Qed.
End MaskLoopOutcome.

Section EncodeRun.
Context {C : Collaborators}.

Lemma sizingStopsAt_room pl z n :
  sizingStopsAt pl (Int z) n = true → (0 ≤ z)%Z →
  plannedHeaderLength n + pl + Z.to_nat z ≤ capacity n.
Proof.
  intros (_ & Hstop & _)%sizingStopsAt_spec Hz. unfold sizingContinues in Hstop.
  apply orb_false_iff in Hstop as [Hcap _].
  unfold calculateLength in Hcap. cbn [Number.add_nat Number.ltb_nat] in Hcap.
  apply bool_decide_eq_false in Hcap.
  unfold plannedHeaderLength, plannedMaskCount. lia.
Qed.

(** Encode up to the copying of the encoded payload, for arguments that
    pass the checks: the rings are sized and the bit stream is allocated,
    all zeros. *)
Lemma constructFromPayload_allocated fuel payload factor w P n :
  heap w !! Uint8Array.buffer payload = Some (bits_of_bytes P) →
  P ≠ [] → length P ≤ 2 ^ HEADER_LENGTH_PAYLOAD_LENGTH →
  Float64.ltb factor Float64.zero = false →
  Float64.ltb MAX_FACTOR_ERROR_CORRECTION_DATA factor = false →
  sizingStopsAt (8 * length P) (ceilMul (8 * length P) factor) n = true →
  n ≤ fuel →
  let hl := plannedHeaderLength n in
  let ecl : Z :=
    (Z.of_nat (capacity n) - Z.of_nat hl - Z.of_nat (8 * length P))%Z in
  let data := BitArray.mk (length (heap w)) 0 (capacity n) in
  let encodedPayload := BitArray.slice data hl (capacity n) in
  _constructFromPayload fuel payload factor CURRENT_VERSION w
  = (forLoop (BitArray.length encodedPayload) (λ i,
       BitArrayM.setValue encodedPayload i
         (bitAt (LDPC_encode (bits_of_bytes P) ecl) i)) ;;;
     let! hexRingMasks :=
       _maskHexagonRings (inl (plannedMaskCount n)) encodedPayload in
     let! headerBits := BitArrayM.toArray (BitArray.slice data 0 hl) in
     BitArrayM.write (BitArray.slice data 0 hl)
       (NimiqodeHeader_write headerBits CURRENT_VERSION (8 * length P) ecl
          (CRC16_crc16 P) hexRingMasks) ;;;
     let! rings := thisHexagonRings in
     let! data0 := thisData in
     modifyThis (set_hexagonRings (assignHexagonRingData rings data0)) ;;;
     ret ())
      {| heap := heap w ++ [replicate (capacity n) false];
         this := set_data data
                   (set_hexagonRings (ringsUpTo n)
                      (set_hexagonRings [] (set_payload payload (this w)))) |}.
Proof.
  intros Hpayload HP Hsize Hf0 Hf1 Hstop Hfuel hl0 ecl0 data0 encodedPayload0.
  subst hl0 ecl0 data0 encodedPayload0.
  assert (Uint8Array.byteLength (heap w) payload = length P) as HbyteLength.
  { unfold Uint8Array.byteLength, heap_buffer. rewrite Hpayload. cbn [from_option id].
    rewrite length_bits_of_bytes, Nat.mul_comm. apply Nat.div_mul. lia. }
  unfold _constructFromPayload.
  rewrite (bind_run _ _ w (length P) w)
    by (unfold Uint8ArrayM.byteLength, bind, getHeap, ret; by rewrite HbyteLength).
  rewrite Hf0, Hf1.
  rewrite (bool_decide_eq_false_2 (CURRENT_VERSION ≠ CURRENT_VERSION)) by (by intros []).
  rewrite (bool_decide_eq_false_2 (length P = 0)) by (by destruct P).
  rewrite (bool_decide_eq_false_2 (_ > _)) by lia.
  cbn [orb].
  (* new BitArray(payload) *)
  assert (heap_buffer (heap w) (Uint8Array.buffer payload) = bits_of_bytes P)
    as Hbuf by (unfold heap_buffer; by rewrite Hpayload).
  rewrite (bind_run _ _ w (BitArray.mk (Uint8Array.buffer payload) 0 (8 * length P)) w)
    by (unfold BitArrayM.ofUint8Array, bind, getHeap, ret;
        by rewrite Hbuf, length_bits_of_bytes).
  cbn [BitArray.length].
  (* this._payload = payload; this._hexagonRings = [] *)
  erewrite bind_run by reflexivity. erewrite bind_run by reflexivity.
  (* _createHexagonRings *)
  set (pl := 8 * length P) in *. set (prelim := ceilMul pl factor) in *.
  apply sizingStopsAt_spec in Hstop as Hstop'. destruct Hstop' as (Hn & Hstopn & Hgo).
  erewrite bind_run; cycle 1.
  { unfold _createHexagonRings.
    apply (createHexagonRingsLoop_run pl prelim n fuel 0); [done|done|lia|done|done]. }
  (* CRC16.crc16(payload) *)
  erewrite (bind_run (Uint8ArrayM.bytes payload) _ _ P); cycle 1.
  { unfold Uint8ArrayM.bytes, bind, getHeap, ret, Uint8Array.bytes. cbn [heap withRings].
    by rewrite Hbuf, bytes_of_bits_of_bytes. }
  (* this._data = new BitArray(dataLength) *)
  erewrite bind_run by reflexivity. erewrite bind_run by reflexivity.
  erewrite bind_run by reflexivity.
  cbn [heap this withRings set_data set_hexagonRings set_payload _payload _hexagonRings _data].
  change (NimiqodeHeader_calculateLength
            (NimiqodeHeader_calculateMaskCount (ringsUpTo n)))
    with (plannedHeaderLength n).
  change (NimiqodeHeader_calculateMaskCount (ringsUpTo n))
    with (plannedMaskCount n).
  set (hl := plannedHeaderLength n) in *.
  set (ecl := (Z.of_nat (capacity n) - Z.of_nat hl - Z.of_nat pl)%Z).
  replace (Z.to_nat (Z.of_nat hl + Z.of_nat pl + ecl)) with (capacity n)
    by (unfold ecl; lia).
  (* payloadBitArray.toArray() *)
  erewrite (bind_run (BitArrayM.toArray _) _ _ (bits_of_bytes P)); [reflexivity|].
  unfold BitArrayM.toArray, bind, getHeap, ret, BitArray.read, heap_buffer.
  cbn [heap BitArray.buffer BitArray.start BitArray.length].
  rewrite lookup_app_l by (by eapply lookup_lt_Some).
  rewrite Hpayload. cbn [from_option id drop].
  by rewrite (resize_all_alt (bits_of_bytes P) pl)
    by (unfold pl; by rewrite length_bits_of_bytes).
Qed.

(** What encode does after that, whatever the factor was: it returns with
    the bit stream as the one new buffer of the store, as long as the
    rings, or it fails in the masking pass on a missing ring. *)
Lemma constructFromPayload_outcome fuel payload factor w P n :
  heap w !! Uint8Array.buffer payload = Some (bits_of_bytes P) →
  P ≠ [] → length P ≤ 2 ^ HEADER_LENGTH_PAYLOAD_LENGTH →
  Float64.ltb factor Float64.zero = false →
  Float64.ltb MAX_FACTOR_ERROR_CORRECTION_DATA factor = false →
  sizingStopsAt (8 * length P) (ceilMul (8 * length P) factor) n = true →
  n ≤ fuel →
  (plannedMaskCount n ≤ n
   ∧ ∃ stream,
       length stream = capacity n
       ∧ _constructFromPayload fuel payload factor CURRENT_VERSION w
         = (Return (),
            {| heap := heap w ++ [stream];
               this := encodedInstance payload n (length (heap w)) |}))
  ∨ (n < plannedMaskCount n
     ∧ ∃ w', _constructFromPayload fuel payload factor CURRENT_VERSION w
             = (Throw TypeError, w')).
Proof.
  intros Hpayload HP Hsize Hf0 Hf1 Hstop Hfuel.
  rewrite (constructFromPayload_allocated _ _ _ _ _ _ Hpayload HP Hsize Hf0 Hf1 Hstop Hfuel).
  set (hl := plannedHeaderLength n).
  set (ecl := (Z.of_nat (capacity n) - Z.of_nat hl - Z.of_nat (8 * length P))%Z).
  set (data := BitArray.mk (length (heap w)) 0 (capacity n)).
  set (encodedPayload := BitArray.slice data hl (capacity n)).
  set (t0 := set_data data _).
  set (w0 := {| heap := _; this := t0 |}).
  pose (R := λ u u' : World, sameExcept (length (heap w)) u u' ∧ sameSizes u u').
  assert (Reflexive R) by (by split).
  assert (Transitive R)
    by (intros w1 w2 w3 [? ?] [? ?]; split; by etrans).
  (* the encoded payload is copied *)
  unfold forLoop.
  destruct (forLoopFrom_setValue_returns encodedPayload
              (bitAt (LDPC_encode (bits_of_bytes P) ecl))
              (BitArray.length encodedPayload) 0 w0) as [w2 Hcopy].
  rewrite (bind_run _ _ _ _ _ Hcopy).
  assert (R w0 w2) as H2.
  { revert Hcopy. apply (ensures_forLoopFrom _ R). intros j.
    apply ensures_and;
      [apply (ensures_setValue encodedPayload)|apply sizes_setValue]. }
  assert (this w2 = t0) as Ht2 by apply H2.
  (* the masking pass *)
  destruct (decide (plannedMaskCount n ≤ n)) as [Hmc|Hmc]; cycle 1.
  { right. split; [lia|]. unfold _maskHexagonRings, bind at 1.
    edestruct (maskLoop_missing_ring None encodedPayload (plannedMaskCount n) 0
                 (BitArray.length encodedPayload) [] w2 (ringsUpTo n))
      as [w' ->]; [by rewrite Ht2|lia|rewrite length_ringsUpTo; lia|done|].
    by eexists. }
  left. split; [done|].
  unfold _maskHexagonRings.
  destruct (maskLoop_returns None encodedPayload (plannedMaskCount n) 0
              (BitArray.length encodedPayload) [] w2 (ringsUpTo n))
    as (masks & w3 & Hmask); [by rewrite Ht2|rewrite length_ringsUpTo; lia|done|].
  rewrite (bind_run _ _ _ _ _ Hmask).
  assert (R w2 w3) as H3.
  { revert Hmask. apply ensures_and;
      [apply (ensures_maskLoop None encodedPayload)|apply sizes_maskLoop]. }
  (* the header is written *)
  erewrite bind_run by reflexivity.
  unfold BitArrayM.write at 1, modifyHeap at 1, bind at 1.
  set (w4 := {| heap := BitArray.write (heap w3) _ _; this := this w3 |}).
  assert (R w3 w4) as H4.
  { split.
    - eapply (ensures_write (BitArray.slice data 0 hl)). reflexivity.
    - eapply (sizes_write (BitArray.slice data 0 hl)). reflexivity. }
  assert (R w0 w4) as [Hexcept Hsizes] by (by do 2 (etrans; [eassumption|])).
  assert (this w4 = t0) as Ht4 by apply Hexcept.
  (* the rings get their data *)
  assert (_hexagonRings (this w4) = Some (ringsUpTo n)) as Hrings4
    by (by rewrite Ht4).
  assert (_data (this w4) = Some data) as Hdata4 by (by rewrite Ht4).
  rewrite (bind_run _ _ _ _ _ (thisHexagonRings_run w4 (ringsUpTo n) Hrings4)).
  rewrite (bind_run _ _ _ _ _ (thisData_run w4 data Hdata4)).
  unfold modifyThis at 1, bind at 1, ret. rewrite Ht4.
  specialize (Hsizes (length (heap w))).
  apply sameExcept_new_buffer in Hexcept as [stream Hw4].
  rewrite Hw4 in Hsizes |- *. unfold heap_buffer, w0 in Hsizes.
  cbn [heap] in Hsizes |- *. rewrite !lookup_new_buffer in Hsizes.
  cbn [from_option id] in Hsizes. rewrite length_replicate in Hsizes.
  exists stream. split; [done|]. reflexivity.
Qed.

(** With an estimate that is an integer there is room for header and
    payload.  Encode up to the masking pass: the bit stream holds the
    encoded payload behind a header that is still blank. *)
Lemma constructFromPayload_masking fuel payload factor w P n z :
  heap w !! Uint8Array.buffer payload = Some (bits_of_bytes P) →
  P ≠ [] → length P ≤ 2 ^ HEADER_LENGTH_PAYLOAD_LENGTH →
  Float64.ltb factor Float64.zero = false →
  Float64.ltb MAX_FACTOR_ERROR_CORRECTION_DATA factor = false →
  ceilMul (8 * length P) factor = Int z →
  sizingStopsAt (8 * length P) (ceilMul (8 * length P) factor) n = true →
  n ≤ fuel →
  let hl := plannedHeaderLength n in
  let ecl := Z.of_nat (finalErrorCorrectionLength P n) in
  let data := BitArray.mk (length (heap w)) 0 (capacity n) in
  let encoded :=
    resize (capacity n - hl) false (LDPC_encode (bits_of_bytes P) ecl) in
  _constructFromPayload fuel payload factor CURRENT_VERSION w
  = (let! hexRingMasks :=
       _maskHexagonRings (inl (plannedMaskCount n))
         (BitArray.slice data hl (capacity n)) in
     let! headerBits := BitArrayM.toArray (BitArray.slice data 0 hl) in
     BitArrayM.write (BitArray.slice data 0 hl)
       (NimiqodeHeader_write headerBits CURRENT_VERSION (8 * length P) ecl
          (CRC16_crc16 P) hexRingMasks) ;;;
     let! rings := thisHexagonRings in
     let! data0 := thisData in
     modifyThis (set_hexagonRings (assignHexagonRingData rings data0)) ;;;
     ret ())
      {| heap := heap w ++ [replicate hl false ++ encoded];
         this := set_data data
                   (set_hexagonRings (ringsUpTo n)
                      (set_hexagonRings [] (set_payload payload (this w)))) |}.
Proof.
  intros Hpayload HP Hsize Hf0 Hf1 Hz Hstop Hfuel hl0 ecl0 data0 encoded0.
  subst hl0 ecl0 data0 encoded0.
  assert (Hroom : plannedHeaderLength n + 8 * length P + Z.to_nat z ≤ capacity n).
  { apply sizingStopsAt_room; [by rewrite <- Hz|by eapply ceilMul_nonneg]. }
  rewrite (constructFromPayload_allocated _ _ _ _ _ _ Hpayload HP Hsize Hf0 Hf1 Hstop Hfuel).
  set (hl := plannedHeaderLength n) in *.
  replace (Z.of_nat (capacity n) - Z.of_nat hl - Z.of_nat (8 * length P))%Z
    with (Z.of_nat (finalErrorCorrectionLength P n))
    by (unfold finalErrorCorrectionLength; fold hl; lia).
  set (data := BitArray.mk (length (heap w)) 0 (capacity n)).
  set (encodedPayload := BitArray.slice data hl (capacity n)).
  erewrite bind_run; cycle 1.
  { apply (forLoop_setValue encodedPayload _ (replicate hl false)
             (replicate (capacity n - hl) false) []).
    split_and!; cbn; [|by rewrite length_replicate..].
    rewrite lookup_new_buffer. f_equal.
    rewrite app_nil_r, <- replicate_add. f_equal. lia. }
  cbn [heap this BitArray.buffer BitArray.length encodedPayload BitArray.slice data].
  rewrite insert_new_buffer.
  rewrite app_nil_r. reflexivity.
Qed.

(** A run of encode with an integer estimate, in full. *)
Lemma constructFromPayload_run fuel payload factor w P n z :
  heap w !! Uint8Array.buffer payload = Some (bits_of_bytes P) →
  P ≠ [] → length P ≤ 2 ^ HEADER_LENGTH_PAYLOAD_LENGTH →
  Float64.ltb factor Float64.zero = false →
  Float64.ltb MAX_FACTOR_ERROR_CORRECTION_DATA factor = false →
  ceilMul (8 * length P) factor = Int z →
  sizingStopsAt (8 * length P) (ceilMul (8 * length P) factor) n = true →
  n ≤ fuel →
  plannedMaskCount n ≤ n →
  _constructFromPayload fuel payload factor CURRENT_VERSION w
  = (Return (),
     {| heap := heap w ++ [encodedData CURRENT_VERSION P n];
        this := encodedInstance payload n (length (heap w)) |}).
Proof.
  intros Hpayload HP Hsize Hf0 Hf1 Hz Hstop Hfuel Hmc.
  assert (Hroom : plannedHeaderLength n + 8 * length P + Z.to_nat z ≤ capacity n).
  { apply sizingStopsAt_room; [by rewrite <- Hz|by eapply ceilMul_nonneg]. }
  rewrite (constructFromPayload_masking _ _ _ _ _ _ _ Hpayload HP Hsize Hf0 Hf1 Hz Hstop Hfuel).
  set (pl := 8 * length P) in *.
  set (hl := plannedHeaderLength n) in *.
  set (ecl := Z.of_nat (finalErrorCorrectionLength P n)).
  set (data := BitArray.mk (length (heap w)) 0 (capacity n)).
  set (this1 := set_data _ _).
  set (encodedPayload := BitArray.slice data hl (capacity n)).
  (* _maskHexagonRings *)
  set (encoded := resize (capacity n - hl) false (LDPC_encode (bits_of_bytes P) ecl)).
  assert (length encoded = capacity n - hl) as Hencoded
    by (unfold encoded; by rewrite length_resize).
  erewrite bind_run; cycle 1.
  { unfold _maskHexagonRings.
    apply (maskLoop_run None encodedPayload (plannedMaskCount n) 0 _ [] _
             (ringsUpTo n) (replicate hl false) encoded []).
    - done.
    - split_and!; cbn; [|by rewrite length_replicate|done].
      rewrite app_nil_r. apply lookup_new_buffer.
    - by rewrite Hencoded.
    - rewrite length_ringsUpTo. lia.
    - done. }
  cbn [heap this BitArray.buffer BitArray.length encodedPayload BitArray.slice data].
  rewrite insert_new_buffer.
  change (maskRegion None (visited (ringsUpTo n) 0 (plannedMaskCount n)) 0
            (capacity n - hl) encoded []) with (maskedPayload P n).
  rewrite app_nil_r.
  (* NimiqodeHeader.write(header, ...) *)
  assert (focused (heap w ++ [replicate hl false ++ (maskedPayload P n).1])
            (BitArray.slice data 0 hl) [] (replicate hl false)
            (maskedPayload P n).1) as Hheader.
  { split_and!; cbn; [|done|by rewrite length_replicate; lia].
    apply lookup_new_buffer. }
  erewrite bind_run; cycle 1.
  { unfold BitArrayM.toArray, bind, getHeap, ret. cbn [heap].
    by rewrite (focused_read _ _ _ _ _ Hheader). }
  unfold BitArrayM.write at 1, modifyHeap at 1, bind at 1. cbn [heap this].
  rewrite (focused_write _ _ _ _ _ _ Hheader).
  cbn [BitArray.buffer BitArray.length BitArray.slice data app].
  rewrite insert_new_buffer, Nat.sub_0_r.
  (* assignHexagonRingData *)
  erewrite bind_run by reflexivity. erewrite bind_run by reflexivity.
  reflexivity.
Qed.

Lemma maskLoop_undefined_ring a : ∀ count i e masks w rings,
  _hexagonRings (this w) = Some rings →
  i ≤ length rings → length rings < i + count →
  ∃ w', maskLoop None a count i e masks w = (Throw TypeError, w').
Proof.
  induction count as [|count IH]; intros i e masks w rings Hrings Hle Hcount; [lia|].
  cbn [maskLoop].
  rewrite (bind_run _ _ _ _ _ (thisHexagonRings_run _ _ Hrings)).
  destruct (decide (i < length rings)) as [Hi|Hi].
  - rewrite js_index_last by done.
    destruct (reverse rings !! i) as [ring|] eqn:Hring; cycle 1.
    { apply lookup_ge_None in Hring. rewrite length_reverse in Hring. lia. }
    cbn [defined]. rewrite (bind_run _ _ w ring w) by done.
    erewrite bind_run by reflexivity. erewrite bind_run by reflexivity.
    erewrite bind_run by reflexivity.
    eapply IH; [exact Hrings|lia|lia].
  - unfold js_index. rewrite decide_True by lia. by eexists.
Qed.

(** A successful encode: its arguments passed the checks, the sizing loop
    stopped after some ring [n], the store gained the bit stream, as long
    as the rings, and the instance is the planned one.  When the estimate
    was an integer, the bit stream is the planned one too. *)
Lemma constructFromPayload_inv fuel payload factor version w w1 P :
  heap w !! Uint8Array.buffer payload = Some (bits_of_bytes P) →
  _constructFromPayload fuel payload factor version w = (Return (), w1) →
  ∃ n stream,
    version = CURRENT_VERSION
    ∧ P ≠ [] ∧ length P ≤ 2 ^ HEADER_LENGTH_PAYLOAD_LENGTH
    ∧ Float64.ltb factor Float64.zero = false
    ∧ Float64.ltb MAX_FACTOR_ERROR_CORRECTION_DATA factor = false
    ∧ sizingStopsAt (8 * length P) (ceilMul (8 * length P) factor) n = true
    ∧ n ≤ fuel
    ∧ plannedMaskCount n ≤ n
    ∧ length stream = capacity n
    ∧ w1 = {| heap := heap w ++ [stream];
              this := encodedInstance payload n (length (heap w)) |}
    ∧ ∀ z, ceilMul (8 * length P) factor = Int z →
           (0 ≤ z)%Z
           ∧ plannedHeaderLength n + 8 * length P + Z.to_nat z ≤ capacity n
           ∧ stream = encodedData CURRENT_VERSION P n.
Proof.
  intros Hpayload Hrun.
  assert (Uint8Array.byteLength (heap w) payload = length P) as HbyteLength.
  { unfold Uint8Array.byteLength, heap_buffer. rewrite Hpayload. cbn [from_option id].
    rewrite length_bits_of_bytes, Nat.mul_comm. apply Nat.div_mul. lia. }
  assert (heap_buffer (heap w) (Uint8Array.buffer payload) = bits_of_bytes P)
    as Hbuf by (unfold heap_buffer; by rewrite Hpayload).
  (* the argument checks *)
  assert (version = CURRENT_VERSION ∧ P ≠ []
          ∧ Float64.ltb factor Float64.zero = false
          ∧ Float64.ltb MAX_FACTOR_ERROR_CORRECTION_DATA factor = false
          ∧ length P ≤ 2 ^ HEADER_LENGTH_PAYLOAD_LENGTH) as (-> & HP & Hf0 & Hf1 & Hsize).
  { revert Hrun. unfold _constructFromPayload.
    rewrite (bind_run _ _ w (length P) w)
      by (unfold Uint8ArrayM.byteLength, bind, getHeap, ret; by rewrite HbyteLength).
    destruct (bool_decide (version ≠ CURRENT_VERSION)) eqn:Hv; [done|].
    destruct (bool_decide (length P = 0)) eqn:HP; [done|].
    destruct (Float64.ltb factor Float64.zero) eqn:Hf0; [done|].
    destruct (Float64.ltb MAX_FACTOR_ERROR_CORRECTION_DATA factor) eqn:Hf1; [done|].
    destruct (bool_decide (length P * 8 > 2 ^ HEADER_LENGTH_PAYLOAD_LENGTH * 8))
      eqn:Hsize; [done|].
    intros _. apply bool_decide_eq_false in Hv, HP, Hsize.
    split_and!; [by destruct (decide (version = CURRENT_VERSION))
                |by intros ->|done|done|lia]. }
  (* the sizing loop *)
  set (pl := 8 * length P). set (prelim := ceilMul pl factor).
  set (w0 := {| heap := heap w;
                this := set_hexagonRings [] (set_payload payload (this w)) |}).
  destruct (createHexagonRingsLoop fuel pl prelim 0 0 w0) as [[total| |] w'] eqn:Hloop.
  2,3: exfalso; revert Hrun; unfold _constructFromPayload;
    rewrite (bind_run _ _ w (length P) w)
      by (unfold Uint8ArrayM.byteLength, bind, getHeap, ret; by rewrite HbyteLength);
    rewrite Hf0, Hf1;
    rewrite (bool_decide_eq_false_2 (CURRENT_VERSION ≠ CURRENT_VERSION)) by (by intros []);
    rewrite (bool_decide_eq_false_2 (length P = 0)) by (by destruct P);
    rewrite (bool_decide_eq_false_2 (_ > _)) by lia;
    cbn [orb];
    rewrite (bind_run _ _ w (BitArray.mk (Uint8Array.buffer payload) 0 (8 * length P)) w)
      by (unfold BitArrayM.ofUint8Array, bind, getHeap, ret;
          by rewrite Hbuf, length_bits_of_bytes);
    cbn [BitArray.length];
    do 2 (erewrite bind_run by reflexivity);
    unfold _createHexagonRings, bind at 1; cbn [heap this]; fold pl prelim w0;
    rewrite Hloop; done.
  apply (createHexagonRingsLoop_inv pl prelim fuel 0) in Hloop
    as (n & Hn & Hfuel & Hstop & Hgo & _ & _); [|done].
  assert (sizingStopsAt pl prelim n = true) as Hstops.
  { apply sizingStopsAt_spec. split_and!; [lia|done|]. intros j Hj. apply Hgo. lia. }
  exists n.
  destruct (constructFromPayload_outcome fuel payload factor w P n)
    as [(Hmc & stream & Hlen & Hreturn)|(_ & w'' & Hthrow)];
    [done|done|done|done|done|done|lia| |by rewrite Hthrow in Hrun].
  exists stream. rewrite Hreturn in Hrun. injection Hrun as <-.
  split_and!; [done..|lia|done|done|done|].
  intros z Hz.
  assert (0 ≤ z)%Z as Hz0 by (by eapply ceilMul_nonneg).
  split_and!; [done|apply sizingStopsAt_room; [by rewrite <- Hz|done]|].
  rewrite (constructFromPayload_run fuel payload factor w P n z) in Hreturn
    by (done || lia).
  injection Hreturn as Hstream. by apply app_inj_tail in Hstream as [_ ->].
Qed.
End EncodeRun.

Section DecodeRun.
Context {C : Collaborators}.

Lemma constructFromScan_run hexagonRings data w pre D post
    payloadBytes errorCorrectionLength checksum hexRingMasks payloadBits :
  let headerLength :=
    NimiqodeHeader_calculateLength (NimiqodeHeader_calculateMaskCount hexagonRings) in
  let payloadLength := 8 * payloadBytes in
  let unmasked :=
    (maskRegion (Some hexRingMasks)
       (visited hexagonRings 0 (length hexRingMasks)) 0
       (length D - headerLength) (drop headerLength D) []).1 in
  let payload := resize payloadLength false payloadBits in
  focused (heap w) data pre D post →
  NimiqodeHeader_read (take headerLength D) hexagonRings
  = (0%Z, payloadLength, errorCorrectionLength, checksum, hexRingMasks) →
  headerLength + payloadLength + errorCorrectionLength = length D →
  length hexRingMasks ≤ length hexagonRings →
  LDPC_decode unmasked payloadLength errorCorrectionLength = Some payloadBits →
  CRC16_crc16 (bytes_of_bits payload) = checksum →
  _constructFromScan hexagonRings data w
  = (Return (),
     {| heap := heap w ++ [unmasked; payload];
        this := {| _payload := Some (Uint8Array.mk (S (length (heap w))));
                   _hexagonRings := Some hexagonRings;
                   _data := Some data |} |}).
Proof.
  intros hl pl unmasked payload Hfoc Hread Hlen Hmasks Hdecode Hcrc.
  assert (HD := proj2 (proj2 Hfoc)).
  assert (BitArray.read (heap w) (BitArray.slice data 0 hl) = take hl D) as Hhdr.
  { erewrite focused_read; [|apply (focused_slice _ _ _ _ _ 0 hl Hfoc); lia].
    by rewrite Nat.sub_0_r. }
  rewrite <- Hhdr in Hread.
  rewrite (constructFromScan_header _ _ _ _ Hread).
  rewrite bool_decide_eq_false_2 by (by intros []).
  fold hl pl. rewrite <- HD.
  rewrite bool_decide_eq_false_2 by (by intros []).
  (* new BitArray(this._data, headerLength, this._data.length, true) *)
  erewrite bind_run; cycle 1.
  { unfold BitArrayM.copy, bind, getHeap, alloc, ret. cbn [heap this].
    erewrite focused_read;
      [|apply (focused_slice _ _ _ _ _ hl (length D) Hfoc); lia].
    rewrite take_ge by (rewrite length_drop; lia).
    reflexivity. }
  set (copy := BitArray.mk (length (heap w)) 0 (length D - hl)).
  (* _maskHexagonRings(hexRingMasks, encodedPayload) *)
  erewrite bind_run; cycle 1.
  { unfold _maskHexagonRings.
    apply (maskLoop_run (Some hexRingMasks) copy (length hexRingMasks) 0 _ []
             _ hexagonRings [] (drop hl D) []).
    - done.
    - split_and!; cbn; [|done|by rewrite length_drop].
      rewrite app_nil_r. apply lookup_new_buffer.
    - cbn. by rewrite length_drop.
    - done.
    - by intros g [= <-]. }
  cbn [heap this BitArray.buffer BitArray.length copy app].
  rewrite insert_new_buffer, app_nil_r. fold unmasked.
  (* LDPC.decode *)
  assert (length unmasked = length D - hl) as Hunmasked.
  { unfold unmasked. rewrite maskRegion_length; rewrite length_drop; lia. }
  erewrite (bind_run (BitArrayM.toArray _) _ _ unmasked); cycle 1.
  { unfold BitArrayM.toArray, bind, getHeap, ret, BitArray.read, heap_buffer.
    cbn [heap BitArray.buffer BitArray.start BitArray.length copy].
    rewrite lookup_new_buffer. cbn [from_option id]. rewrite drop_0.
    by rewrite resize_all_alt. }
  rewrite Hdecode.
  (* this._payload = new Uint8Array(payloadLength / 8) *)
  replace (pl / 8) with payloadBytes
    by (unfold pl; rewrite Nat.mul_comm; symmetry; apply Nat.div_mul; lia).
  erewrite bind_run by reflexivity. erewrite bind_run by reflexivity.
  cbn [heap this].
  set (h1 := heap w ++ [unmasked]).
  assert (length h1 = S (length (heap w))) as Hh1
    by (unfold h1; rewrite length_app; cbn; lia).
  rewrite (bind_run _ _ _ (BitArray.mk (length h1) 0 pl)
             {| heap := h1 ++ [replicate pl false];
                this := set_payload (Uint8Array.mk (length h1))
                          (set_data data (set_hexagonRings hexagonRings (this w))) |});
    cycle 1.
  { unfold BitArrayM.ofUint8Array, bind, getHeap, ret, heap_buffer.
    cbn [heap Uint8Array.buffer].
    by rewrite lookup_new_buffer; cbn [from_option id]; rewrite length_replicate. }
  erewrite bind_run; cycle 1.
  { apply (forLoop_setValue (BitArray.mk (length h1) 0 pl) _ []
             (replicate pl false) []).
    split_and!; cbn; [|done|by rewrite length_replicate].
    rewrite app_nil_r. apply lookup_new_buffer. }
  cbn [heap this BitArray.buffer BitArray.length app].
  rewrite insert_new_buffer, app_nil_r. fold payload.
  erewrite (bind_run (Uint8ArrayM.bytes _) _ _ (bytes_of_bits payload)); cycle 1.
  { unfold Uint8ArrayM.bytes, bind, getHeap, ret, Uint8Array.bytes, heap_buffer.
    cbn [heap Uint8Array.buffer]. by rewrite lookup_new_buffer. }
  rewrite bool_decide_eq_false_2 by (by intros []).
  unfold ret. rewrite Hh1. unfold h1. rewrite <- app_assoc. reflexivity.
Qed.
End DecodeRun.

(** ** Round trip *)

Section RoundTrip.
Context {C : Collaborators} {HC : Contracts C}.

Lemma shape_assignLoop rings data : ∀ handledBits,
  shape (assignLoop rings data handledBits) = shape rings.
Proof. induction rings as [|ring rings IH]; intros k; cbn; [done|]. by rewrite IH. Qed.

Lemma shape_assignHexagonRingData rings data :
  shape (assignHexagonRingData rings data) = shape rings.
Proof. apply shape_assignLoop. Qed.

Lemma visited_shape rings rings' i count :
  shape rings = shape rings' → visited rings i count = visited rings' i count.
Proof. unfold visited. by intros ->. Qed.

Lemma length_visited rings count :
  count ≤ length rings → length (visited rings 0 count) = count.
Proof.
  intros Hc. unfold visited, shape.
  rewrite length_take, drop_0, length_reverse, length_fmap. lia.
Qed.

Lemma length_maskedPayload_masks P n :
  length (maskedPayload P n).2 = plannedMaskCount n.
Proof.
  unfold maskedPayload. rewrite maskRegion_masks_length, length_visited; cbn; [lia|].
  rewrite length_ringsUpTo. unfold plannedMaskCount.
  etrans; [apply calculateMaskCount_le|]. by rewrite length_ringsUpTo.
Qed.

Lemma length_encodedData P n version :
  plannedHeaderLength n ≤ capacity n →
  length (encodedData version P n) = capacity n.
Proof.
  intros Hle. unfold encodedData, writtenHeader, maskedPayload.
  rewrite length_app, length_resize, maskRegion_length;
    rewrite length_resize; lia.
Qed.

(** C1 (round trip), as the code has it.  Let the collaborators keep their
    contracts and let version 0 be the current version.  For every non-empty
    payload [P] of at most [2 ^ HEADER_LENGTH_PAYLOAD_LENGTH] bytes (whose
    bit count a JavaScript number holds exactly: it is below 2^53) and
    every binary64 factor in [0, MAX_FACTOR_ERROR_CORRECTION_DATA]: if the
    ring-sizing loop stops after [n] rings, [fuel] covers its [n]
    iterations, and the header codec reads back the header written for this
    encoding, then encoding [P] with version 0 returns an instance, and
    decoding the ring set and bit stream of that instance (as a new
    instance, over the store encode left) returns an instance whose payload
    holds the bytes [P]. *)
Theorem roundtrip payload P factor n fuel w :
  CURRENT_VERSION = 0%Z →
  holdsBytes (heap w) payload P →
  P ≠ [] → length P ≤ 2 ^ HEADER_LENGTH_PAYLOAD_LENGTH →
  (Z.of_nat (8 * length P) < 2 ^ 53)%Z →
  Float64.leb Float64.zero factor = true →
  Float64.leb factor MAX_FACTOR_ERROR_CORRECTION_DATA = true →
  sizingStopsAt (8 * length P) (ceilMul (8 * length P) factor) n = true →
  n ≤ fuel →
  headerReadsBack P n →
  ∃ w1 hexagonRings data w2 decoded,
    _constructFromPayload fuel payload factor 0 w = (Return (), w1)
    ∧ _hexagonRings (this w1) = Some hexagonRings
    ∧ _data (this w1) = Some data
    ∧ _constructFromScan hexagonRings data
        {| heap := heap w1; this := newInstance |} = (Return (), w2)
    ∧ _payload (this w2) = Some decoded
    ∧ Uint8Array.bytes (heap w2) decoded = P.
Proof.
  intros Hversion Hpayload HP Hsize Hexact Hf0 Hf1 Hstop Hfuel Hheader.
  assert (0 < 8 * length P) as Hbits0
    by (destruct P; [by destruct HP|cbn [length]; lia]).
  destruct (ceilMul_number (8 * length P) factor) as [(z & Hz & Hz0)|Hinf];
    [done|done|done| |]; cycle 1.
  { apply sizingStopsAt_spec in Hstop as (_ & Hstop & _).
    by rewrite Hinf in Hstop. }
  apply Float64_leb_ltb in Hf0, Hf1.
  assert (plannedHeaderLength n + 8 * length P + Z.to_nat z ≤ capacity n) as Hroom
    by (apply sizingStopsAt_room; [by rewrite <- Hz|done]).
  assert (plannedMaskCount n ≤ n) as Hmc.
  { unfold plannedMaskCount. etrans; [apply calculateMaskCount_le|].
    by rewrite length_ringsUpTo. }
  rewrite <- Hversion.
  set (pl := 8 * length P) in *.
  set (hl := plannedHeaderLength n) in *.
  set (ecl := finalErrorCorrectionLength P n).
  set (data := BitArray.mk (length (heap w)) 0 (capacity n)).
  set (rings := assignHexagonRingData (ringsUpTo n) data).
  set (D := encodedData CURRENT_VERSION P n).
  assert (length (bits_of_bytes P) = pl) as Hbits by apply length_bits_of_bytes.
  assert (hl + pl + ecl = capacity n) as Hlayout
    by (unfold ecl, finalErrorCorrectionLength; fold hl pl; lia).
  assert (length D = capacity n) as HD by (apply length_encodedData; fold hl; lia).
  assert (shape rings = shape (ringsUpTo n)) as Hshape
    by apply shape_assignHexagonRingData.
  assert (length rings = n) as Hrings.
  { transitivity (length (shape rings)); [unfold shape; by rewrite length_fmap|].
    rewrite Hshape. unfold shape. by rewrite length_fmap, length_ringsUpTo. }
  assert (NimiqodeHeader_calculateLength (NimiqodeHeader_calculateMaskCount rings) = hl)
    as Hhl by (by rewrite (calculateMaskCount_shape _ _ Hshape)).
  assert (length (writtenHeader CURRENT_VERSION P n) = hl) as Hwritten
    by (unfold writtenHeader; by rewrite length_resize).
  set (encoded := LDPC_encode (bits_of_bytes P) (Z.of_nat ecl)).
  assert (length encoded = capacity n - hl) as Hencoded
    by (unfold encoded; rewrite LDPC_encode_length; lia).
  assert (maskedPayload P n
          = maskRegion None (visited (ringsUpTo n) 0 (plannedMaskCount n)) 0
              (length encoded) encoded []) as Hmasked.
  { unfold maskedPayload. fold hl ecl encoded.
    by rewrite Hencoded, resize_all_alt. }
  eexists _, rings, data, _, (Uint8Array.mk (S (length (heap w ++ [D])))).
  split_and!.
  - by apply (constructFromPayload_run fuel payload factor w P n z).
  - done.
  - done.
  - cbn [heap].
    apply (constructFromScan_run rings data _ [] D [] (length P) ecl (CRC16_crc16 P)
             (maskedPayload P n).2 (bits_of_bytes P)).
    + split_and!; [|done|done]. cbn. rewrite app_nil_r. apply lookup_new_buffer.
    + rewrite Hhl. unfold D, encodedData. rewrite take_app_length' by done.
      rewrite <- Hversion. by apply Hheader.
    + rewrite Hhl, HD. done.
    + by rewrite length_maskedPayload_masks, Hrings.
    + rewrite Hhl, HD, length_maskedPayload_masks.
      rewrite (visited_shape _ _ _ _ Hshape).
      unfold D, encodedData. rewrite drop_app_length' by done.
      rewrite Hmasked, <- Hencoded.
      rewrite (maskRegion_unmask applyMask_length applyMask_involutive) by done.
      fold pl. unfold encoded. rewrite <- Hbits. apply LDPC_decode_encode.
    + fold pl. rewrite <- Hbits, resize_all. by rewrite bytes_of_bits_of_bytes.
  - done.
  - unfold Uint8Array.bytes, heap_buffer. cbn [heap Uint8Array.buffer].
    fold D. rewrite lookup_app_r by lia.
    replace (S (length (heap w ++ [D])) - length (heap w ++ [D])) with 1 by lia.
    cbn [lookup list_lookup from_option id].
    fold pl. rewrite <- Hbits, resize_all. apply bytes_of_bits_of_bytes.
Qed.
End RoundTrip.

Section DecodeFrame.
Context {C : Collaborators}.

(** Whatever decode does and however it ends, it leaves the buffers it
    found in the store as they were (it only adds buffers of its own) and
    keeps the ring set and the bit stream it was given. *)
Lemma constructFromScan_frame hexagonRings data w o w' :
  _constructFromScan hexagonRings data w = (o, w') →
  (∃ fresh, heap w' = heap w ++ fresh)
  ∧ _hexagonRings (this w') = Some hexagonRings
  ∧ _data (this w') = Some data.
Proof.
  rewrite (constructFromScan_header hexagonRings data w _ eq_refl).
  destruct (NimiqodeHeader_read _ _) as [[[[version pl] ecl] checksum] masks].
  set (hl := NimiqodeHeader_calculateLength _).
  set (t0 := set_data data (set_hexagonRings hexagonRings (this w))).
  destruct (bool_decide (version ≠ 0%Z)).
  { intros [= <- <-]. split_and!; [by exists []; rewrite app_nil_r|done..]. }
  destruct (bool_decide (hl + pl + ecl ≠ BitArray.length data)).
  { intros [= <- <-]. split_and!; [by exists []; rewrite app_nil_r|done..]. }
  (* the copy *)
  unfold bind at 1. unfold BitArrayM.copy at 1, bind at 1, bind at 1.
  cbn [getHeap alloc ret heap this].
  set (x := BitArray.read _ _).
  set (w1 := {| heap := heap w ++ [x]; this := t0 |}).
  set (ep := BitArray.mk (length (heap w)) 0 _).
  (* unmasking *)
  unfold bind at 1.
  destruct (_maskHexagonRings (inr masks) ep w1) as [o2 w2] eqn:Hmask.
  apply ensures_maskHexagonRings in Hmask.
  apply sameExcept_new_buffer in Hmask as [x' ->].
  destruct o2 as [masks'|e|];
    [|intros [= <- <-]; split_and!; [by eexists|done..]..].
  unfold bind at 1. cbn [BitArrayM.toArray bind getHeap ret heap].
  destruct (LDPC_decode _ _ _) as [payloadBits|];
    [|intros [= <- <-]; split_and!; [by eexists|done..]].
  (* the payload *)
  unfold bind at 1. unfold Uint8ArrayM.new at 1, bind at 1.
  cbn [alloc ret heap this].
  unfold bind at 1. cbn [modifyThis heap this].
  unfold bind at 1. unfold BitArrayM.ofUint8Array at 1, bind at 1.
  cbn [getHeap ret heap this Uint8Array.buffer].
  set (h2 := heap w ++ [x']).
  set (pba := BitArray.mk (length h2) 0 _).
  unfold bind at 1.
  destruct (forLoop pl _ _) as [o3 w3] eqn:Hloop.
  apply (ensures_forLoopFrom _ (sameExcept (length h2))) in Hloop;
    [|intros j; apply (ensures_setValue pba)].
  apply sameExcept_new_buffer in Hloop as [y ->].
  destruct o3 as [[]|e|];
    [|intros [= <- <-]; split_and!;
      [eexists; unfold h2; by rewrite <- app_assoc|done..]..].
  unfold bind at 1. cbn [Uint8ArrayM.bytes bind getHeap ret heap].
  destruct (bool_decide _); intros [= <- <-];
    (split_and!; [eexists; unfold h2; by rewrite <- app_assoc|done..]).
Qed.
End DecodeFrame.

(** ** The theorems on sizing, ring count and the decode-side copy *)

Section EngineTheorems.
Context {C : Collaborators}.

(** C2 (capacity exactness and excess absorption).  After a successful
    encode of the payload bytes [P], with [n] the number of rings the sizing
    loop stopped at: the bit capacities of the produced rings sum to
    exactly the length of the bit stream, which the store holds in full,
    and the error-correction length, which encode computes as
    [dataLength - headerLength - payloadBits], makes up the sum with header
    and payload.  When the factor is a number (not NaN; the bit count of
    the payload being one a JavaScript number holds exactly), the
    preliminary estimate [Math.ceil(payloadBits * factor)] is an integer:
    the least one that is not below the binary64 product.  The final
    error-correction length is at least this estimate, it is the one handed
    to the codec and written to the header, and header and masked
    payload+parity fill the bit stream with nothing left over. *)
Theorem capacity_exactness fuel payload factor version w w1 P :
  holdsBytes (heap w) payload P →
  _constructFromPayload fuel payload factor version w = (Return (), w1) →
  ∃ n hexagonRings data stream,
    _hexagonRings (this w1) = Some hexagonRings
    ∧ _data (this w1) = Some data
    ∧ shape hexagonRings = shape (ringsUpTo n)
    ∧ heap w1 !! BitArray.buffer data = Some stream
    ∧ let headerLength := plannedHeaderLength n in
      let payloadBits := 8 * length P in
      let errorCorrectionLength : Z :=
        (Z.of_nat (BitArray.length data) - Z.of_nat headerLength
         - Z.of_nat payloadBits)%Z in
      let product := Float64.mul (Float64.of_nat payloadBits) factor in
      length stream = sum_list (shape hexagonRings)
      ∧ BitArray.length data = sum_list (shape hexagonRings)
      ∧ (Z.of_nat (sum_list (shape hexagonRings))
         = Z.of_nat headerLength + Z.of_nat payloadBits + errorCorrectionLength)%Z
      ∧ (factor ≠ Float64.nan → (Z.of_nat payloadBits < 2 ^ 53)%Z →
         ∃ estimate,
           ceilMul payloadBits factor = Int estimate
           ∧ (Float64.value product <= inject_Z estimate)%Q
           ∧ (inject_Z (estimate - 1) < Float64.value product)%Q
           ∧ (0 ≤ estimate ≤ errorCorrectionLength)%Z
           ∧ errorCorrectionLength = Z.of_nat (finalErrorCorrectionLength P n)
           ∧ stream = encodedData version P n
           ∧ length (writtenHeader version P n) = headerLength
           ∧ length (maskedPayload P n).1
             = payloadBits + Z.to_nat errorCorrectionLength).
Proof.
  intros Hpayload Hrun.
  apply (constructFromPayload_inv _ _ _ _ _ _ P Hpayload) in Hrun
    as (n & stream & -> & HP & Hsize & Hf0 & Hf1 & Hstop & Hfuel & Hmc & Hlen
        & -> & Hplanned).
  exists n, (assignHexagonRingData (ringsUpTo n)
               (BitArray.mk (length (heap w)) 0 (capacity n))),
    (BitArray.mk (length (heap w)) 0 (capacity n)), stream.
  cbn [this heap encodedInstance _hexagonRings _data BitArray.buffer BitArray.length].
  rewrite shape_assignHexagonRingData. fold (capacity n).
  split_and!; [done|done|done|apply lookup_new_buffer|done|done|lia|].
  intros Hnan Hexact.
  assert (0 < 8 * length P) as Hbits0
    by (destruct P; [by destruct HP|cbn [length]; lia]).
  assert (Float64.leb Float64.zero factor = true) as Hf.
  { destruct (Float64_not_ltb_zero factor Hf0)
      as [->|[[s ->]|[(m & e & ->)| ->]]]; done. }
  destruct (ceilMul_number (8 * length P) factor) as [(z & Hz & Hz0)|Hinf];
    [done|done|done| |]; cycle 1.
  { apply sizingStopsAt_spec in Hstop as (_ & Hstop & _).
    by rewrite Hinf in Hstop. }
  destruct (Hplanned z Hz) as (_ & Hroom & ->).
  exists z. destruct (Math_ceil_spec _ _ Hz) as [Hle Hlt].
  unfold finalErrorCorrectionLength.
  split_and!; [done|done|done|lia|lia|lia|done| |].
  - unfold writtenHeader. by rewrite length_resize.
  - unfold maskedPayload. rewrite maskRegion_length; rewrite length_resize; lia.
Qed.

(** C4 (ring minimum), as the code has it.  An instance constructed by
    encoding has at least two rings, and so has any ring set the sizing loop
    returns with.  An instance constructed by decoding holds the scanned
    ring set it was given, unchanged: decode does not look at its length. *)
Theorem ring_minimum fuel payload factor version w w1 P :
  holdsBytes (heap w) payload P →
  _constructFromPayload fuel payload factor version w = (Return (), w1) →
  (∃ hexagonRings,
     _hexagonRings (this w1) = Some hexagonRings ∧ 2 ≤ length hexagonRings)
  ∧ (∀ fuel' payloadLength errorCorrectionLength w0 totalBits w0',
       _hexagonRings (this w0) = Some [] →
       _createHexagonRings fuel' payloadLength errorCorrectionLength w0
       = (Return totalBits, w0') →
       ∃ hexagonRings,
         _hexagonRings (this w0') = Some hexagonRings ∧ 2 ≤ length hexagonRings)
  ∧ (∀ scanned data w0,
       _hexagonRings (this (_constructFromScan scanned data w0).2) = Some scanned).
Proof.
  intros Hpayload Hrun. split_and!.
  - apply (constructFromPayload_inv _ _ _ _ _ _ P Hpayload) in Hrun
      as (n & stream & _ & _ & _ & _ & _ & Hstop & _ & _ & _ & -> & _).
    eexists. split; [done|].
    transitivity (length (shape (assignHexagonRingData (ringsUpTo n)
                    (BitArray.mk (length (heap w)) 0 (capacity n)))));
      [|unfold shape; by rewrite length_fmap].
    rewrite shape_assignHexagonRingData. unfold shape.
    rewrite length_fmap, length_ringsUpTo. by eapply sizingStopsAt_two.
  - intros fuel' pl ec w0 total w0' Hrings Hloop.
    apply (createHexagonRingsLoop_inv pl ec fuel' 0) in Hloop
      as (n & _ & _ & Hstop & _ & _ & ->); [|done].
    exists (ringsUpTo n). split; [done|].
    rewrite length_ringsUpTo. unfold sizingContinues in Hstop.
    apply orb_false_iff in Hstop as [_ Hn]. apply bool_decide_eq_false in Hn. lia.
  - intros scanned data w0.
    destruct (_constructFromScan scanned data w0) as [o w'] eqn:Hscan.
    by apply constructFromScan_frame in Hscan as (_ & ? & _).
Qed.

(** C9 (decode-side snapshot).  Decode, however it ends, finds every buffer
    that was in the store before it bit for bit as it was: the store it
    leaves is the old one with new buffers (the copy it unmasks, the payload)
    appended, so every view into an old buffer, the caller's bit stream and
    the rings' data among them, reads the same bits as before. *)
Theorem decode_unmasks_a_copy hexagonRings data w :
  let w' := (_constructFromScan hexagonRings data w).2 in
  heap w `prefix_of` heap w'
  ∧ (∀ a, BitArray.buffer a < length (heap w) →
       BitArray.read (heap w') a = BitArray.read (heap w) a)
  ∧ _hexagonRings (this w') = Some hexagonRings
  ∧ _data (this w') = Some data.
Proof.
  intros w'. subst w'.
  destruct (_constructFromScan hexagonRings data w) as [o w'] eqn:Hscan.
  apply constructFromScan_frame in Hscan as ([fresh Hheap] & ? & ?).
  cbn [snd]. split_and!; [by exists fresh| |done|done].
  intros a Ha. unfold BitArray.read, heap_buffer.
  by rewrite Hheap, lookup_app_l.
Qed.
End EngineTheorems.

(** ** The masking pass of the engine *)

Section Masking.
Context {C : Collaborators}.

Lemma visited_lookup rings count k ring :
  k < count → rings !! (length rings - 1 - k) = Some ring → k < length rings →
  visited rings 0 count !! k = Some (bitCount ring).
Proof.
  intros Hk Hring Hlen. unfold visited, shape.
  rewrite lookup_take_lt, drop_0 by done.
  rewrite reverse_lookup by (by rewrite length_fmap).
  rewrite length_fmap, list_lookup_fmap.
  replace (length rings - S k) with (length rings - 1 - k) by lia.
  by rewrite Hring.
Qed.

Lemma sum_list_take_S (caps : list nat) k cap :
  caps !! k = Some cap →
  sum_list (take (S k) caps) = sum_list (take k caps) + cap.
Proof.
  intros Hk. rewrite (take_S_r _ _ _ Hk), sum_list_with_app. cbn. unfold id. lia.
Qed.

(** The pass, sub-range by sub-range.  Iteration [k] visits the ring [k]
    places from the end of the ring set; its sub-range ends where the rings
    visited before it take up their capacities from the end of [R], and
    starts one capacity lower, or at 0. *)
Lemma maskHexagonRings_windows maskCountOrMasks dataToMask w rings pre R post :
  let givenMasks :=
    match maskCountOrMasks with inr given => Some given | inl _ => None end in
  let maskCount :=
    match maskCountOrMasks with inr given => length given | inl n => n end in
  let caps := visited rings 0 maskCount in
  let r := maskRegion givenMasks caps 0 (length R) R [] in
  _hexagonRings (this w) = Some rings →
  focused (heap w) dataToMask pre R post →
  maskCount ≤ length rings →
  _maskHexagonRings maskCountOrMasks dataToMask w
  = (Return r.2,
     {| heap := <[BitArray.buffer dataToMask := pre ++ r.1 ++ post]> (heap w);
        this := this w |})
  ∧ length r.1 = length R
  ∧ length r.2 = maskCount
  ∧ length caps = maskCount
  ∧ ∀ k ring,
      k < maskCount → rings !! (length rings - 1 - k) = Some ring →
      let hi := length R - sum_list (take k caps) in
      let lo := hi - bitCount ring in
      let bits := take (hi - lo) (drop lo R) in
      let mask := chooseMask givenMasks k bits in
      sum_list (take (S k) caps) = sum_list (take k caps) + bitCount ring
      ∧ r.2 !! (maskCount - 1 - k) = Some mask
      ∧ take (hi - lo) (drop lo r.1)
        = resize (hi - lo) false (Masking_applyMask mask bits).
Proof.
  intros givenMasks maskCount caps r Hrings Hfoc Hcount.
  assert (length caps = maskCount) as Hcaps.
  { unfold caps, visited, shape.
    rewrite length_take, drop_0, length_reverse, length_fmap. lia. }
  split_and!.
  - unfold _maskHexagonRings. fold givenMasks maskCount.
    destruct Hfoc as (? & ? & HR). rewrite <- HR.
    apply maskLoop_run; [done|done|done|lia|].
    intros g Hg. unfold givenMasks in Hg. unfold maskCount.
    destruct maskCountOrMasks; [done|]. injection Hg as ->. lia.
  - by apply maskRegion_length.
  - unfold r. rewrite maskRegion_masks_length. cbn. lia.
  - done.
  - intros k ring Hk Hring hi lo bits mask.
    assert (caps !! k = Some (bitCount ring)) as Hcap
      by (apply visited_lookup; [done|done|lia]).
    destruct (maskRegion_window givenMasks caps 0 (length R) R [] k (bitCount ring))
      as [Hbits Hmask]; [done|done|].
    rewrite Hcaps in Hmask. cbn zeta in Hbits, Hmask.
    split_and!; [by apply sum_list_take_S|done|done].
Qed.
End Masking.

Section MaskingTheorems.
Context {C : Collaborators}.

(** C8 (masking window and order), as the code has it.  [_maskHexagonRings]
    visits the last [maskCount] rings from the outermost inward: iteration
    [k] handles the ring [k] places from the end, on the sub-range of
    [dataToMask] that ends where the rings visited before it begin
    ([windowEnd k]) and begins [windowEnd (S k)], one ring capacity lower
    (or at 0).  It replaces the bits of that sub-range by the masked bits,
    the mask being the best one for the bits (a mask count was passed) or
    the given one (masks were passed).  The list of masks, returned or
    consumed, holds the mask of iteration [k] at position
    [maskCount - 1 - k]: innermost masked ring first.  The bits below
    [windowEnd maskCount] are not touched.  The trailing window so masked
    has the length of the masked rings' capacities when these fit into
    [dataToMask], and is all of [dataToMask] otherwise. *)
Theorem masking_window_and_order maskCountOrMasks dataToMask w rings pre R post :
  let maskCount :=
    match maskCountOrMasks with inr given => length given | inl n => n end in
  let caps := visited rings 0 maskCount in
  let windowEnd k := length R - sum_list (take k caps) in
  _hexagonRings (this w) = Some rings →
  focused (heap w) dataToMask pre R post →
  maskCount ≤ length rings →
  ∃ masks R',
    _maskHexagonRings maskCountOrMasks dataToMask w
    = (Return masks,
       {| heap := <[BitArray.buffer dataToMask := pre ++ R' ++ post]> (heap w);
          this := this w |})
    ∧ length R' = length R
    ∧ length masks = maskCount
    ∧ (∀ given, maskCountOrMasks = inr given → masks = given)
    ∧ (∀ k ring,
         k < maskCount → rings !! (length rings - 1 - k) = Some ring →
         let hi := windowEnd k in
         let lo := windowEnd (S k) in
         let bits := take (hi - lo) (drop lo R) in
         lo = hi - bitCount ring
         ∧ ∃ mask,
             masks !! (maskCount - 1 - k) = Some mask
             ∧ match maskCountOrMasks with
               | inl _ => mask = Masking_findBestMask bits
               | inr given => given !! (maskCount - 1 - k) = Some mask
               end
             ∧ take (hi - lo) (drop lo R')
               = resize (hi - lo) false (Masking_applyMask mask bits))
    ∧ windowEnd 0 = length R
    ∧ take (windowEnd maskCount) R' = take (windowEnd maskCount) R
    ∧ length R - windowEnd maskCount = length R `min` sum_list caps.
Proof.
  intros maskCount caps windowEnd Hrings Hfoc Hcount.
  destruct (maskHexagonRings_windows maskCountOrMasks dataToMask w rings pre R post
              Hrings Hfoc Hcount) as (Hrun & HR' & Hmasks & Hcaps & Hwin).
  fold maskCount caps in Hrun, HR', Hmasks, Hcaps, Hwin.
  set (givenMasks :=
         match maskCountOrMasks with inr given => Some given | inl _ => None end) in *.
  set (r := maskRegion givenMasks caps 0 (length R) R []) in *.
  exists r.2, r.1. split_and!; [done|done|done| | | | |].
  - intros given ->. unfold r, givenMasks.
    rewrite maskRegion_given; [|cbn; lia|by rewrite Nat.sub_0_r, drop_all].
    rewrite Hcaps. unfold maskCount. rewrite Nat.sub_0_r, Nat.sub_diag. done.
  - intros k ring Hk Hring hi lo bits.
    destruct (Hwin k ring Hk Hring) as (Hsum & Hmask & Hbits).
    assert (lo = hi - bitCount ring) as Hlo
      by (unfold lo, hi, windowEnd; rewrite Hsum; lia).
    split; [done|]. subst bits. rewrite Hlo.
    eexists. split_and!; [exact Hmask| |exact Hbits].
    unfold givenMasks, maskCount in *. destruct maskCountOrMasks as [n|given]; [done|].
    cbn [chooseMask].
    replace (length given - k - 1) with (length given - 1 - k) by lia.
    destruct (given !! (length given - 1 - k)) eqn:Hg; [done|].
    apply lookup_ge_None in Hg. lia.
  - unfold windowEnd. rewrite take_0. change (sum_list []) with 0. lia.
  - unfold windowEnd. rewrite (take_ge caps) by lia. by apply maskRegion_prefix.
  - unfold windowEnd. rewrite (take_ge caps) by lia. lia.
Qed.

(** C10 (implicit mask-window clipping).  The start of each masked ring's
    sub-range is [Math.max(0, hexRingEnd - bitCount)], so every sub-range
    lies within [dataToMask], with as many bits as the ring has or as are
    left, whichever is fewer.  Once the capacities of the rings visited so
    far exceed the length of [dataToMask], the sub-range starts at 0 and is
    cut short; when nothing is left it is empty.  Whatever its sub-range,
    every one of the [maskCount] rings gets a mask chosen for its bits (or
    taken from the given masks), applied to them and recorded in the list
    returned. *)
Theorem mask_window_clipping maskCountOrMasks dataToMask w rings pre R post :
  let maskCount :=
    match maskCountOrMasks with inr given => length given | inl n => n end in
  let caps := visited rings 0 maskCount in
  let hexRingEnd k := length R - sum_list (take k caps) in
  _hexagonRings (this w) = Some rings →
  focused (heap w) dataToMask pre R post →
  maskCount ≤ length rings →
  ∃ masks R',
    _maskHexagonRings maskCountOrMasks dataToMask w
    = (Return masks,
       {| heap := <[BitArray.buffer dataToMask := pre ++ R' ++ post]> (heap w);
          this := this w |})
    ∧ length masks = maskCount
    ∧ ∀ k ring,
        k < maskCount → rings !! (length rings - 1 - k) = Some ring →
        let hi := hexRingEnd k in
        let lo := Z.to_nat (0 `max` (Z.of_nat hi - Z.of_nat (bitCount ring))) in
        let bits := take (hi - lo) (drop lo R) in
        lo ≤ hi ∧ hi ≤ length R
        ∧ hi - lo = bitCount ring `min` hi
        ∧ hexRingEnd (S k) = lo
        ∧ (length R < sum_list (take (S k) caps) → lo = 0)
        ∧ (length R ≤ sum_list (take k caps) → hi = 0 ∧ bits = [])
        ∧ ∃ mask,
            masks !! (maskCount - 1 - k) = Some mask
            ∧ match maskCountOrMasks with
              | inl _ => mask = Masking_findBestMask bits
              | inr given => given !! (maskCount - 1 - k) = Some mask
              end
            ∧ take (hi - lo) (drop lo R')
              = resize (hi - lo) false (Masking_applyMask mask bits).
Proof.
  intros maskCount caps hexRingEnd Hrings Hfoc Hcount.
  destruct (maskHexagonRings_windows maskCountOrMasks dataToMask w rings pre R post
              Hrings Hfoc Hcount) as (Hrun & HR' & Hmasks & Hcaps & Hwin).
  fold maskCount caps in Hrun, HR', Hmasks, Hcaps, Hwin.
  set (givenMasks :=
         match maskCountOrMasks with inr given => Some given | inl _ => None end) in *.
  set (r := maskRegion givenMasks caps 0 (length R) R []) in *.
  exists r.2, r.1. split_and!; [done|done|].
  intros k ring Hk Hring hi lo bits.
  destruct (Hwin k ring Hk Hring) as (Hsum & Hmask & Hbits).
  assert (lo = hi - bitCount ring) as Hlo by (unfold lo; lia).
  split_and!.
  - lia.
  - unfold hi, hexRingEnd. lia.
  - lia.
  - unfold hexRingEnd. rewrite Hsum. unfold hi, hexRingEnd in Hlo. lia.
  - intros Hclip. rewrite Hsum in Hclip. unfold hi, hexRingEnd in Hlo. lia.
  - intros Hempty. assert (hi = 0) as Hhi by (unfold hi, hexRingEnd; lia).
    split; [done|]. unfold bits. by rewrite Hhi.
  - subst bits. rewrite Hlo.
    eexists. split_and!; [exact Hmask| |exact Hbits].
    unfold givenMasks, maskCount in *. destruct maskCountOrMasks as [n|given]; [done|].
    cbn [chooseMask].
    replace (length given - k - 1) with (length given - 1 - k) by lia.
    destruct (given !! (length given - 1 - k)) eqn:Hg; [done|].
    apply lookup_ge_None in Hg. lia.
Qed.
End MaskingTheorems.

(** ** The toy collaborators keep the contracts *)

Lemma Toy_contracts capacity headerBase :
  Contracts (Toy.collaborators capacity headerBase).
Proof.
  split; cbn.
  - intros rings rings' Hshape. unfold Toy.maskCount.
    apply (f_equal length) in Hshape. unfold shape in Hshape.
    rewrite !length_fmap in Hshape. by rewrite Hshape.
  - intros rings. unfold Toy.maskCount. lia.
  - intros bits parity. unfold Toy.encode.
    by rewrite length_app, length_replicate, Nat2Z.id.
  - intros bits parity. unfold Toy.decode, Toy.encode.
    rewrite decide_True by (by rewrite length_app, length_replicate, Nat2Z.id).
    by rewrite take_app_length.
  - intros [|mask] bits; cbn; [done|]. by rewrite length_fmap.
  - intros [|mask] bits; cbn; [done|].
    rewrite <- list_fmap_compose. rewrite <- (list_fmap_id bits) at 2.
    apply list_fmap_ext. intros _ b _. by destruct b.
Qed.

Lemma Toy_headerReadsBack :
  @headerReadsBack Toy.wide Toy.ab 2.
Proof.
  intros rings Hshape.
  apply (f_equal length) in Hshape as Hlen. unfold shape in Hlen.
  rewrite !length_fmap in Hlen.
  destruct rings as [|r1 [|r2 [|r3 rings]]]; try done.
Qed.

(** ** The theorems at concrete inputs *)

(** The round trip of the two bytes "ab" through the wide toy format. *)
Lemma roundtrip_witness :
  ∃ w1 hexagonRings data w2 decoded,
    @_constructFromPayload Toy.wide 2 Toy.payload (Float64.ratio 1 2) 0
      (Toy.world Toy.ab)
    = (Return (), w1)
    ∧ _hexagonRings (this w1) = Some hexagonRings
    ∧ _data (this w1) = Some data
    ∧ @_constructFromScan Toy.wide hexagonRings data
        {| heap := heap w1; this := newInstance |} = (Return (), w2)
    ∧ _payload (this w2) = Some decoded
    ∧ Uint8Array.bytes (heap w2) decoded = Toy.ab.
Proof.
  apply (@roundtrip Toy.wide (Toy_contracts _ _) Toy.payload Toy.ab
           (Float64.ratio 1 2) 2 2 (Toy.world Toy.ab)).
  - reflexivity.
  - reflexivity.
  - discriminate.
  - vm_compute. lia.
  - vm_compute. reflexivity.
  - vm_compute. reflexivity.
  - vm_compute. reflexivity.
  - vm_compute. reflexivity.
  - lia.
  - apply Toy_headerReadsBack.
Defined.

(** Encoding five bytes where the length field admits four: no fuel makes
    encode return, so there is no ring set to decode. *)
Lemma roundtrip_oversized_payload :
  Toy.abcde ≠ []
  ∧ Float64.leb Float64.zero (Float64.ratio 1 2) = true
  ∧ Float64.leb (Float64.ratio 1 2) (@MAX_FACTOR_ERROR_CORRECTION_DATA Toy.wide) = true
  ∧ holdsBytes (heap (Toy.world Toy.abcde)) Toy.payload Toy.abcde
  ∧ ¬ ∃ fuel w1,
        @_constructFromPayload Toy.wide fuel Toy.payload (Float64.ratio 1 2) 0
          (Toy.world Toy.abcde) = (Return (), w1).
Proof.
  split_and!.
  - discriminate.
  - vm_compute. reflexivity.
  - vm_compute. reflexivity.
  - reflexivity.
  - intros (fuel & w1 & Hrun). vm_compute in Hrun. discriminate.
Qed.

(** C2 at the encoding of "ab" with the double nearest 3/10: two rings of
    32 and 40 bits, a header of 21 bits, 16 payload bits, and 35 parity
    bits where the preliminary estimate was 5: the binary64 product of 16
    and the factor lies strictly between 4 and 5. *)
Lemma capacity_exactness_witness :
  ∃ w1 hexagonRings data,
    @_constructFromPayload Toy.wide 2 Toy.payload (Float64.ratio 3 10) 0
      (Toy.world Toy.ab)
    = (Return (), w1)
    ∧ _hexagonRings (this w1) = Some hexagonRings
    ∧ _data (this w1) = Some data
    ∧ sum_list (shape hexagonRings) = 21 + 16 + 35
    ∧ BitArray.length data = 72
    ∧ ceilMul 16 (Float64.ratio 3 10) = Int 5
    ∧ (4 < Float64.value (Float64.mul (Float64.of_nat 16) (Float64.ratio 3 10)))%Q
    ∧ (Float64.value (Float64.mul (Float64.of_nat 16) (Float64.ratio 3 10)) <= 5)%Q
    ∧ (0 ≤ 5
       ≤ Z.of_nat (BitArray.length data) - Z.of_nat (@plannedHeaderLength Toy.wide 2)
         - 16)%Z.
Proof.
  eexists.
  destruct (@capacity_exactness Toy.wide 2 Toy.payload (Float64.ratio 3 10) 0
              (Toy.world Toy.ab)
              (@_constructFromPayload Toy.wide 2 Toy.payload (Float64.ratio 3 10) 0
                 (Toy.world Toy.ab)).2 Toy.ab)
    as (n & hexagonRings & data & stream & Hrings & Hdata & Hshape & Hheap & Hlen
        & Hsum & Htotal & Hestimate);
    [reflexivity|vm_compute; reflexivity|].
  destruct Hestimate as (estimate & Hceil & Hle & Hlt & Hfinal & _);
    [vm_compute; discriminate|vm_compute; reflexivity|].
  assert (n = 2) as ->.
  { vm_compute in Hrings. injection Hrings as <-.
    apply (f_equal length) in Hshape. unfold shape in Hshape.
    rewrite !length_fmap, length_ringsUpTo in Hshape. symmetry. exact Hshape. }
  vm_compute in Hceil. injection Hceil as <-.
  exists hexagonRings, data. split_and!.
  - vm_compute. reflexivity.
  - exact Hrings.
  - exact Hdata.
  - vm_compute in Hrings. injection Hrings as <-. reflexivity.
  - vm_compute in Hdata. injection Hdata as <-. reflexivity.
  - vm_compute. reflexivity.
  - exact Hlt.
  - exact Hle.
  - exact (proj1 Hfinal).
  - exact (proj2 Hfinal).
Defined.

(** C3 at five bytes in the toy format, whose length field admits four. *)
Lemma payload_size_gate_witness :
  @_constructFromPayload Toy.wide 0 Toy.payload (Float64.ratio 1 2) 0 (Toy.world Toy.abcde)
  = (Throw (DataTooLong 4), Toy.world Toy.abcde).
Proof.
  destruct (@payload_size_gate Toy.wide 0 Toy.payload (Float64.ratio 1 2) 0 (Toy.world Toy.abcde))
    as [Hlarge _].
  - reflexivity.
  - vm_compute. reflexivity.
  - vm_compute. reflexivity.
  - apply Hlarge. vm_compute. lia.
Defined.

(** C5 at the empty payload. *)
Lemma invalid_arguments_rejected_witness :
  ∃ e, @_constructFromPayload Toy.wide 5 Toy.payload (Float64.ratio 1 2) 0 (Toy.world [])
       = (Throw e, Toy.world [])
       ∧ errorKind e = KInvalidArgument
       ∧ e = InvalidArgument.
Proof.
  destruct (@invalid_arguments_rejected Toy.wide 5 Toy.payload (Float64.ratio 1 2) 0 (Toy.world []))
    as (e & Hrun & Hkind & Hempty).
  - left. reflexivity.
  - exists e. split_and!; [exact Hrun|exact Hkind|]. apply Hempty. reflexivity.
Defined.

(** A factor outside the range that encode does not reject: NaN is not in
    [0, MAX_FACTOR_ERROR_CORRECTION_DATA], and encoding "abc" with it
    returns, with two rings created and the bit stream allocated. *)
Lemma nan_factor_is_encoded :
  Float64.leb Float64.zero Float64.nan = false
  ∧ Float64.leb Float64.nan (@MAX_FACTOR_ERROR_CORRECTION_DATA Toy.wide) = false
  ∧ ∃ w1 hexagonRings,
      @_constructFromPayload Toy.wide 2 Toy.payload Float64.nan 0
        (Toy.world Toy.abc) = (Return (), w1)
      ∧ _hexagonRings (this w1) = Some hexagonRings
      ∧ length hexagonRings = 2
      ∧ length (heap w1) = S (length (heap (Toy.world Toy.abc))).
Proof.
  split_and!; [reflexivity|reflexivity|].
  eexists _, _. split_and!; [vm_compute; reflexivity|reflexivity..].
Qed.

(** The preliminary estimate at factors that binary64 holds only rounded:
    with the double nearest 1.1, 40 bits give 44 and 200 bits give 221;
    with the double nearest 5/12, 24 bits give 10; and a factor that is NaN
    gives NaN. *)
Lemma ceilMul_examples :
  ceilMul 40 (Float64.ratio 11 10) = Int 44
  ∧ ceilMul 200 (Float64.ratio 11 10) = Int 221
  ∧ ceilMul 24 (Float64.ratio 5 12) = Int 10
  ∧ ceilMul 16 (Float64.ratio 3 10) = Int 5
  ∧ ceilMul 16 Float64.nan = NotANumber.
Proof.
  split_and!; vm_compute; reflexivity.
Qed.

(** C6 at a scan whose header says version 1. *)
Lemma version_gate_witness :
  ∃ w', @_constructFromScan Toy.wide [Toy.singleRing] Toy.singleRingData
          Toy.versionOneWorld = (Throw UnsupportedVersion, w')
        ∧ heap w' = heap Toy.versionOneWorld.
Proof.
  apply (@version_gate Toy.wide [Toy.singleRing] Toy.singleRingData Toy.versionOneWorld
           1%Z 8 4 0 []).
  - reflexivity.
  - discriminate.
Defined.

(** C7 at a scan whose header declares 20 + 8 + 4 bits, read as 30 bits. *)
Lemma length_mismatch_detected_witness :
  ∃ w', @_constructFromScan Toy.wide [Toy.singleRing] Toy.shortData
          Toy.singleRingWorld = (Throw WrongDataLength, w')
        ∧ heap w' = heap Toy.singleRingWorld.
Proof.
  apply (@length_mismatch_detected Toy.wide [Toy.singleRing] Toy.shortData
           Toy.singleRingWorld 8 4 0 []).
  - reflexivity.
  - vm_compute. lia.
Defined.

(** C4 at the encoding of "ab": two rings. *)
Lemma ring_minimum_witness :
  ∃ w1 hexagonRings,
    @_constructFromPayload Toy.wide 2 Toy.payload (Float64.ratio 1 2) 0 (Toy.world Toy.ab)
    = (Return (), w1)
    ∧ _hexagonRings (this w1) = Some hexagonRings
    ∧ 2 ≤ length hexagonRings.
Proof.
  eexists.
  destruct (@ring_minimum Toy.wide 2 Toy.payload (Float64.ratio 1 2) 0 (Toy.world Toy.ab)
              (@_constructFromPayload Toy.wide 2 Toy.payload (Float64.ratio 1 2) 0
                 (Toy.world Toy.ab)).2 Toy.ab)
    as ((hexagonRings & Hrings & Hlen) & _);
    [reflexivity|vm_compute; reflexivity|].
  exists hexagonRings. split_and!.
  - vm_compute. reflexivity.
  - exact Hrings.
  - exact Hlen.
Defined.

(** Decoding a scan of a single ring succeeds, and the instance has that one
    ring. *)
Lemma single_ring_decodes :
  ∃ w', @_constructFromScan Toy.wide [Toy.singleRing] Toy.singleRingData
          Toy.singleRingWorld = (Return (), w')
        ∧ _hexagonRings (this w') = Some [Toy.singleRing]
        ∧ length [Toy.singleRing] < 2.
Proof.
  eexists. split_and!.
  - vm_compute. reflexivity.
  - reflexivity.
  - cbn. lia.
Qed.

(** C8 at three 16-bit rings, two of them masked, on 26 bits. *)
Lemma masking_window_and_order_witness :
  ∃ masks R',
    @_maskHexagonRings Toy.narrow (inl 2) Toy.region Toy.regionWorld
    = (Return masks,
       {| heap := [replicate 22 false ++ R' ++ []]; this := this Toy.regionWorld |})
    ∧ length R' = 26 ∧ length masks = 2
    ∧ take 0 R' = take 0 Toy.regionBits
    ∧ 26 - 0 = 26 `min` 32.
Proof.
  destruct (@masking_window_and_order Toy.narrow (inl 2) Toy.region Toy.regionWorld
              Toy.threeRings (replicate 22 false) Toy.regionBits [])
    as (masks & R' & Hrun & HR' & Hmasks & _ & _ & _ & Hprefix & Hwindow).
  - reflexivity.
  - split_and!; reflexivity.
  - cbn. lia.
  - exists masks, R'. split_and!; [exact Hrun|exact HR'|exact Hmasks|done|done].
Defined.

(** The masked window cannot have the length of the masked rings'
    capacities: two rings of 16 bits are masked on a region of 26 bits. *)
Lemma masking_window_shorter_than_rings :
  (∃ masks w',
     @_maskHexagonRings Toy.narrow
       (inl (@NimiqodeHeader_calculateMaskCount Toy.narrow Toy.threeRings))
       Toy.region Toy.regionWorld = (Return masks, w')
     ∧ length masks = 2)
  ∧ sum_list (visited Toy.threeRings 0 2) = 32
  ∧ BitArray.length Toy.region = 26
  ∧ ¬ ∃ s e, s ≤ e ∧ e ≤ BitArray.length Toy.region
             ∧ e - s = sum_list (visited Toy.threeRings 0 2).
Proof.
  split_and!.
  - eexists _, _. split; [vm_compute; reflexivity|reflexivity].
  - reflexivity.
  - reflexivity.
  - intros (s & e & Hs & He & Hlen).
    change (sum_list (visited Toy.threeRings 0 2)) with 32 in Hlen.
    change (BitArray.length Toy.region) with 26 in He. lia.
Qed.

(** C10 at the same input: the outermost ring gets the last 16 bits, the next
    one the 10 bits that are left, from bit 0. *)
Lemma mask_window_clipping_witness :
  ∃ masks R',
    @_maskHexagonRings Toy.narrow (inl 2) Toy.region Toy.regionWorld
    = (Return masks,
       {| heap := [replicate 22 false ++ R' ++ []]; this := this Toy.regionWorld |})
    ∧ length masks = 2
    ∧ ∃ mask,
        masks !! 0 = Some mask
        ∧ mask = Toy.findBestMask (take 10 Toy.regionBits)
        ∧ take 10 R' = Toy.applyMask mask (take 10 Toy.regionBits).
Proof.
  destruct (@mask_window_clipping Toy.narrow (inl 2) Toy.region Toy.regionWorld
              Toy.threeRings (replicate 22 false) Toy.regionBits [])
    as (masks & R' & Hrun & Hmasks & Hwin).
  - reflexivity.
  - split_and!; reflexivity.
  - cbn. lia.
  - exists masks, R'. split_and!; [exact Hrun|exact Hmasks|].
    destruct (Hwin 1 {| bitCount := 16; data := None |})
      as (_ & _ & _ & _ & _ & _ & mask & Hmask & Hbest & Happlied);
      [lia|reflexivity|].
    exists mask. split_and!; [exact Hmask|exact Hbest|].
    rewrite Hbest in *. exact Happlied.
Defined.
(** * Further properties of the engine *)

(** ** Assigning the rings their data *)

Lemma assignLoop_lookup rings data : ∀ handledBits k,
  assignLoop rings data handledBits !! k
  = (λ ring,
       let from := handledBits + sum_list (take k (shape rings)) in
       {| bitCount := bitCount ring;
          data := Some (BitArray.slice data from (from + bitCount ring)) |})
    <$> rings !! k.
Proof.
  induction rings as [|ring rings IH]; intros handledBits k; [done|].
  destruct k as [|k]; cbn [assignLoop lookup list_lookup].
  - cbn. by rewrite Nat.add_0_r.
  - rewrite IH. destruct (rings !! k) as [r|]; [|done].
    cbn [fmap option_fmap option_map].
    change (sum_list (take (S k) (shape (ring :: rings))))
      with (bitCount ring + sum_list (take k (shape rings))).
    cbn zeta. by rewrite !Nat.add_assoc.
Qed.

(** X1 (ring views).  [assignHexagonRingData] gives the ring at position [k]
    the view of [data] that begins where the capacities of the rings before
    it end and has the ring's [bitCount] bits; it keeps the [bitCount] and
    the number of rings. *)
Theorem assignHexagonRingData_views rings data k :
  assignHexagonRingData rings data !! k
  = (λ ring,
       let handledBits := sum_list (take k (shape rings)) in
       {| bitCount := bitCount ring;
          data := Some (BitArray.slice data handledBits
                          (handledBits + bitCount ring)) |})
    <$> rings !! k.
Proof. unfold assignHexagonRingData. by rewrite assignLoop_lookup. Qed.

Lemma assignLoop_bits h rings data : ∀ handledBits,
  assignLoop rings data handledBits ≫= ringBits h
  = resize (sum_list (shape rings)) false
      (drop (BitArray.start data + handledBits)
         (heap_buffer h (BitArray.buffer data))).
Proof.
  induction rings as [|ring rings IH]; intros handledBits.
  { change (sum_list (shape [])) with 0. by rewrite resize_0. }
  cbn [assignLoop]. rewrite bind_cons, IH.
  change (sum_list (shape (ring :: rings)))
    with (bitCount ring + sum_list (shape rings)).
  rewrite resize_add, drop_drop.
  unfold ringBits, BitArray.read. cbn.
  do 3 f_equal; lia.
Qed.

(** X2 (ring views tile the data).  The views that [assignHexagonRingData]
    hands out lie side by side: read one ring after the other, they give the
    first [sum of the bitCounts] bits of [data], each bit once. *)
Theorem assigned_rings_tile_the_data h rings data :
  assignHexagonRingData rings data ≫= ringBits h
  = BitArray.read h (BitArray.slice data 0 (sum_list (shape rings))).
Proof.
  unfold assignHexagonRingData. rewrite assignLoop_bits.
  unfold BitArray.read. cbn. by rewrite Nat.sub_0_r.
Qed.

Lemma assignLoop_assignLoop rings data1 data2 : ∀ h1 h2,
  assignLoop (assignLoop rings data1 h1) data2 h2 = assignLoop rings data2 h2.
Proof.
  induction rings as [|ring rings IH]; intros h1 h2; [done|].
  cbn [assignLoop bitCount]. by rewrite IH.
Qed.

(** X3 (assigning again).  Assigning data again replaces the views: only the
    [bitCount]s of the rings and the last [data] matter. *)
Theorem assignHexagonRingData_again rings data1 data2 :
  assignHexagonRingData (assignHexagonRingData rings data1) data2
  = assignHexagonRingData rings data2.
Proof. apply assignLoop_assignLoop. Qed.

(** ** What encode leaves in the store and in the instance *)

Section EncodeResult.
Context {C : Collaborators}.

(** X4 (encode keeps the payload).  A successful encode adds exactly one
    buffer to the store, the bit stream, and [this._data] spans it. The
    payload is kept by reference: [get payload()] returns the typed array
    the caller passed, and its bytes are the ones passed. *)
Theorem encode_keeps_the_payload fuel payload factor version w w1 P :
  holdsBytes (heap w) payload P →
  _constructFromPayload fuel payload factor version w = (Return (), w1) →
  ∃ stream,
    heap w1 = heap w ++ [stream]
    ∧ _data (this w1) = Some (BitArray.mk (length (heap w)) 0 (length stream))
    ∧ Get.payload w1 = (Return (Some payload), w1)
    ∧ Uint8Array.bytes (heap w1) payload = P.
Proof.
  intros Hpayload Hrun.
  apply (constructFromPayload_inv _ _ _ _ _ _ P Hpayload) in Hrun
    as (n & stream & -> & HP & Hsize & Hf0 & Hf1 & Hstop & Hfuel & Hmc & Hlen
        & -> & _).
  exists stream. cbn [heap this].
  split_and!; [done| |done|].
  - cbn. by rewrite Hlen.
  - unfold Uint8Array.bytes, heap_buffer.
    rewrite lookup_app_l by (by eapply lookup_lt_Some).
    rewrite Hpayload. apply bytes_of_bits_of_bytes.
Qed.

(** X5 (encoded rings tile the stream).  After a successful encode every
    ring has its data: a view into the buffer of the bit stream with the
    ring's [bitCount] bits. Read ring after ring, innermost first, the ring
    data is the bit stream, from its first bit to its last. *)
Theorem encoded_rings_tile_the_stream fuel payload factor version w w1 P :
  holdsBytes (heap w) payload P →
  _constructFromPayload fuel payload factor version w = (Return (), w1) →
  ∃ rings bitStream,
    Get.hexagonRings w1 = (Return (Some rings), w1)
    ∧ _data (this w1) = Some bitStream
    ∧ (∀ ring, ring ∈ rings →
         ∃ view, data ring = Some view
                 ∧ BitArray.buffer view = BitArray.buffer bitStream
                 ∧ BitArray.length view = bitCount ring)
    ∧ rings ≫= ringBits (heap w1) = BitArray.read (heap w1) bitStream
    ∧ length (BitArray.read (heap w1) bitStream) = sum_list (shape rings).
Proof.
  intros Hpayload Hrun.
  apply (constructFromPayload_inv _ _ _ _ _ _ P Hpayload) in Hrun
    as (n & stream & -> & HP & Hsize & Hf0 & Hf1 & Hstop & Hfuel & Hmc & Hlen
        & -> & _).
  set (bitStream := BitArray.mk (length (heap w)) 0 (capacity n)).
  exists (assignHexagonRingData (ringsUpTo n) bitStream), bitStream.
  cbn [heap this encodedInstance _data].
  split_and!; [done|done| | |].
  - intros ring (k & Hk)%list_elem_of_lookup.
    unfold assignHexagonRingData in Hk. rewrite assignLoop_lookup in Hk.
    destruct (ringsUpTo n !! k) as [r|]; [|done]. injection Hk as <-.
    eexists. split; [done|]. cbn. split; [done|lia].
  - unfold assignHexagonRingData. rewrite assignLoop_bits. fold (capacity n).
    unfold BitArray.read. by cbn.
  - unfold BitArray.read. rewrite length_resize, shape_assignHexagonRingData. done.
Qed.
End EncodeResult.

(** ** How many rings encode produces *)

Section RingCount.
Context {C : Collaborators}.

Lemma sizingStopsAt_unique pl ec n m :
  sizingStopsAt pl ec n = true → sizingStopsAt pl ec m = true → n = m.
Proof.
  intros (Hn & Hstopn & Hgon)%sizingStopsAt_spec
         (Hm & Hstopm & Hgom)%sizingStopsAt_spec.
  destruct (Nat.lt_trichotomy n m) as [Hlt|[->|Hlt]]; [|done|].
  - rewrite Hgom in Hstopn by lia. done.
  - rewrite Hgon in Hstopm by lia. done.
Qed.

Lemma sizing_within pl ec fuel :
  (∃ n, n ≤ fuel ∧ sizingStopsAt pl ec n = true)
  ∨ (∀ j, 0 < j ≤ fuel → sizingContinues pl ec j = true).
Proof.
  induction fuel as [|fuel [(n & Hn & Hstop)|Hgo]].
  - right. intros j Hj. lia.
  - left. exists n. split; [lia|done].
  - destruct (sizingContinues pl ec (S fuel)) eqn:Hlast.
    + right. intros j Hj. destruct (decide (j = S fuel)) as [->|]; [done|].
      apply Hgo. lia.
    + left. exists (S fuel). split; [done|]. apply sizingStopsAt_spec.
      split_and!; [lia|done|]. intros j Hj. apply Hgo. lia.
Qed.

Lemma createHexagonRingsLoop_exhaust pl ec : ∀ fuel k w,
  _hexagonRings (this w) = Some (ringsUpTo k) →
  (∀ j, k < j ≤ k + fuel → sizingContinues pl ec j = true) →
  ∃ w', createHexagonRingsLoop fuel pl ec (capacity k) k w = (OutOfFuel, w').
Proof.
  induction fuel as [|fuel IH]; intros k w Hrings Hgo; [by eexists|].
  rewrite createHexagonRingsLoop_step by done.
  rewrite Hgo by lia. apply IH; [done|]. intros j Hj. apply Hgo. lia.
Qed.

(** Encode up to the ring-sizing loop, for arguments that pass the
    checks. *)
Lemma constructFromPayload_sizing fuel payload factor w P :
  holdsBytes (heap w) payload P →
  P ≠ [] → length P ≤ 2 ^ HEADER_LENGTH_PAYLOAD_LENGTH →
  Float64.ltb factor Float64.zero = false →
  Float64.ltb MAX_FACTOR_ERROR_CORRECTION_DATA factor = false →
  ∃ rest,
    _constructFromPayload fuel payload factor CURRENT_VERSION w
    = bind (_createHexagonRings fuel (8 * length P) (ceilMul (8 * length P) factor))
        rest
        {| heap := heap w;
           this := set_hexagonRings [] (set_payload payload (this w)) |}.
Proof.
  intros Hpayload HP Hsize Hf0 Hf1.
  assert (heap_buffer (heap w) (Uint8Array.buffer payload) = bits_of_bytes P)
    as Hbuf by (unfold heap_buffer; by rewrite Hpayload).
  assert (Uint8Array.byteLength (heap w) payload = length P) as HbyteLength.
  { unfold Uint8Array.byteLength. rewrite Hbuf.
    rewrite length_bits_of_bytes, Nat.mul_comm. apply Nat.div_mul. lia. }
  eexists. unfold _constructFromPayload.
  rewrite (bind_run _ _ w (length P) w)
    by (unfold Uint8ArrayM.byteLength, bind, getHeap, ret; by rewrite HbyteLength).
  rewrite Hf0, Hf1.
  rewrite (bool_decide_eq_false_2 (CURRENT_VERSION ≠ CURRENT_VERSION)) by (by intros []).
  rewrite (bool_decide_eq_false_2 (length P = 0)) by (by destruct P).
  rewrite (bool_decide_eq_false_2 (_ > _)) by lia.
  cbn [orb].
  rewrite (bind_run _ _ w (BitArray.mk (Uint8Array.buffer payload) 0 (8 * length P)) w)
    by (unfold BitArrayM.ofUint8Array, bind, getHeap, ret;
        by rewrite Hbuf, length_bits_of_bytes).
  cbn [BitArray.length].
  erewrite bind_run by reflexivity. erewrite bind_run by reflexivity.
  reflexivity.
Qed.

(** X6 (encode throws nothing).  With arguments that pass the checks of
    encode (a factor that is NaN passes them too), and a header codec that
    asks for no more masks than there are rings, encode throws nothing. It
    returns when the loop of [_createHexagonRings] stops within [fuel]
    iterations; while the loop condition holds it goes on adding rings,
    however many that takes. The loop condition is the one of the code, on
    the binary64 estimate [Math.ceil(payloadLength * factor)]. *)
Theorem encode_returns_or_keeps_looping fuel payload factor w P :
  holdsBytes (heap w) payload P →
  P ≠ [] → length P ≤ 2 ^ HEADER_LENGTH_PAYLOAD_LENGTH →
  Float64.ltb factor Float64.zero = false →
  Float64.ltb MAX_FACTOR_ERROR_CORRECTION_DATA factor = false →
  (∀ rings, NimiqodeHeader_calculateMaskCount rings ≤ length rings) →
  let payloadLength := 8 * length P in
  let errorCorrectionLength := ceilMul payloadLength factor in
  let outcome := (_constructFromPayload fuel payload factor CURRENT_VERSION w).1 in
  ((∃ n, n ≤ fuel ∧ sizingStopsAt payloadLength errorCorrectionLength n = true)
   ∧ outcome = Return ())
  ∨ ((∀ j, 0 < j ≤ fuel →
        sizingContinues payloadLength errorCorrectionLength j = true)
     ∧ outcome = OutOfFuel).
Proof.
  intros Hpayload HP Hsize Hf0 Hf1 Hmasks pl ec outcome. subst outcome.
  destruct (sizing_within pl ec fuel) as [(n & Hn & Hstop)|Hgo].
  - left. split; [by exists n|].
    destruct (constructFromPayload_outcome fuel payload factor w P n)
      as [(_ & stream & _ & ->)|(Hmc & _)]; try done.
    unfold plannedMaskCount in Hmc.
    specialize (Hmasks (ringsUpTo n)). rewrite length_ringsUpTo in Hmasks. lia.
  - right. split; [done|].
    destruct (constructFromPayload_sizing fuel payload factor w P)
      as [rest ->]; try done.
    unfold bind, _createHexagonRings.
    edestruct (createHexagonRingsLoop_exhaust pl ec fuel 0) as [w' ->];
      [reflexivity|intros j Hj; apply Hgo; lia|].
    done.
Qed.

(** X7 (fewest rings).  Encode produces the fewest rings that will do: at
    least two, and the first count from two on at which the comparison of
    the loop, [totalBits < calculateLength(...)], is false; at every
    smaller count of at least two rings it is true. When the preliminary
    estimate [Math.ceil(payloadLength * factor)] is an integer, that is: the
    rings hold header, payload and that many error-correction bits, and no
    smaller ring set of at least two rings would have held them. *)
Theorem ring_count_is_minimal fuel payload factor version w w1 P :
  holdsBytes (heap w) payload P →
  _constructFromPayload fuel payload factor version w = (Return (), w1) →
  let payloadLength := 8 * length P in
  let errorCorrectionLength := ceilMul payloadLength factor in
  ∃ rings n,
    _hexagonRings (this w1) = Some rings
    ∧ length rings = n ∧ shape rings = shape (ringsUpTo n)
    ∧ 2 ≤ n
    ∧ Number.ltb_nat (sum_list (shape rings))
        (calculateLength (ringsUpTo n) payloadLength errorCorrectionLength)
      = false
    ∧ (∀ m, 2 ≤ m < n →
         Number.ltb_nat (capacity m)
           (calculateLength (ringsUpTo m) payloadLength errorCorrectionLength)
         = true)
    ∧ ∀ estimate, errorCorrectionLength = Int estimate →
        (Z.of_nat (plannedHeaderLength n) + Z.of_nat payloadLength + estimate
         ≤ Z.of_nat (sum_list (shape rings)))%Z
        ∧ ∀ m, 2 ≤ m < n →
            (Z.of_nat (capacity m)
             < Z.of_nat (plannedHeaderLength m) + Z.of_nat payloadLength
               + estimate)%Z.
Proof.
  intros Hpayload Hrun pl ec. subst pl ec.
  apply (constructFromPayload_inv _ _ _ _ _ _ P Hpayload) in Hrun
    as (n & stream & -> & HP & Hsize & Hf0 & Hf1 & Hstop & Hfuel & Hmc & Hlen
        & -> & _).
  apply sizingStopsAt_spec in Hstop as Hstop'. destruct Hstop' as (Hn & Hstopn & Hgo).
  assert (Number.ltb_nat (capacity n)
            (calculateLength (ringsUpTo n) (8 * length P)
               (ceilMul (8 * length P) factor)) = false) as Hcap.
  { unfold sizingContinues in Hstopn. by apply orb_false_iff in Hstopn as [Hcap _]. }
  assert (∀ m, 2 ≤ m < n →
            Number.ltb_nat (capacity m)
              (calculateLength (ringsUpTo m) (8 * length P)
                 (ceilMul (8 * length P) factor)) = true) as Hless.
  { intros m Hm. specialize (Hgo m ltac:(lia)). unfold sizingContinues in Hgo.
    apply orb_true_iff in Hgo as [Hgo|Hlow]; [done|].
    apply bool_decide_eq_true in Hlow. lia. }
  eexists _, n. cbn [this encodedInstance _hexagonRings].
  rewrite shape_assignHexagonRingData. fold (capacity n).
  split_and!; [done| |done|by eapply sizingStopsAt_two|done|done|].
  - etransitivity; [symmetry; apply (length_fmap bitCount)|].
    fold (shape (assignHexagonRingData (ringsUpTo n)
                   (BitArray.mk (length (heap w)) 0 (capacity n)))).
    rewrite shape_assignHexagonRingData. unfold shape.
    by rewrite length_fmap, length_ringsUpTo.
  - intros estimate Hestimate. rewrite Hestimate in Hcap, Hless.
    unfold calculateLength, plannedHeaderLength, plannedMaskCount, capacity in *.
    cbn [Number.add_nat Number.ltb_nat] in Hcap, Hless.
    apply bool_decide_eq_false in Hcap. split; [lia|].
    intros m Hm. specialize (Hless m Hm).
    apply bool_decide_eq_true in Hless. lia.
Qed.

(** X8 (geometry by length).  The ring set depends on the payload only
    through its length: two successful encodes of payloads of the same
    length with the same factor produce rings of the same capacities and bit
    streams of the same length, whatever the bytes are. *)
Theorem ring_geometry_by_length fuel fuel' payload payload' factor
    version version' w w' w1 w1' P P' :
  holdsBytes (heap w) payload P →
  holdsBytes (heap w') payload' P' →
  length P = length P' →
  _constructFromPayload fuel payload factor version w = (Return (), w1) →
  _constructFromPayload fuel' payload' factor version' w' = (Return (), w1') →
  ∃ rings rings' bitStream bitStream',
    _hexagonRings (this w1) = Some rings
    ∧ _hexagonRings (this w1') = Some rings'
    ∧ shape rings = shape rings'
    ∧ _data (this w1) = Some bitStream
    ∧ _data (this w1') = Some bitStream'
    ∧ BitArray.length bitStream = BitArray.length bitStream'.
Proof.
  intros Hpayload Hpayload' Hlen Hrun Hrun'.
  apply (constructFromPayload_inv _ _ _ _ _ _ P Hpayload) in Hrun
    as (n & stream & _ & _ & _ & _ & _ & Hstop & _ & _ & _ & -> & _).
  apply (constructFromPayload_inv _ _ _ _ _ _ P' Hpayload') in Hrun'
    as (n' & stream' & _ & _ & _ & _ & _ & Hstop' & _ & _ & _ & -> & _).
  rewrite <- Hlen in Hstop'.
  assert (n' = n) as -> by (by eapply sizingStopsAt_unique).
  eexists _, _, _, _. cbn [this encodedInstance _hexagonRings _data].
  split_and!; [done|done| |done|done|done].
  by rewrite !shape_assignHexagonRingData.
Qed.
End RingCount.

(** ** Masking and unmasking *)

Section MaskingRoundTrip.
Context {C : Collaborators}.

(** X9 (mask, then unmask).  With masks that keep the length of the bits and
    are their own inverses, the masking pass undoes itself: masking the last
    [maskCount] rings and then running the pass again with the masks it
    returned gives back the same masks and restores every bit, so the store
    is the one before the first pass. *)
Theorem mask_then_unmask maskCount dataToMask w rings pre R post :
  (∀ mask bits, length (Masking_applyMask mask bits) = length bits) →
  (∀ mask bits, Masking_applyMask mask (Masking_applyMask mask bits) = bits) →
  _hexagonRings (this w) = Some rings →
  focused (heap w) dataToMask pre R post →
  maskCount ≤ length rings →
  ∃ masks w1,
    _maskHexagonRings (inl maskCount) dataToMask w = (Return masks, w1)
    ∧ length masks = maskCount
    ∧ _maskHexagonRings (inr masks) dataToMask w1 = (Return masks, w).
Proof.
  intros Hlength Hinvolutive Hrings Hfoc Hcount.
  assert (HR := proj2 (proj2 Hfoc)).
  assert (length (visited rings 0 maskCount) = maskCount) as Hcaps
    by (by apply length_visited).
  pose (r := maskRegion None (visited rings 0 maskCount) 0 (length R) R []).
  assert (length r.2 = maskCount) as Hmasks
    by (unfold r; rewrite maskRegion_masks_length, Hcaps; cbn; lia).
  assert (length r.1 = length R) as Hr1
    by (unfold r; by rewrite maskRegion_length).
  assert ((maskRegion (Some r.2) (visited rings 0 maskCount) 0 (length R) r.1 []).1
          = R) as Hbits
    by (by apply (maskRegion_unmask Hlength Hinvolutive)).
  assert ((maskRegion (Some r.2) (visited rings 0 maskCount) 0 (length R) r.1 []).2
          = r.2) as Hsame.
  { rewrite maskRegion_given; rewrite ?Hcaps, ?Hmasks, ?Nat.sub_0_r; [|lia|].
    - by rewrite Nat.sub_diag.
    - by rewrite <- Hmasks, drop_all. }
  assert (_maskHexagonRings (inl maskCount) dataToMask w
          = (Return r.2,
             {| heap := <[BitArray.buffer dataToMask := pre ++ r.1 ++ post]> (heap w);
                this := this w |})) as Hfirst.
  { unfold _maskHexagonRings. rewrite <- HR.
    by apply maskLoop_run; [done|done|done|lia|]. }
  clearbody r. exists r.2. eexists. split_and!; [exact Hfirst|done|].
  unfold _maskHexagonRings. rewrite Hmasks, <- HR.
  erewrite (maskLoop_run (Some r.2) dataToMask maskCount 0 (length R) []
              _ rings pre r.1 post);
    [|done|by apply (focused_insert _ _ _ R)|lia|lia|intros g [= <-]; lia].
  cbn [heap this]. rewrite Hbits, Hsame.
  rewrite insert_insert_heap, list_insert_id by apply Hfoc.
  by destruct w.
Qed.

(** X10 (too many masks).  Asked to mask more rings than the instance has,
    with a mask count or with a list of masks, [_maskHexagonRings] masks the
    rings there are and then fails on the ring that is missing: it throws a
    [TypeError] (the [bitCount] of [undefined]). The instance and every
    buffer but the one of [dataToMask] are as before. *)
Theorem too_many_masks maskCountOrMasks dataToMask w rings :
  _hexagonRings (this w) = Some rings →
  length rings
  < match maskCountOrMasks with inr given => length given | inl n => n end →
  ∃ w', _maskHexagonRings maskCountOrMasks dataToMask w = (Throw TypeError, w')
        ∧ sameExcept (BitArray.buffer dataToMask) w w'.
Proof.
  intros Hrings Hcount.
  edestruct (maskLoop_missing_ring
               match maskCountOrMasks with inr given => Some given | inl _ => None end
               dataToMask
               match maskCountOrMasks with inr given => length given | inl n => n end
               0 (BitArray.length dataToMask) [] w rings) as [w' Hrun];
    [done|lia|lia| |].
  { intros g Hg. destruct maskCountOrMasks; [done|]. injection Hg as <-. lia. }
  exists w'. split; [exact Hrun|].
  by eapply ensures_maskHexagonRings.
Qed.
End MaskingRoundTrip.

(** ** Decoding, step by step *)

Section DecodeSteps.
Context {C : Collaborators}.

(** Decode up to the FEC decoder, for a header of version 0 whose lengths
    add up and which lists no more masks than there are rings: the
    payload+parity region has been copied into a buffer of its own and
    unmasked there. *)
Lemma constructFromScan_unmasked hexagonRings data w payloadLength
    errorCorrectionLength checksum hexRingMasks :
  let headerLength :=
    NimiqodeHeader_calculateLength (NimiqodeHeader_calculateMaskCount hexagonRings) in
  let received :=
    BitArray.read (heap w) (BitArray.slice data headerLength (BitArray.length data)) in
  let unmasked :=
    (maskRegion (Some hexRingMasks)
       (visited hexagonRings 0 (length hexRingMasks)) 0
       (length received) received []).1 in
  NimiqodeHeader_read
    (BitArray.read (heap w) (BitArray.slice data 0 headerLength)) hexagonRings
  = (0%Z, payloadLength, errorCorrectionLength, checksum, hexRingMasks) →
  headerLength + payloadLength + errorCorrectionLength = BitArray.length data →
  length hexRingMasks ≤ length hexagonRings →
  _constructFromScan hexagonRings data w
  = match LDPC_decode unmasked payloadLength errorCorrectionLength with
    | None => throw FailedToDecodePayload
    | Some payloadBits =>
      let! payload := Uint8ArrayM.new (payloadLength / 8) in
      modifyThis (set_payload payload) ;;;
      let! payloadBitArray := BitArrayM.ofUint8Array payload in
      forLoop payloadLength (λ i,
        BitArrayM.setValue payloadBitArray i (bitAt payloadBits i)) ;;;
      let! payloadBytes := Uint8ArrayM.bytes payload in
      if bool_decide (CRC16_crc16 payloadBytes ≠ checksum)
      then throw ChecksumMismatch
      else ret ()
    end
      {| heap := heap w ++ [unmasked];
         this := set_data data (set_hexagonRings hexagonRings (this w)) |}.
Proof.
  intros hl received unmasked Hread Hlen Hmasks.
  rewrite (constructFromScan_header _ _ _ _ Hread).
  rewrite bool_decide_eq_false_2 by (by intros []).
  fold hl. rewrite bool_decide_eq_false_2 by (by intros []).
  assert (length received = BitArray.length data - hl) as Hreceived
    by (unfold received, BitArray.read; by rewrite length_resize).
  (* new BitArray(this._data, headerLength, this._data.length, true) *)
  erewrite bind_run; cycle 1.
  { unfold BitArrayM.copy, bind, getHeap, alloc, ret. cbn [heap this].
    fold received. reflexivity. }
  set (copy := BitArray.mk (length (heap w)) 0 (BitArray.length data - hl)).
  (* _maskHexagonRings(hexRingMasks, encodedPayload) *)
  erewrite bind_run; cycle 1.
  { unfold _maskHexagonRings.
    apply (maskLoop_run (Some hexRingMasks) copy (length hexRingMasks) 0 _ []
             _ hexagonRings [] received []).
    - done.
    - split_and!; cbn; [|done|done].
      rewrite app_nil_r. apply lookup_new_buffer.
    - unfold copy. cbn [BitArray.length]. lia.
    - done.
    - by intros g [= <-]. }
  cbn [heap this BitArray.buffer BitArray.length copy app].
  rewrite insert_new_buffer, app_nil_r. rewrite <- Hreceived. fold unmasked.
  (* encodedPayload.toArray() *)
  assert (length unmasked = length received) as Hunmasked
    by (unfold unmasked; by rewrite maskRegion_length).
  erewrite (bind_run (BitArrayM.toArray _) _ _ unmasked); [done|].
  unfold BitArrayM.toArray, bind, getHeap, ret, BitArray.read, heap_buffer.
  unfold copy. cbn [heap BitArray.buffer BitArray.start BitArray.length].
  rewrite lookup_new_buffer. cbn [from_option id]. rewrite drop_0.
  rewrite resize_all_alt; [done|lia].
Qed.

(** When the header lists more masks than there are rings, unmasking
    fails on the missing ring. *)
Lemma constructFromScan_missing_ring hexagonRings data w payloadLength
    errorCorrectionLength checksum hexRingMasks :
  let headerLength :=
    NimiqodeHeader_calculateLength (NimiqodeHeader_calculateMaskCount hexagonRings) in
  NimiqodeHeader_read
    (BitArray.read (heap w) (BitArray.slice data 0 headerLength)) hexagonRings
  = (0%Z, payloadLength, errorCorrectionLength, checksum, hexRingMasks) →
  headerLength + payloadLength + errorCorrectionLength = BitArray.length data →
  length hexagonRings < length hexRingMasks →
  ∃ w', _constructFromScan hexagonRings data w = (Throw TypeError, w').
Proof.
  intros hl Hread Hlen Hmasks.
  rewrite (constructFromScan_header _ _ _ _ Hread).
  rewrite bool_decide_eq_false_2 by (by intros []).
  fold hl. rewrite bool_decide_eq_false_2 by (by intros []).
  erewrite bind_run by reflexivity.
  unfold bind at 1, _maskHexagonRings.
  edestruct (maskLoop_missing_ring (Some hexRingMasks)) as [w' ->];
    [reflexivity| | |intros g [= <-]; reflexivity|by eexists]; lia.
Qed.

(** The rest of decode after the FEC decoder returned [payloadBits], for a
    payload length of whole bytes: the bits are written into a new typed
    array, and the checksum of its bytes decides the outcome. *)
Lemma constructFromScan_payload payloadBytes payloadBits checksum w :
  let payloadLength := 8 * payloadBytes in
  let decoded := resize payloadLength false payloadBits in
  (let! payload := Uint8ArrayM.new (payloadLength / 8) in
   modifyThis (set_payload payload) ;;;
   let! payloadBitArray := BitArrayM.ofUint8Array payload in
   forLoop payloadLength (λ i,
     BitArrayM.setValue payloadBitArray i (bitAt payloadBits i)) ;;;
   let! payloadBytes := Uint8ArrayM.bytes payload in
   if bool_decide (CRC16_crc16 payloadBytes ≠ checksum)
   then throw ChecksumMismatch
   else ret ()) w
  = (if bool_decide (CRC16_crc16 (bytes_of_bits decoded) ≠ checksum)
     then Throw ChecksumMismatch else Return (),
     {| heap := heap w ++ [decoded];
        this := set_payload (Uint8Array.mk (length (heap w))) (this w) |}).
Proof.
  intros pl decoded.
  replace (pl / 8) with payloadBytes
    by (unfold pl; rewrite Nat.mul_comm; symmetry; apply Nat.div_mul; lia).
  erewrite bind_run by reflexivity. erewrite bind_run by reflexivity.
  cbn [heap this].
  rewrite (bind_run _ _ _ (BitArray.mk (length (heap w)) 0 pl)
             {| heap := heap w ++ [replicate pl false];
                this := set_payload (Uint8Array.mk (length (heap w))) (this w) |});
    cycle 1.
  { unfold BitArrayM.ofUint8Array, bind, getHeap, ret, heap_buffer.
    cbn [heap Uint8Array.buffer].
    by rewrite lookup_new_buffer; cbn [from_option id]; rewrite length_replicate. }
  erewrite bind_run; cycle 1.
  { apply (forLoop_setValue (BitArray.mk (length (heap w)) 0 pl) _ []
             (replicate pl false) []).
    split_and!; cbn; [|done|by rewrite length_replicate].
    rewrite app_nil_r. apply lookup_new_buffer. }
  cbn [heap this BitArray.buffer BitArray.length app].
  rewrite insert_new_buffer, app_nil_r. fold decoded.
  erewrite (bind_run (Uint8ArrayM.bytes _) _ _ (bytes_of_bits decoded)); cycle 1.
  { unfold Uint8ArrayM.bytes, bind, getHeap, ret, Uint8Array.bytes, heap_buffer.
    cbn [heap Uint8Array.buffer]. by rewrite lookup_new_buffer. }
  by destruct (bool_decide _).
Qed.

(** The same for any payload length: a new typed array of
    [payloadLength / 8] bytes is added to the store and becomes the payload
    of the instance, and the checksum of its bytes decides the outcome. *)
Lemma constructFromScan_payload_any payloadLength payloadBits checksum w :
  ∃ decoded,
    (let! payload := Uint8ArrayM.new (payloadLength / 8) in
     modifyThis (set_payload payload) ;;;
     let! payloadBitArray := BitArrayM.ofUint8Array payload in
     forLoop payloadLength (λ i,
       BitArrayM.setValue payloadBitArray i (bitAt payloadBits i)) ;;;
     let! payloadBytes := Uint8ArrayM.bytes payload in
     if bool_decide (CRC16_crc16 payloadBytes ≠ checksum)
     then throw ChecksumMismatch
     else ret ()) w
    = (if bool_decide (CRC16_crc16 (bytes_of_bits decoded) ≠ checksum)
       then Throw ChecksumMismatch else Return (),
       {| heap := heap w ++ [decoded];
          this := set_payload (Uint8Array.mk (length (heap w))) (this w) |}).
Proof.
  erewrite bind_run by reflexivity. erewrite bind_run by reflexivity.
  erewrite bind_run by reflexivity.
  cbn [heap this Uint8Array.buffer].
  set (a := BitArray.mk (length (heap w)) 0 _).
  set (w1 := {| heap := _; this := _ |}).
  destruct (forLoopFrom_setValue_returns a (bitAt payloadBits) payloadLength 0 w1)
    as [w2 Hloop].
  unfold forLoop. rewrite (bind_run _ _ _ _ _ Hloop).
  apply (ensures_forLoopFrom _ (sameExcept (length (heap w)))) in Hloop;
    [|intros j; apply (ensures_setValue a)].
  apply sameExcept_new_buffer in Hloop as [decoded ->].
  exists decoded.
  erewrite (bind_run (Uint8ArrayM.bytes _) _ _ (bytes_of_bits decoded)); cycle 1.
  { unfold Uint8ArrayM.bytes, bind, getHeap, ret, Uint8Array.bytes, heap_buffer.
    cbn [heap Uint8Array.buffer]. by rewrite lookup_new_buffer. }
  by destruct (bool_decide _).
Qed.

(** Every way decode can go. *)
Lemma constructFromScan_cases hexagonRings data w :
  let headerLength :=
    NimiqodeHeader_calculateLength (NimiqodeHeader_calculateMaskCount hexagonRings) in
  let received :=
    BitArray.read (heap w) (BitArray.slice data headerLength (BitArray.length data)) in
  let run := _constructFromScan hexagonRings data w in
  ∃ version payloadLength errorCorrectionLength checksum hexRingMasks,
    NimiqodeHeader_read
      (BitArray.read (heap w) (BitArray.slice data 0 headerLength)) hexagonRings
    = (version, payloadLength, errorCorrectionLength, checksum, hexRingMasks)
    ∧ let unmasked :=
        (maskRegion (Some hexRingMasks)
           (visited hexagonRings 0 (length hexRingMasks)) 0
           (length received) received []).1 in
      (version ≠ 0%Z ∧ run.1 = Throw UnsupportedVersion)
      ∨ version = 0%Z
        ∧ ((headerLength + payloadLength + errorCorrectionLength
            ≠ BitArray.length data
            ∧ run.1 = Throw WrongDataLength)
           ∨ headerLength + payloadLength + errorCorrectionLength
             = BitArray.length data
             ∧ ((length hexagonRings < length hexRingMasks
                 ∧ run.1 = Throw TypeError)
                ∨ length hexRingMasks ≤ length hexagonRings
                  ∧ ((LDPC_decode unmasked payloadLength errorCorrectionLength
                      = None
                      ∧ run.1 = Throw FailedToDecodePayload)
                     ∨ ∃ payloadBits decoded,
                         LDPC_decode unmasked payloadLength errorCorrectionLength
                         = Some payloadBits
                         ∧ run
                           = (if bool_decide
                                   (CRC16_crc16 (bytes_of_bits decoded) ≠ checksum)
                              then Throw ChecksumMismatch else Return (),
                              {| heap := heap w ++ [unmasked; decoded];
                                 this :=
                                   {| _payload :=
                                        Some (Uint8Array.mk (S (length (heap w))));
                                      _hexagonRings := Some hexagonRings;
                                      _data := Some data |} |})))).
Proof.
  intros hl received run. subst run.
  destruct (NimiqodeHeader_read _ _)
    as [[[[version pl] ecl] checksum] masks] eqn:Hread.
  exists version, pl, ecl, checksum, masks. split; [done|]. intros unmasked.
  destruct (decide (version = 0%Z)) as [->|Hversion]; cycle 1.
  { left. split; [done|].
    rewrite (constructFromScan_header _ _ _ _ Hread).
    by rewrite bool_decide_eq_true_2. }
  right. split; [done|].
  destruct (decide (hl + pl + ecl = BitArray.length data)) as [Hlen|Hlen]; cycle 1.
  { left. split; [done|].
    rewrite (constructFromScan_header _ _ _ _ Hread).
    rewrite bool_decide_eq_false_2 by (by intros []).
    by rewrite bool_decide_eq_true_2. }
  right. split; [done|].
  destruct (decide (length masks ≤ length hexagonRings)) as [Hmasks|Hmasks]; cycle 1.
  { left. split; [lia|].
    edestruct (constructFromScan_missing_ring hexagonRings data w) as [w' ->];
      [exact Hread|exact Hlen|lia|done]. }
  right. split; [done|].
  rewrite (constructFromScan_unmasked _ _ _ _ _ _ _ Hread Hlen Hmasks).
  fold hl received unmasked.
  destruct (LDPC_decode unmasked pl ecl) as [payloadBits|]; [right|by left].
  edestruct (constructFromScan_payload_any pl payloadBits checksum) as [decoded ->].
  exists payloadBits, decoded. split; [done|].
  cbn [heap this]. rewrite <- app_assoc, length_app. cbn [length app].
  by rewrite Nat.add_1_r.
Qed.

(** X12 (FEC failure).  A header of version 0 whose lengths add up and which
    lists no more masks than there are rings: when the FEC decoder fails on
    the unmasked bits, decode throws 'Failed to decode payload'. By then the
    store has gained the unmasked copy and nothing else, and the payload of
    the instance has not been assigned. *)
Theorem decode_fec_failure hexagonRings data w payloadLength
    errorCorrectionLength checksum hexRingMasks :
  let headerLength :=
    NimiqodeHeader_calculateLength (NimiqodeHeader_calculateMaskCount hexagonRings) in
  let received :=
    BitArray.read (heap w) (BitArray.slice data headerLength (BitArray.length data)) in
  let unmasked :=
    (maskRegion (Some hexRingMasks)
       (visited hexagonRings 0 (length hexRingMasks)) 0
       (length received) received []).1 in
  NimiqodeHeader_read
    (BitArray.read (heap w) (BitArray.slice data 0 headerLength)) hexagonRings
  = (0%Z, payloadLength, errorCorrectionLength, checksum, hexRingMasks) →
  headerLength + payloadLength + errorCorrectionLength = BitArray.length data →
  length hexRingMasks ≤ length hexagonRings →
  LDPC_decode unmasked payloadLength errorCorrectionLength = None →
  ∃ w', _constructFromScan hexagonRings data w = (Throw FailedToDecodePayload, w')
        ∧ heap w' = heap w ++ [unmasked]
        ∧ Get.payload w' = (Return (_payload (this w)), w').
Proof.
  intros hl received unmasked Hread Hlen Hmasks Hdecode.
  rewrite (constructFromScan_unmasked _ _ _ _ _ _ _ Hread Hlen Hmasks).
  fold hl received unmasked. rewrite Hdecode. by eexists.
Qed.

(** X13 (checksum check).  For such a header with a payload length of whole
    bytes: when the FEC decoder returns bits, decode packs the first
    [payloadLength] of them into a new typed array (zeros where the decoder
    returned fewer) and makes it the payload of the instance. It returns
    when the checksum of these bytes is the one in the header and throws
    'Checksum mismatch' otherwise; the payload has been assigned in both
    cases. *)
Theorem decode_checks_the_checksum hexagonRings data w payloadBytes
    errorCorrectionLength checksum hexRingMasks payloadBits :
  let headerLength :=
    NimiqodeHeader_calculateLength (NimiqodeHeader_calculateMaskCount hexagonRings) in
  let payloadLength := 8 * payloadBytes in
  let received :=
    BitArray.read (heap w) (BitArray.slice data headerLength (BitArray.length data)) in
  let unmasked :=
    (maskRegion (Some hexRingMasks)
       (visited hexagonRings 0 (length hexRingMasks)) 0
       (length received) received []).1 in
  let decoded := bytes_of_bits (resize payloadLength false payloadBits) in
  NimiqodeHeader_read
    (BitArray.read (heap w) (BitArray.slice data 0 headerLength)) hexagonRings
  = (0%Z, payloadLength, errorCorrectionLength, checksum, hexRingMasks) →
  headerLength + payloadLength + errorCorrectionLength = BitArray.length data →
  length hexRingMasks ≤ length hexagonRings →
  LDPC_decode unmasked payloadLength errorCorrectionLength = Some payloadBits →
  ∃ w' payload,
    _constructFromScan hexagonRings data w
    = (if bool_decide (CRC16_crc16 decoded = checksum)
       then Return () else Throw ChecksumMismatch, w')
    ∧ Get.payload w' = (Return (Some payload), w')
    ∧ Uint8Array.bytes (heap w') payload = decoded
    ∧ length decoded = payloadBytes
    ∧ length (heap w) ≤ Uint8Array.buffer payload.
Proof.
  intros hl pl received unmasked decoded Hread Hlen Hmasks Hdecode.
  rewrite (constructFromScan_unmasked _ _ _ _ _ _ _ Hread Hlen Hmasks).
  fold hl received unmasked. rewrite Hdecode.
  unfold pl. rewrite constructFromScan_payload. fold pl decoded. cbn [heap this].
  eexists _, (Uint8Array.mk (length (heap w ++ [unmasked]))).
  split_and!.
  - destruct (decide (CRC16_crc16 decoded = checksum)) as [Hcrc|Hcrc].
    + rewrite (bool_decide_eq_false_2 (_ ≠ _)) by (intros H; by apply H).
      by rewrite bool_decide_eq_true_2.
    + rewrite (bool_decide_eq_true_2 (_ ≠ _)) by done.
      by rewrite bool_decide_eq_false_2.
  - done.
  - unfold Uint8Array.bytes, heap_buffer. cbn [heap Uint8Array.buffer].
    by rewrite lookup_new_buffer.
  - unfold decoded. rewrite length_bytes_of_bits, length_resize.
    unfold pl. rewrite Nat.mul_comm. apply Nat.div_mul. lia.
  - cbn. rewrite length_app. lia.
Qed.

(** X11 (decode is sound).  Decode returns only for a stream that passed
    every check: the header it parsed has version 0, its lengths add up to
    the length of the stream, the FEC decoder accepted the unmasked
    payload+parity region, and the checksum of the payload the instance
    holds is the one in the header. That payload is a typed array decode
    created. *)
Theorem decode_sound hexagonRings data w w' :
  _constructFromScan hexagonRings data w = (Return (), w') →
  let headerLength :=
    NimiqodeHeader_calculateLength (NimiqodeHeader_calculateMaskCount hexagonRings) in
  let received :=
    BitArray.read (heap w) (BitArray.slice data headerLength (BitArray.length data)) in
  ∃ payloadLength errorCorrectionLength checksum hexRingMasks payloadBits payload,
    NimiqodeHeader_read
      (BitArray.read (heap w) (BitArray.slice data 0 headerLength)) hexagonRings
    = (0%Z, payloadLength, errorCorrectionLength, checksum, hexRingMasks)
    ∧ headerLength + payloadLength + errorCorrectionLength = BitArray.length data
    ∧ length hexRingMasks ≤ length hexagonRings
    ∧ LDPC_decode
        (maskRegion (Some hexRingMasks)
           (visited hexagonRings 0 (length hexRingMasks)) 0
           (length received) received []).1
        payloadLength errorCorrectionLength
      = Some payloadBits
    ∧ Get.payload w' = (Return (Some payload), w')
    ∧ length (heap w) ≤ Uint8Array.buffer payload
    ∧ CRC16_crc16 (Uint8Array.bytes (heap w') payload) = checksum.
Proof.
  intros Hrun hl received.
  destruct (constructFromScan_cases hexagonRings data w)
    as (version & pl & ecl & checksum & masks & Hread & Hcases).
  cbn zeta in Hcases. fold hl received in Hread, Hcases. rewrite Hrun in Hcases.
  destruct Hcases as [[_ ?]|[-> [[_ ?]|[Hlen [[_ ?]|[Hmasks [[_ ?]|Hok]]]]]]];
    try done.
  destruct Hok as (payloadBits & decoded & Hdecode & Hend).
  exists pl, ecl, checksum, masks, payloadBits,
    (Uint8Array.mk (S (length (heap w)))).
  destruct (bool_decide (CRC16_crc16 (bytes_of_bits decoded) ≠ checksum)) eqn:Hcrc;
    [done|].
  apply bool_decide_eq_false in Hcrc. injection Hend as ->.
  split_and!; [done..| |].
  - cbn. lia.
  - unfold Uint8Array.bytes, heap_buffer. cbn [heap Uint8Array.buffer].
    set (unmasked := (maskRegion _ _ _ _ _ _).1).
    change [unmasked; decoded] with ([unmasked] ++ [decoded]).
    rewrite app_assoc.
    replace (S (length (heap w))) with (length (heap w ++ [unmasked]))
      by (rewrite length_app; cbn; lia).
    rewrite lookup_new_buffer. cbn [from_option id].
    by destruct (decide (CRC16_crc16 (bytes_of_bits decoded) = checksum)).
Qed.

(** X14 (outcomes of decode).  What decode can do: return, or throw one of
    its four errors, or throw a [TypeError], and that only when the header
    lists more masks than there are rings. It has no loop that could go on
    for ever. *)
Theorem decode_outcomes hexagonRings data w :
  let headerLength :=
    NimiqodeHeader_calculateLength (NimiqodeHeader_calculateMaskCount hexagonRings) in
  let hexRingMasks :=
    (NimiqodeHeader_read
       (BitArray.read (heap w) (BitArray.slice data 0 headerLength))
       hexagonRings).2 in
  match (_constructFromScan hexagonRings data w).1 with
  | Return _ => True
  | Throw TypeError => length hexagonRings < length hexRingMasks
  | Throw e =>
    e ∈ [UnsupportedVersion; WrongDataLength; FailedToDecodePayload;
         ChecksumMismatch]
  | OutOfFuel => False
  end.
Proof.
  intros hl masks0.
  destruct (constructFromScan_cases hexagonRings data w)
    as (version & pl & ecl & checksum & masks & Hread & Hcases).
  cbn zeta in Hcases. fold hl in Hread. subst masks0. rewrite Hread. cbn [snd].
  destruct Hcases as [[_ ->]|[-> [[_ ->]|[Hlen [[? ->]|[Hmasks [[_ ->]|Hok]]]]]]];
    [by repeat constructor|by repeat constructor|done|by repeat constructor|].
  destruct Hok as (payloadBits & decoded & _ & ->). cbn [fst].
  destruct (bool_decide _); [by repeat constructor|done].
Qed.
End DecodeSteps.

(** ** The order of the argument checks *)

Section CheckOrder.
Context {C : Collaborators}.

(** X15 (order of the argument checks).  Which error an encode call gets
    when several arguments are wrong: a wrong version or an empty payload
    gives 'Invalid argument.' whatever the factor and the size are;
    otherwise a factor that the comparisons of the code find below zero or
    above the maximum gives 'Illegal error correction factor.' whatever
    the size is; only then is the size looked at. A factor that is NaN is
    found neither below zero nor above the maximum. In each case the store
    and the instance are untouched. Apart from these three errors encode
    can only throw a [TypeError]. *)
Theorem encode_check_order fuel payload factor version w :
  let byteLength := length (Uint8Array.bytes (heap w) payload) in
  let run := _constructFromPayload fuel payload factor version w in
  let factorRefused :=
    Float64.ltb factor Float64.zero
    || Float64.ltb MAX_FACTOR_ERROR_CORRECTION_DATA factor in
  (version ≠ CURRENT_VERSION ∨ byteLength = 0 → run = (Throw InvalidArgument, w))
  ∧ (version = CURRENT_VERSION → 0 < byteLength → factorRefused = true →
     run = (Throw IllegalErrorCorrectionFactor, w))
  ∧ (version = CURRENT_VERSION → 0 < byteLength → factorRefused = false →
     2 ^ HEADER_LENGTH_PAYLOAD_LENGTH < byteLength →
     run = (Throw (DataTooLong (2 ^ HEADER_LENGTH_PAYLOAD_LENGTH)), w))
  ∧ (factor = Float64.nan → factorRefused = false)
  ∧ (∀ e w', run = (Throw e, w') →
       e ∈ [InvalidArgument; IllegalErrorCorrectionFactor;
            DataTooLong (2 ^ HEADER_LENGTH_PAYLOAD_LENGTH); TypeError]).
Proof.
  intros byteLength run factorRefused. subst run factorRefused byteLength.
  split_and!;
    [intros Hbad | intros -> Hn Hrange | intros -> Hn Hrange Hsize
     | intros -> | intros e w'];
    [| | | by destruct MAX_FACTOR_ERROR_CORRECTION_DATA |];
    unfold _constructFromPayload, bind at 1;
    unfold Uint8ArrayM.byteLength, bind at 1; cbn [getHeap ret];
    rewrite <- Uint8Array_length_bytes.
  - rewrite (proj2 (orb_true_iff _ _)); [done|].
    rewrite !bool_decide_eq_true. tauto.
  - rewrite (bool_decide_eq_false_2 (CURRENT_VERSION ≠ _)) by (by intros []).
    rewrite (bool_decide_eq_false_2 (_ = 0)) by lia. cbn [orb].
    by rewrite Hrange.
  - rewrite (bool_decide_eq_false_2 (CURRENT_VERSION ≠ _)) by (by intros []).
    rewrite (bool_decide_eq_false_2 (_ = 0)) by lia. cbn [orb].
    rewrite Hrange.
    by rewrite bool_decide_eq_true_2 by lia.
  - destruct (_ || _); [intros [= <- _]; by repeat constructor|].
    destruct (_ || _); [intros [= <- _]; by repeat constructor|].
    destruct (bool_decide _); [intros [= <- _]; by repeat constructor|].
    intros Hrun. assert (e = TypeError) as ->; [|by repeat constructor].
    refine ((_ : throwsOnly (λ e, e = TypeError) _) w e w' Hrun).
    unfold BitArrayM.ofUint8Array, _createHexagonRings, Uint8ArrayM.bytes,
      BitArrayM.new, forLoop, BitArrayM.toArray, BitArrayM.write,
      _maskHexagonRings, BitArrayM.setValue.
    repeat first [ apply throwsOnly_createHexagonRingsLoop
                 | apply throwsOnly_maskLoop | throws_step ].
Qed.
End CheckOrder.

(** ** The further properties at concrete inputs *)

(** The encoding of "ab" in the wide toy format: the store gains the bit
    stream of 72 bits, and the payload of the instance is the caller's
    array, still holding "ab". *)
Lemma encode_keeps_the_payload_witness :
  ∃ w1 stream,
    @_constructFromPayload Toy.wide 2 Toy.payload (Float64.ratio 1 2) 0 (Toy.world Toy.ab)
    = (Return (), w1)
    ∧ heap w1 = heap (Toy.world Toy.ab) ++ [stream]
    ∧ length stream = 72
    ∧ Get.payload w1 = (Return (Some Toy.payload), w1)
    ∧ Uint8Array.bytes (heap w1) Toy.payload = Toy.ab.
Proof.
  eexists.
  destruct (@encode_keeps_the_payload Toy.wide 2 Toy.payload (Float64.ratio 1 2) 0
              (Toy.world Toy.ab)
              (@_constructFromPayload Toy.wide 2 Toy.payload (Float64.ratio 1 2) 0
                 (Toy.world Toy.ab)).2 Toy.ab)
    as (stream & Hheap & Hdata & Hget & Hbytes);
    [reflexivity|vm_compute; reflexivity|].
  exists stream. split_and!.
  - vm_compute. reflexivity.
  - exact Hheap.
  - vm_compute in Hheap. injection Hheap as <-. reflexivity.
  - exact Hget.
  - exact Hbytes.
Defined.

(** At the same encoding: two rings, whose data read one after the other
    is the bit stream of 72 bits. *)
Lemma encoded_rings_tile_the_stream_witness :
  ∃ w1 rings bitStream,
    @_constructFromPayload Toy.wide 2 Toy.payload (Float64.ratio 1 2) 0 (Toy.world Toy.ab)
    = (Return (), w1)
    ∧ Get.hexagonRings w1 = (Return (Some rings), w1)
    ∧ _data (this w1) = Some bitStream
    ∧ rings ≫= ringBits (heap w1) = BitArray.read (heap w1) bitStream
    ∧ length (BitArray.read (heap w1) bitStream) = sum_list (shape rings).
Proof.
  eexists.
  destruct (@encoded_rings_tile_the_stream Toy.wide 2 Toy.payload (Float64.ratio 1 2) 0
              (Toy.world Toy.ab)
              (@_constructFromPayload Toy.wide 2 Toy.payload (Float64.ratio 1 2) 0
                 (Toy.world Toy.ab)).2 Toy.ab)
    as (rings & bitStream & Hget & Hdata & _ & Htile & Hlen);
    [reflexivity|vm_compute; reflexivity|].
  exists rings, bitStream. split_and!.
  - vm_compute. reflexivity.
  - exact Hget.
  - exact Hdata.
  - exact Htile.
  - exact Hlen.
Defined.

(** Encoding "abc" with the double nearest 5/12 in the wide toy format
    returns with fuel for two rings, and is still adding rings when given
    fuel for one; with a factor that is NaN it returns as well. *)
Lemma encode_returns_or_keeps_looping_witness :
  (@_constructFromPayload Toy.wide 2 Toy.payload (Float64.ratio 5 12) 0
     (Toy.world Toy.abc)).1
  = Return ()
  ∧ (@_constructFromPayload Toy.wide 1 Toy.payload (Float64.ratio 5 12) 0
       (Toy.world Toy.abc)).1
    = OutOfFuel
  ∧ (@_constructFromPayload Toy.wide 2 Toy.payload Float64.nan 0
       (Toy.world Toy.abc)).1
    = Return ().
Proof.
  split_and!.
  - destruct (@encode_returns_or_keeps_looping Toy.wide 2 Toy.payload
                (Float64.ratio 5 12) (Toy.world Toy.abc) Toy.abc)
      as [[_ Hrun]|[_ Hrun]].
    + reflexivity.
    + discriminate.
    + vm_compute. lia.
    + vm_compute. reflexivity.
    + vm_compute. reflexivity.
    + intros rings. cbn. unfold Toy.maskCount. lia.
    + exact Hrun.
    + vm_compute in Hrun. discriminate.
  - destruct (@encode_returns_or_keeps_looping Toy.wide 1 Toy.payload
                (Float64.ratio 5 12) (Toy.world Toy.abc) Toy.abc)
      as [[_ Hrun]|[_ Hrun]].
    + reflexivity.
    + discriminate.
    + vm_compute. lia.
    + vm_compute. reflexivity.
    + vm_compute. reflexivity.
    + intros rings. cbn. unfold Toy.maskCount. lia.
    + vm_compute in Hrun. discriminate.
    + exact Hrun.
  - destruct (@encode_returns_or_keeps_looping Toy.wide 2 Toy.payload
                Float64.nan (Toy.world Toy.abc) Toy.abc)
      as [[_ Hrun]|[_ Hrun]].
    + reflexivity.
    + discriminate.
    + vm_compute. lia.
    + vm_compute. reflexivity.
    + vm_compute. reflexivity.
    + intros rings. cbn. unfold Toy.maskCount. lia.
    + exact Hrun.
    + vm_compute in Hrun. discriminate.
Defined.

(** At the encoding of "abc" with the double nearest 5/12: two rings of 72
    bits together, which hold the 55 bits of header (21), payload (24) and
    preliminary error correction (10). *)
Lemma ring_count_is_minimal_witness :
  ∃ w1 rings,
    @_constructFromPayload Toy.wide 2 Toy.payload (Float64.ratio 5 12) 0
      (Toy.world Toy.abc)
    = (Return (), w1)
    ∧ _hexagonRings (this w1) = Some rings
    ∧ length rings = 2
    ∧ (21 + 24 + 10 ≤ Z.of_nat (sum_list (shape rings)))%Z.
Proof.
  eexists.
  destruct (@ring_count_is_minimal Toy.wide 2 Toy.payload (Float64.ratio 5 12) 0
              (Toy.world Toy.abc)
              (@_constructFromPayload Toy.wide 2 Toy.payload (Float64.ratio 5 12) 0
                 (Toy.world Toy.abc)).2 Toy.abc)
    as (rings & n & Hrings & Hn & _ & _ & _ & _ & Hfits);
    [reflexivity|vm_compute; reflexivity|].
  assert (n = 2) as ->.
  { vm_compute in Hrings. injection Hrings as <-. symmetry. exact Hn. }
  destruct (Hfits 10%Z) as [Hholds _]; [vm_compute; reflexivity|].
  exists rings. split_and!.
  - vm_compute. reflexivity.
  - exact Hrings.
  - exact Hn.
  - exact Hholds.
Defined.

(** "ab" and "cd" encode into ring sets of the same capacities. *)
Lemma ring_geometry_by_length_witness :
  ∃ rings rings',
    _hexagonRings
      (this (@_constructFromPayload Toy.wide 2 Toy.payload (Float64.ratio 1 2) 0
               (Toy.world Toy.ab)).2) = Some rings
    ∧ _hexagonRings
        (this (@_constructFromPayload Toy.wide 3 Toy.payload (Float64.ratio 1 2) 0
                 (Toy.world Scenarios.cd)).2) = Some rings'
    ∧ shape rings = shape rings'.
Proof.
  destruct (@ring_geometry_by_length Toy.wide 2 3 Toy.payload Toy.payload (Float64.ratio 1 2)
              0 0 (Toy.world Toy.ab) (Toy.world Scenarios.cd)
              (@_constructFromPayload Toy.wide 2 Toy.payload (Float64.ratio 1 2) 0
                 (Toy.world Toy.ab)).2
              (@_constructFromPayload Toy.wide 3 Toy.payload (Float64.ratio 1 2) 0
                 (Toy.world Scenarios.cd)).2
              Toy.ab Scenarios.cd)
    as (rings & rings' & _ & _ & Hrings & Hrings' & Hshape & _).
  - reflexivity.
  - reflexivity.
  - reflexivity.
  - vm_compute. reflexivity.
  - vm_compute. reflexivity.
  - exists rings, rings'. split_and!; [exact Hrings|exact Hrings'|exact Hshape].
Defined.

(** Masking two of three 16-bit rings on a region of 26 bits and unmasking
    with the masks returned restores the store. *)
Lemma mask_then_unmask_witness :
  ∃ masks w1,
    @_maskHexagonRings Toy.narrow (inl 2) Toy.region Toy.regionWorld
    = (Return masks, w1)
    ∧ length masks = 2
    ∧ @_maskHexagonRings Toy.narrow (inr masks) Toy.region w1
      = (Return masks, Toy.regionWorld).
Proof.
  apply (@mask_then_unmask Toy.narrow 2 Toy.region Toy.regionWorld Toy.threeRings
           (replicate 22 false) Toy.regionBits []).
  - apply (@applyMask_length Toy.narrow (Toy_contracts _ _)).
  - apply (@applyMask_involutive Toy.narrow (Toy_contracts _ _)).
  - reflexivity.
  - split_and!; reflexivity.
  - cbn. lia.
Defined.

(** Four masks for three rings: a [TypeError]. *)
Lemma too_many_masks_witness :
  ∃ w', @_maskHexagonRings Toy.narrow (inr [0; 1; 0; 1]) Toy.region Toy.regionWorld
        = (Throw TypeError, w')
        ∧ sameExcept 0 Toy.regionWorld w'.
Proof.
  apply (@too_many_masks Toy.narrow (inr [0; 1; 0; 1]) Toy.region Toy.regionWorld
           Toy.threeRings).
  - reflexivity.
  - cbn. lia.
Defined.

(** The scan of a single ring whose FEC decoder rejects it. *)
Lemma decode_fec_failure_witness :
  ∃ w', @_constructFromScan Scenarios.rejecting [Toy.singleRing] Toy.singleRingData
          Toy.singleRingWorld = (Throw FailedToDecodePayload, w')
        ∧ length (heap w') = 2
        ∧ Get.payload w' = (Return None, w').
Proof.
  destruct (@decode_fec_failure Scenarios.rejecting [Toy.singleRing]
              Toy.singleRingData Toy.singleRingWorld 8 4 0 [])
    as (w' & Hrun & Hheap & Hget).
  - reflexivity.
  - reflexivity.
  - cbn. lia.
  - reflexivity.
  - exists w'. split_and!; [exact Hrun| |exact Hget]. by rewrite Hheap.
Defined.

(** The scan of a single ring whose header carries another checksum than
    that of the decoded byte. *)
Lemma decode_checks_the_checksum_witness :
  ∃ w' payload,
    @_constructFromScan Toy.wide [Toy.singleRing] Toy.singleRingData
      Scenarios.wrongChecksumWorld = (Throw ChecksumMismatch, w')
    ∧ Get.payload w' = (Return (Some payload), w')
    ∧ Uint8Array.bytes (heap w') payload = [Byte.x00].
Proof.
  destruct (@decode_checks_the_checksum Toy.wide [Toy.singleRing]
              Toy.singleRingData Scenarios.wrongChecksumWorld 1 4 5 []
              (replicate 8 false))
    as (w' & payload & Hrun & Hget & Hbytes & _).
  - reflexivity.
  - reflexivity.
  - cbn. lia.
  - reflexivity.
  - exists w', payload. split_and!; [exact Hrun|exact Hget|exact Hbytes].
Defined.

(** The scan of a single ring that decodes: its header has version 0 and
    the checksum 0 of the decoded zero byte. *)
Lemma decode_sound_witness :
  ∃ payload,
    let w' := (@_constructFromScan Toy.wide [Toy.singleRing] Toy.singleRingData
                 Toy.singleRingWorld).2 in
    Get.payload w' = (Return (Some payload), w')
    ∧ @CRC16_crc16 Toy.wide (Uint8Array.bytes (heap w') payload) = 0.
Proof.
  destruct (@decode_sound Toy.wide [Toy.singleRing] Toy.singleRingData
              Toy.singleRingWorld
              (@_constructFromScan Toy.wide [Toy.singleRing] Toy.singleRingData
                 Toy.singleRingWorld).2)
    as (pl & ecl & checksum & masks & payloadBits & payload
        & Hread & _ & _ & _ & Hget & _ & Hcrc).
  - vm_compute. reflexivity.
  - exists payload. split; [exact Hget|].
    vm_compute in Hread. injection Hread as _ _ <- _. exact Hcrc.
Defined.
